(** * The batch import engine of workers/csvProcessor.js and its routes

    A shallow embedding of [processCSV]: the per-run caches, the five
    [getOrCreate*] resolvers, the batched row loop with its per-row
    try/catch, the counters and the messages posted to the parent port;
    and of the routes around it: the message handler and the file filter
    of the upload (routes/upload.js), [GET /aggregated]
    (routes/policies.js), the creation and cancellation of scheduled
    messages (routes/scheduledMessages.js, models/ScheduledMessage.js)
    and the table of jobs of the scheduler (services/scheduler.js).

    Conventions.
    - Every call of the worker is awaited before the next one starts, so
      a run is a function of what it is given: the payload, the store
      behind the models and the behaviour of the services it calls
      ([host]). Awaited code is written in a state and exception monad
      over the state of the run.
    - Storage (the mongoose models) is a record of collections in
      insertion order. Every call of a model is logged in [trace], so
      that lookups and creations can be counted, and may be rejected by
      storage ([fault]). The setters and validators of the schemas that
      the worker is shipped with (models/User.js, models/UserAccount.js)
      are part of [create]; the setters run on the filter of [findOne]
      as well.
    - A field of a parsed record is [undefined] or a string; an object
      of the [records] array has an identity.
    - [parentPort.postMessage] appends to [out] and does not throw. *)

From Stdlib Require Import Ascii String Sorted.
From stdpp Require Import base numbers strings gmap list.

Open Scope string_scope.
Open Scope list_scope.
Open Scope nat_scope.

(** ** Values *)

(** An [ObjectId]. *)
Definition oid := nat.

(** A field of a parsed record: [None] is JavaScript's [undefined] (the
    header has no such column), [Some s] the cell. The parser trims
    around the delimiters only, so a quoted cell keeps its blanks. *)
Definition field := option string.

(** [if (x)] on a field: [undefined] and the empty string are falsy. *)
Definition truthy (x : field) : bool :=
  match x with
  | Some s => negb (String.eqb s "")
  | None => false
  end.

(** [x || ''] on a field. *)
Definition or_empty (x : field) : string :=
  match x with
  | Some s => s
  | None => ""
  end.

(** [`${x}`] on a field. *)
Definition interpolate (x : field) : string :=
  match x with
  | Some s => s
  | None => "undefined"
  end.

(** One object returned by [parse(csvData, {columns: true, ...})]. *)
Record row := mkRow {
  agent : field;
  category_name : field;
  company_name : field;
  account_name : field;
  firstname : field;
  dob : field;
  address : field;
  phone : field;
  state : field;
  zip : field;
  email : field;
  gender : field;
  userType : field;
  policy_number : field;
  policy_start_date : field;
  policy_end_date : field
}.

(** A record of the [records] array: an object has an identity (its
    address) besides its fields; [Array.prototype.indexOf] compares
    identities. *)
Definition record : Type := nat * row.

(** The argument object of [getOrCreateUser]. *)
Record userData := mkUserData {
  ud_firstname : field;
  ud_dob : field;
  ud_address : field;
  ud_phone : field;
  ud_state : field;
  ud_zip : field;
  ud_email : field;
  ud_gender : field;
  ud_userType : field
}.

(** ** Storage *)

(** The four models that are resolved by one name field. *)
Inductive family := Agent | LOB | Carrier | UserAccount.

Global Instance family_eq_dec : EqDecision family.
Proof. solve_decision. Defined.

(** A document of [Agent], [LOB], [Carrier] or [UserAccount]: its [_id]
    and its name field ([name], [category_name], [company_name],
    [account_name]). *)
Definition ref_doc : Type := oid * string.

(** The object handed to [User.create]; [u_dob] is [null] ([None]) or a
    valid [Date] (its time value). *)
Record user_fields := mkUser {
  u_firstname : string;
  u_dob : option Z;
  u_address : string;
  u_phone : string;
  u_state : string;
  u_zip : string;
  u_email : string;
  u_gender : string;
  u_userType : string
}.

Definition user_doc : Type := oid * user_fields.

Record policy_fields := mkPolicy {
  p_policy_number : string;
  p_policy_start_date : Z;
  p_policy_end_date : Z;
  p_policy_category_id : oid;
  p_company_collection_id : oid;
  p_user_id : oid
}.

Definition policy_doc : Type := oid * policy_fields.

(** The collections, in insertion order, and the next fresh [_id]. *)
Record store := mkStore {
  agents : list ref_doc;
  lobs : list ref_doc;
  carriers : list ref_doc;
  accounts : list ref_doc;
  users : list user_doc;
  policies : list policy_doc;
  next_oid : oid
}.

Definition coll_of (f : family) (d : store) : list ref_doc :=
  match f with
  | Agent => agents d
  | LOB => lobs d
  | Carrier => carriers d
  | UserAccount => accounts d
  end.

Definition push_ref (f : family) (x : ref_doc) (d : store) : store :=
  match f with
  | Agent => mkStore (agents d ++ [x]) (lobs d) (carriers d) (accounts d) (users d) (policies d) (S (next_oid d))
  | LOB => mkStore (agents d) (lobs d ++ [x]) (carriers d) (accounts d) (users d) (policies d) (S (next_oid d))
  | Carrier => mkStore (agents d) (lobs d) (carriers d ++ [x]) (accounts d) (users d) (policies d) (S (next_oid d))
  | UserAccount => mkStore (agents d) (lobs d) (carriers d) (accounts d ++ [x]) (users d) (policies d) (S (next_oid d))
  end.

Definition push_user (x : user_doc) (d : store) : store :=
  mkStore (agents d) (lobs d) (carriers d) (accounts d) (users d ++ [x]) (policies d) (S (next_oid d)).

Definition push_policy (x : policy_doc) (d : store) : store :=
  mkStore (agents d) (lobs d) (carriers d) (accounts d) (users d) (policies d ++ [x]) (S (next_oid d)).

(** A call of a model, as it is issued by the worker. *)
Inductive event :=
  | FindOne (f : family) (label : string)
  | Create (f : family) (label : string)
  | UserFindOne (first mail : string)
  | UserCreate (u : user_fields)
  | PolicyFindOne (number : string)
  | PolicyCreate (p : policy_fields).

(** ** Messages and the state of a run *)

(** An element of [errorsList]. *)
Record error_entry := mkEntry {
  e_row : Z;
  e_error : string;
  e_record : string
}.

(** A message posted on [parentPort]. *)
Inductive message :=
  | Progress (processed total : nat)
  | Done (success : bool) (processed errors total : nat) (errorsList : list error_entry)
  | Error (error : string).

(** The variables of [processCSV] that outlive a row, the store behind
    the models, the log of model calls and the messages posted so far. *)
Record run := mkRun {
  processed : nat;
  errors : nat;
  errorsList : list error_entry;
  agentCache : gmap string oid;
  lobCache : gmap string oid;
  carrierCache : gmap string oid;
  userCache : gmap string oid;
  accountCache : gmap string oid;
  db : store;
  trace : list event;
  out : list message
}.

Definition cache_of (f : family) (st : run) : gmap string oid :=
  match f with
  | Agent => agentCache st
  | LOB => lobCache st
  | Carrier => carrierCache st
  | UserAccount => accountCache st
  end.

Definition cache_set (f : family) (k : string) (v : oid) (st : run) : run :=
  match f with
  | Agent => mkRun (processed st) (errors st) (errorsList st) (<[k:=v]> (agentCache st)) (lobCache st) (carrierCache st) (userCache st) (accountCache st) (db st) (trace st) (out st)
  | LOB => mkRun (processed st) (errors st) (errorsList st) (agentCache st) (<[k:=v]> (lobCache st)) (carrierCache st) (userCache st) (accountCache st) (db st) (trace st) (out st)
  | Carrier => mkRun (processed st) (errors st) (errorsList st) (agentCache st) (lobCache st) (<[k:=v]> (carrierCache st)) (userCache st) (accountCache st) (db st) (trace st) (out st)
  | UserAccount => mkRun (processed st) (errors st) (errorsList st) (agentCache st) (lobCache st) (carrierCache st) (userCache st) (<[k:=v]> (accountCache st)) (db st) (trace st) (out st)
  end.

Definition userCache_set (k : string) (v : oid) (st : run) : run :=
  mkRun (processed st) (errors st) (errorsList st) (agentCache st) (lobCache st) (carrierCache st) (<[k:=v]> (userCache st)) (accountCache st) (db st) (trace st) (out st).

Definition with_db (d : store) (st : run) : run :=
  mkRun (processed st) (errors st) (errorsList st) (agentCache st) (lobCache st) (carrierCache st) (userCache st) (accountCache st) d (trace st) (out st).

Definition log (e : event) (st : run) : run :=
  mkRun (processed st) (errors st) (errorsList st) (agentCache st) (lobCache st) (carrierCache st) (userCache st) (accountCache st) (db st) (trace st ++ [e]) (out st).

Definition post (m : message) (st : run) : run :=
  mkRun (processed st) (errors st) (errorsList st) (agentCache st) (lobCache st) (carrierCache st) (userCache st) (accountCache st) (db st) (trace st) (out st ++ [m]).

(** [processed++] *)
Definition incr_processed (st : run) : run :=
  mkRun (S (processed st)) (errors st) (errorsList st) (agentCache st) (lobCache st) (carrierCache st) (userCache st) (accountCache st) (db st) (trace st) (out st).

(** [errors++; errorsList.push(e)] *)
Definition push_error (e : error_entry) (st : run) : run :=
  mkRun (processed st) (S (errors st)) (errorsList st ++ [e]) (agentCache st) (lobCache st) (carrierCache st) (userCache st) (accountCache st) (db st) (trace st) (out st).

(** The state at [let processed = 0; let errors = 0; ...]: counters at
    zero, five empty [Map]s, nothing logged or posted yet. *)
Definition fresh (d : store) : run :=
  mkRun 0 0 [] ∅ ∅ ∅ ∅ ∅ d [] [].

(** ** Awaited calls: a state and exception monad *)

Inductive result (A : Type) :=
  | Ok (a : A)
  | Throw (msg : string).
Arguments Ok {A} a.
Arguments Throw {A} msg.

Definition M (A : Type) : Type := run → result A * run.

Definition ret {A} (a : A) : M A := λ st, (Ok a, st).

Definition throw {A} (msg : string) : M A := λ st, (Throw msg, st).

Definition bind {A B} (m : M A) (k : A → M B) : M B :=
  λ st, match m st with
        | (Ok a, st') => k a st'
        | (Throw msg, st') => (Throw msg, st')
        end.

Definition gets {A} (f : run → A) : M A := λ st, (Ok (f st), st).

Definition modify (f : run → run) : M unit := λ st, (Ok tt, f st).

Global Instance M_ret : MRet M := @ret.
Global Instance M_bind : MBind M := λ A B k m, bind m k.

(** ** What the worker takes from outside

    The libraries and services the worker calls but does not define. *)
Record host := mkHost {
  (** [mongoose.connect(mongoURI, ...)]: [Some msg] when it rejects. *)
  connect : option string;
  (** [parse(csvData, {columns: true, skip_empty_lines: true, trim: true})]
      of csv-parse/sync: the message of the error it throws, or the rows. *)
  parse : string → string + list row;
  (** [new Date(s).getTime()]: [None] for [NaN]. *)
  new_Date : string → option Z;
  (** [String.prototype.toLowerCase], the [lowercase: true] setter. *)
  toLowerCase : string → string;
  (** [String.prototype.trim], the [trim: true] setter. *)
  trim : string → string;
  (** [fault n = Some msg]: storage rejects the [n]-th model call of the
      run (counted from 1) with an error of that message. *)
  fault : nat → option string;
  (** [mongoose.connection.close()]: [Some msg] when it rejects. *)
  close : option string
}.

(** The first element of an array that satisfies a predicate. *)
Fixpoint first_match {A} (p : A → bool) (l : list A) : option A :=
  match l with
  | [] => None
  | x :: l' => if p x then Some x else first_match p l'
  end.

(** [batch.indexOf(record)]: the first index holding that very object,
    [-1] when there is none. *)
Fixpoint indexOf (batch : list record) (r : record) : Z :=
  match batch with
  | [] => (-1)%Z
  | x :: batch' =>
      if Nat.eqb x.1 r.1 then 0%Z
      else let k := indexOf batch' r in
           if (k <? 0)%Z then (-1)%Z else (k + 1)%Z
  end.

(** [records.slice(i, j)] *)
Definition slice {A} (i j : nat) (l : list A) : list A :=
  take (j - i) (drop i l).

(** The objects of a freshly parsed array: one address per row, [n] being
    the first free address. *)
Fixpoint alloc_from (n : nat) (rows : list row) : list record :=
  match rows with
  | [] => []
  | r :: rows' => (n, r) :: alloc_from (S n) rows'
  end.

Definition alloc (rows : list row) : list record := alloc_from 0 rows.

(** [errorsList.slice(0, 10)] *)
Definition first10 (l : list error_entry) : list error_entry := slice 0 10 l.

(** The [required: true] validator of models/UserAccount.js, on the name
    as its setter has left it ([set_name] below): a required string path
    rejects the empty string. The schemas of Agent, LOB and Carrier lie
    outside this development; what they reject is left to [fault]. *)
Definition validate_ref (f : family) (name : string) : option string :=
  match f with
  | UserAccount =>
      if String.eqb name "" then
        Some "UserAccount validation failed: account_name: Path `account_name` is required."
      else None
  | _ => None
  end.

(** The [required: true] validators of models/User.js, on the document as
    its setters have left it ([set_User] below): [firstname] must be a
    non-empty string and [dob] a date. *)
Definition validate_User (u : user_fields) : option string :=
  match String.eqb (u_firstname u) "", u_dob u with
  | true, None =>
      Some "User validation failed: firstname: Path `firstname` is required., dob: Path `dob` is required."
  | true, Some _ =>
      Some "User validation failed: firstname: Path `firstname` is required."
  | false, None =>
      Some "User validation failed: dob: Path `dob` is required."
  | false, Some _ => None
  end.

Section Engine.

Context (h : host).

(** *** The model API *)

(** Issuing a call of a model. *)
Definition call (e : event) : M unit := modify (log e).

(** The storage round trip of the call just issued. *)
Definition roundtrip : M unit :=
  λ st, match fault h (length (trace st)) with
        | Some msg => (Throw msg, st)
        | None => (Ok tt, st)
        end.

(** A validator's verdict. *)
Definition check (v : option string) : M unit :=
  match v with
  | Some msg => throw msg
  | None => mret tt
  end.

(** The setter of the name path of a reference schema, which mongoose
    runs on a document that is created and on the filter of a query:
    [trim: true] in models/UserAccount.js. The schemas of Agent, LOB and
    Carrier lie outside this development and are taken to keep the name
    as it is given. *)
Definition set_name (f : family) (label : string) : string :=
  match f with
  | UserAccount => trim h label
  | _ => label
  end.

(** The setters of models/User.js: [trim: true] on every string path,
    and [lowercase: true] on [email], whose setters run last declared
    first. *)
Definition set_email (mail : string) : string := trim h (toLowerCase h mail).

Definition set_User (u : user_fields) : user_fields :=
  mkUser (trim h (u_firstname u)) (u_dob u) (trim h (u_address u))
         (trim h (u_phone u)) (trim h (u_state u)) (trim h (u_zip u))
         (set_email (u_email u)) (trim h (u_gender u)) (trim h (u_userType u)).

(** [Model.findOne({ name_field: label })]; the filter is cast with the
    schema, setter included. *)
Definition findOne (f : family) (label : string) : M (option ref_doc) :=
  call (FindOne f label);;
  roundtrip;;
  d ← gets db;
  mret (first_match (λ x, String.eqb x.2 (set_name f label)) (coll_of f d)).

(** [Model.create({ name_field: label })]: setter, validator, insertion. *)
Definition create (f : family) (label : string) : M ref_doc :=
  call (Create f label);;
  check (validate_ref f (set_name f label));;
  roundtrip;;
  id ← gets (λ st, next_oid (db st));
  let doc := (id, set_name f label) in
  modify (λ st, with_db (push_ref f doc (db st)) st);;
  mret doc.

(** [User.findOne({ firstname, email })]; the filter is cast with the
    schema, so the setters apply to [firstname] and [email]. *)
Definition User_findOne (first mail : string) : M (option user_doc) :=
  call (UserFindOne first mail);;
  roundtrip;;
  d ← gets db;
  mret (first_match
          (λ x, String.eqb (u_firstname x.2) (trim h first)
                && String.eqb (u_email x.2) (set_email mail))
          (users d)).

(** [User.create({...})]: setters, validators, insertion. *)
Definition User_create (u : user_fields) : M user_doc :=
  call (UserCreate u);;
  check (validate_User (set_User u));;
  roundtrip;;
  id ← gets (λ st, next_oid (db st));
  let doc := (id, set_User u) in
  modify (λ st, with_db (push_user doc (db st)) st);;
  mret doc.

(** [Policy.findOne({ policy_number })] *)
Definition Policy_findOne (number : string) : M (option policy_doc) :=
  call (PolicyFindOne number);;
  roundtrip;;
  d ← gets db;
  mret (first_match (λ x, String.eqb (p_policy_number x.2) number) (policies d)).

(** [Policy.create({...})]; the schema of Policy lies outside this
    development, what it rejects is left to [fault]. *)
Definition Policy_create (p : policy_fields) : M policy_doc :=
  call (PolicyCreate p);;
  roundtrip;;
  id ← gets (λ st, next_oid (db st));
  let doc := (id, p) in
  modify (λ st, with_db (push_policy doc (db st)) st);;
  mret doc.

(** *** The resolvers *)

(** The common shape of [getOrCreateAgent], [getOrCreateLOB],
    [getOrCreateCarrier] and [getOrCreateUserAccount], which differ in
    the model, the cache and the name of the field only. *)
Definition getOrCreate (f : family) (label : field) : M (option oid) :=
  if negb (truthy label) then mret None
  else
    let name := or_empty label in
    cache ← gets (cache_of f);
    match cache !! name with
    | Some id => mret (Some id)
    | None =>
        found ← findOne f name;
        doc ← match found with
              | Some doc => mret doc
              | None => create f name
              end;
        modify (cache_set f name doc.1);;
        mret (Some doc.1)
    end.

Definition getOrCreateAgent := getOrCreate Agent.
Definition getOrCreateLOB := getOrCreate LOB.
Definition getOrCreateCarrier := getOrCreate Carrier.
Definition getOrCreateUserAccount := getOrCreate UserAccount.

(** [let d = null; if (s) { d = new Date(s); if (isNaN(d.getTime())) d = null; }] *)
Definition parse_date (s : field) : option Z :=
  if truthy s then new_Date h (or_empty s) else None.

(** The key of [userCache]. *)
Definition userKey (u : userData) : string :=
  interpolate (ud_firstname u) +:+ "_" +:+ interpolate (ud_email u)
    +:+ "_" +:+ interpolate (ud_dob u).

Definition getOrCreateUser (u : userData) : M oid :=
  cache ← gets userCache;
  match cache !! userKey u with
  | Some id => mret id
  | None =>
      let dob := parse_date (ud_dob u) in
      user ← (if truthy (ud_firstname u) && truthy (ud_email u) then
                User_findOne (or_empty (ud_firstname u)) (or_empty (ud_email u))
              else mret None);
      doc ← match user with
            | Some doc => mret doc
            | None =>
                User_create
                  (mkUser (or_empty (ud_firstname u)) dob (or_empty (ud_address u))
                          (or_empty (ud_phone u)) (or_empty (ud_state u))
                          (or_empty (ud_zip u)) (or_empty (ud_email u))
                          (or_empty (ud_gender u)) (or_empty (ud_userType u)))
            end;
      modify (userCache_set (userKey u) doc.1);;
      mret doc.1
  end.

(** *** One row *)

(** [// Get or create related entities], [// Create or get user],
    [// Create or get user account]: the five resolutions of a row, in
    the order of the source. The identity of the agent and of the account
    are not used afterwards. *)
Definition resolve (r : row) : M (option oid * option oid * oid) :=
  agentId ← getOrCreateAgent (agent r);
  lobId ← getOrCreateLOB (category_name r);
  carrierId ← getOrCreateCarrier (company_name r);
  userId ← getOrCreateUser
             (mkUserData (firstname r) (dob r) (address r) (phone r) (state r)
                         (zip r) (email r) (gender r) (userType r));
  getOrCreateUserAccount (account_name r);;
  mret (lobId, carrierId, userId).

(** [// Parse dates], [// Create policy if policy_number exists]. An
    [ObjectId] and a [Date] are objects, hence truthy; [null] is falsy. *)
Definition create_policy (r : row) (lobId carrierId : option oid) (userId : oid)
    : M unit :=
  let startDate := parse_date (policy_start_date r) in
  let endDate := parse_date (policy_end_date r) in
  match truthy (policy_number r), lobId, carrierId, startDate, endDate with
  | true, Some lobId, Some carrierId, Some startDate, Some endDate =>
      existingPolicy ← Policy_findOne (or_empty (policy_number r));
      match existingPolicy with
      | Some _ => mret tt
      | None =>
          Policy_create
            (mkPolicy (or_empty (policy_number r)) startDate endDate
                      lobId carrierId userId);;
          mret tt
      end
  | _, _, _, _, _ => mret tt
  end.

(** [processed++] and [// Send progress update to main thread]; [total]
    is [records.length]. *)
Definition count_row (total : nat) : M unit :=
  modify incr_processed;;
  n ← gets processed;
  if Nat.eqb (n mod 50) 0 then modify (post (Progress n total))
  else mret tt.

(** The body of the per-row [try]. *)
Definition try_body (total : nat) (r : row) : M unit :=
  ids ← resolve r;
  create_policy r ids.1.1 ids.1.2 ids.2;;
  count_row total.

(** [record.policy_number || 'N/A'] *)
Definition or_NA (x : field) : string :=
  if truthy x then or_empty x else "N/A".

(** The [try { ... } catch (error) { ... }] of one record of [batch],
    the batch that starts at index [i] of [records]. *)
Definition try_catch (total i : nat) (batch : list record) (r : record)
    (st : run) : run :=
  match try_body total r.2 st with
  | (Ok _, st') => st'
  | (Throw msg, st') =>
      push_error
        (mkEntry (Z.of_nat i + indexOf batch r + 1) msg (or_NA (policy_number r.2)))
        st'
  end.

(** [for (const record of batch) { ... }] *)
Definition for_of (total i : nat) (batch : list record) (st : run) : run :=
  foldl (λ st r, try_catch total i batch r st) st batch.

(** [for (let i = 0; i < records.length; i += batchSize) { ... }], from
    the current [i]; [None] when [fuel] iterations do not reach the end. *)
Fixpoint for_batches (batchSize fuel i : nat) (records : list record)
    (st : run) : option run :=
  match fuel with
  | 0 => None
  | S fuel' =>
      if i <? length records then
        let batch := slice i (i + batchSize) records in
        for_batches batchSize fuel' (i + batchSize) records
                    (for_of (length records) i batch st)
      else Some st
  end.

Definition batchSize : nat := 100.

(** [processCSV(csvData)] against the store [d]: the state the worker is
    left in, [out] holding the messages it posted. The outer [catch]
    posts the [error] message. *)
Definition processCSV (csvData : string) (d : store) : option run :=
  let st := fresh d in
  match connect h with
  | Some msg => Some (post (Error msg) st)
  | None =>
      match parse h csvData with
      | inl msg => Some (post (Error msg) st)
      | inr rows =>
          let records := alloc rows in
          match for_batches batchSize (S (length records)) 0 records st with
          | None => None
          | Some st =>
              match close h with
              | Some msg => Some (post (Error msg) st)
              | None =>
                  Some (post (Done true (processed st) (errors st) (length records)
                                   (first10 (errorsList st))) st)
              end
          end
      end
  end.

(** [if (workerData && workerData.csvData) processCSV(workerData.csvData)]:
    the start of the worker. For an empty payload, or none, nothing is
    called and nothing is posted. [processCSV] catches what it awaits,
    so the [catch] at the call has nothing to post. *)
Definition start (csvData : field) (d : store) : option run :=
  if truthy csvData then processCSV (or_empty csvData) d
  else Some (fresh d).

(** The messages a run posts, in the order of posting. *)
Definition posted (csvData : string) (d : store) : option (list message) :=
  out <$> processCSV csvData d.

End Engine.

(** ** A host to run the engine on *)

Module Demo.

(** ASCII lower case. *)
Definition lower_ascii (a : ascii) : ascii :=
  let n := nat_of_ascii a in
  if (65 <=? n) && (n <=? 90) then ascii_of_nat (n + 32) else a.

Fixpoint lower (s : string) : string :=
  match s with
  | EmptyString => EmptyString
  | String a s' => String (lower_ascii a) (lower s')
  end.

Definition digit (a : ascii) : option Z :=
  let n := nat_of_ascii a in
  if (48 <=? n) && (n <=? 57) then Some (Z.of_nat (n - 48)) else None.

Fixpoint digits (acc : Z) (l : list ascii) : option Z :=
  match l with
  | [] => Some acc
  | a :: l' =>
      match digit a with
      | Some v => digits (10 * acc + v) l'
      | None => None
      end
  end.

(** Days from 1970-01-01 to the civil date [y]-[m]-[d]. *)
Definition days_from_civil (y m d : Z) : Z :=
  (let y' := if m <=? 2 then y - 1 else y in
   let era := y' / 400 in
   let yoe := y' - era * 400 in
   let doy := (153 * (if 2 <? m then m - 3 else m + 9) + 2) / 5 + d - 1 in
   let doe := yoe * 365 + yoe / 4 - yoe / 100 + doy in
   era * 146097 + doe - 719468)%Z.

(** Midnight of the day [d] of the month [m] of the year [y], in
    milliseconds. As in Node, a day up to 31 is taken in every month and
    runs on into the next one (30 February is 2 March). *)
Definition midnight (y m d : Z) : option Z :=
  if ((1 <=? m) && (m <=? 12) && (1 <=? d) && (d <=? 31))%Z
  then Some (86400000 * days_from_civil y m d)%Z
  else None.

(** A [Date] for the examples. It reads two of the forms that Node
    reads, the date-only form [YYYY-MM-DD] (midnight UTC) and the form
    [MM/DD/YYYY] (local midnight, on a server whose clock is UTC); every
    other string is an invalid date here, also those that Node can
    read. *)
Definition new_Date (s : string) : option Z :=
  match list_ascii_of_string s with
  | [a1; a2; a3; a4; a5; a6; a7; a8; a9; a10] =>
      if Ascii.eqb a5 "-" && Ascii.eqb a8 "-" then
        match digits 0 [a1; a2; a3; a4], digits 0 [a6; a7], digits 0 [a9; a10] with
        | Some y, Some m, Some d => midnight y m d
        | _, _, _ => None
        end
      else if Ascii.eqb a3 "/" && Ascii.eqb a6 "/" then
        match digits 0 [a7; a8; a9; a10], digits 0 [a1; a2], digits 0 [a4; a5] with
        | Some y, Some m, Some d => midnight y m d
        | _, _, _ => None
        end
      else None
  | _ => None
  end.

(** The blanks of ASCII: tab, line feed, vertical tab, form feed,
    carriage return and space. *)
Definition blank (a : ascii) : bool :=
  let n := nat_of_ascii a in
  (9 <=? n) && (n <=? 13) || (n =? 32).

Fixpoint trim_start (s : string) : string :=
  match s with
  | EmptyString => EmptyString
  | String a s' => if blank a then trim_start s' else s
  end.

Definition reverse (s : string) : string :=
  string_of_list_ascii (rev (list_ascii_of_string s)).

(** [trim] on text in ASCII; the blanks beyond ASCII that
    [String.prototype.trim] strips as well are left in place. *)
Definition trim (s : string) : string :=
  reverse (trim_start (reverse (trim_start s))).

(** A host whose connection opens and closes, whose parser yields [rows]
    whatever the payload, and whose storage fails as [faults] says. *)
Definition host_of (rows : list row) (faults : nat → option string) : host :=
  mkHost None (λ _, inr rows) new_Date lower trim faults None.

Definition no_fault : nat → option string := λ _, None.

Definition empty_store : store := mkStore [] [] [] [] [] [] 0.

(** A store that knows one carrier. *)
Definition acme_store : store := mkStore [] [] [(7, "Acme Corp")] [] [] [] 8.

(** A row that fills in the person and leaves all other cells empty. *)
Definition person_row (who mail born : string) : row :=
  mkRow (Some "") (Some "") (Some "") (Some "") (Some who) (Some born) (Some "")
        (Some "") (Some "") (Some "") (Some mail) (Some "") (Some "") (Some "")
        (Some "") (Some "").

(** A row that fills in a policy, with its references and its person. *)
Definition policy_row (number who mail born : string) : row :=
  mkRow (Some "Alex Watson") (Some "Commercial Auto") (Some "Acme Corp")
        (Some "Lura Lucca & Associates") (Some who) (Some born) (Some "")
        (Some "") (Some "NC") (Some "34514") (Some mail) (Some "") (Some "Active Client")
        (Some number) (Some "2018-11-02") (Some "2019-11-02").

(** A policy row that names neither an agent nor an account. *)
Definition unassigned_row : row :=
  mkRow (Some "") (Some "Commercial Auto") (Some "Acme Corp") (Some "")
        (Some "Lura Lucca") (Some "1990-05-17") (Some "") (Some "") (Some "NC")
        (Some "34514") (Some "madler@yahoo.ca") (Some "") (Some "Active Client")
        (Some "YEEX9MOIBU7X") (Some "2018-11-02") (Some "2019-11-02").

(** [n] rows of one client and one policy. *)
Definition same_rows (n : nat) : list row :=
  replicate n (policy_row "YEEX9MOIBU7X" "Lura Lucca" "madler@yahoo.ca" "1990-05-17").

(** A storage that rejects every call. *)
Definition all_fault : nat → option string := λ _, Some "connection timed out".

(** A storage that rejects the [k]-th call and no other. *)
Definition fault_at (k : nat) : nat → option string :=
  λ n, if Nat.eqb n k then Some "connection timed out" else None.

(** A row whose account name is a quoted blank. *)
Definition blank_account_row : row :=
  mkRow (Some "") (Some "") (Some "") (Some " ") (Some "Lura Lucca")
        (Some "1990-05-17") (Some "") (Some "") (Some "") (Some "")
        (Some "madler@yahoo.ca") (Some "") (Some "") (Some "") (Some "")
        (Some "").

Definition three_rows : list row :=
  [policy_row "P-1" "Lura Lucca" "madler@yahoo.ca" "1990-05-17";
   policy_row "P-2" "Ann Lee" "ann@lee.org" "1985-01-31";
   policy_row "" "Ann Lee" "ann@lee.org" "1985-01-31"].

End Demo.

(** ** The rows taken one at a time

    The reading of the loop that the specification gives: every record is
    handled once, in input order, under its 1-based row number. *)

(** One row on its own; [n] is its row number. *)
Definition handle (h : host) (total : nat) (n : Z) (r : row) (st : run) : run :=
  match try_body h total r st with
  | (Ok _, st') => st'
  | (Throw msg, st') => push_error (mkEntry n msg (or_NA (policy_number r))) st'
  end.

(** The rows from position [k] (0-based) on, one after the other. *)
Fixpoint one_at_a_time (h : host) (total k : nat) (rows : list row) (st : run) : run :=
  match rows with
  | [] => st
  | r :: rows' => one_at_a_time h total (S k) rows' (handle h total (Z.of_nat k + 1) r st)
  end.

(** The error entries of the rows whose body throws, in input order. *)
Fixpoint thrown (h : host) (total k : nat) (rows : list row) (st : run)
    : list error_entry :=
  match rows with
  | [] => []
  | r :: rows' =>
      match (try_body h total r st).1 with
      | Ok _ => []
      | Throw msg => [mkEntry (Z.of_nat k + 1) msg (or_NA (policy_number r))]
      end ++ thrown h total (S k) rows' (handle h total (Z.of_nat k + 1) r st)
  end.

(** No row of the payload throws in the run of [processCSV] on [d]. *)
Definition no_row_throws (h : host) (rows : list row) (d : store) : Prop :=
  thrown h (length rows) 0 rows (fresh d) = [].

(** The state in which the row loop of a run on [d] leaves the worker. *)
Definition after_rows (h : host) (rows : list row) (d : store) : run :=
  one_at_a_time h (length rows) 0 rows (fresh d).

(** The progress message that counting the [n]-th processed row posts,
    if any. *)
Definition report (n total : nat) : list message :=
  if Nat.eqb (n mod 50) 0 then [Progress n total] else [].

Definition is_progress (m : message) : bool :=
  match m with
  | Progress _ _ => true
  | _ => false
  end.

Definition is_done (m : message) : bool :=
  match m with
  | Done _ _ _ _ _ => true
  | _ => false
  end.

Definition is_error (m : message) : bool :=
  match m with
  | Error _ => true
  | _ => false
  end.

(** The [processed] fields of the progress messages of a sequence. *)
Definition progress_values (ms : list message) : list nat :=
  omap (λ m, match m with Progress p _ => Some p | _ => None end) ms.

(** ** Observations of a run, for the statements below *)

(** [keeps obs m]: whatever its result, [m] leaves the observation [obs]
    of the state as it was. *)
Definition keeps {A X} (obs : run → X) (m : M A) : Prop :=
  ∀ st, obs (m st).2 = obs st.

(** What a row can change only in [count_row] and in the [catch]. *)
Definition counters (st : run) : nat * nat * list error_entry * list message :=
  (processed st, errors st, errorsList st, out st).


Definition given {A} (x : option A) : bool :=
  match x with
  | Some _ => true
  | None => false
  end.

(** Storage holds a policy of that number. *)
Definition policy_known (number : string) (d : store) : bool :=
  existsb (λ x, String.eqb (p_policy_number x.2) number) (policies d).

(** What a row must bring for a policy: the policy number is present, the
    LOB and the carrier resolved to identities (the person always does
    when its resolution returns) and both dates are valid. *)
Definition complete (h : host) (r : row) (lobId carrierId : option oid) : bool :=
  truthy (policy_number r) && given lobId && given carrierId
  && given (parse_date h (policy_start_date r))
  && given (parse_date h (policy_end_date r)).

(** The rule of the data model: the row is complete and storage [d] holds
    no policy of its number. *)
Definition creatable (h : host) (r : row) (lobId carrierId : option oid)
    (d : store) : bool :=
  complete h r lobId carrierId
  && negb (policy_known (or_empty (policy_number r)) d).

Definition stored_policies (st : run) : list policy_doc := policies (db st).

Definition is_lookup (f : family) (l : string) (e : event) : bool :=
  match e with
  | FindOne g k => bool_decide (g = f) && String.eqb k l
  | _ => false
  end.

Definition is_creation (f : family) (l : string) (e : event) : bool :=
  match e with
  | Create g k => bool_decide (g = f) && String.eqb k l
  | _ => false
  end.

(** The number of [findOne] calls for label [l] of family [f] in a log. *)
Definition lookups (f : family) (l : string) (tr : list event) : nat :=
  length (List.filter (is_lookup f l) tr).

(** The number of [create] calls for label [l] of family [f] in a log. *)
Definition creations (f : family) (l : string) (tr : list event) : nat :=
  length (List.filter (is_creation f l) tr).

(** The label of family [f] that a row mentions. *)
Definition mention (f : family) (r : row) : field :=
  match f with
  | Agent => agent r
  | LOB => category_name r
  | Carrier => company_name r
  | UserAccount => account_name r
  end.





(** The number of [User.findOne] calls in a log. *)
Definition user_lookups (st : run) : nat :=
  length (List.filter (λ e, match e with UserFindOne _ _ => true | _ => false end)
                      (trace st)).

(** ** How a run changes the store *)

(** One insertion as the worker performs it: a reference document under
    a name that the lookup did not find, a person, or a policy under a
    number that the lookup did not find. *)
Inductive insertion : store → store → Prop :=
  | insert_ref f name d :
      first_match (λ x, String.eqb x.2 name) (coll_of f d) = None →
      insertion d (push_ref f (next_oid d, name) d)
  | insert_user u d :
      insertion d (push_user (next_oid d, u) d)
  | insert_policy p d :
      first_match (λ x, String.eqb (p_policy_number x.2) (p_policy_number p))
                  (policies d) = None →
      insertion d (push_policy (next_oid d, p) d).

(** The store that a run of [processCSV] on [d] leaves behind. *)
Definition store_after (h : host) (csvData : string) (d : store) : store :=
  match processCSV h csvData d with
  | Some st => db st
  | None => d
  end.

(** The names stored for a family, and the numbers of the stored
    policies. *)
Definition names (f : family) (d : store) : list string := (coll_of f d).*2.

Definition numbers (d : store) : list string :=
  (λ x, p_policy_number x.2) <$> policies d.

(** The five caches of a run. *)
Definition caches (st : run)
    : gmap string oid * gmap string oid * gmap string oid * gmap string oid
      * gmap string oid :=
  (agentCache st, lobCache st, carrierCache st, userCache st, accountCache st).

(** Every cached identity is the [_id] of a stored document: of a
    document of that name, as the schema sets it, for the four reference
    caches, of a person for [userCache]. *)
Definition sound (h : host) (st : run) : Prop :=
  (∀ f l id, cache_of f st !! l = Some id →
             (id, set_name h f l) ∈ coll_of f (db st))
  ∧ (∀ k id, userCache st !! k = Some id → id ∈ (users (db st)).*1).

(** The documents that a policy refers to are stored in [d]. *)
Definition refers_to_stored (p : policy_fields) (d : store) : Prop :=
  p_policy_category_id p ∈ (lobs d).*1
  ∧ p_company_collection_id p ∈ (carriers d).*1
  ∧ p_user_id p ∈ (users d).*1.

(** [hoare P m Q]: from a state that satisfies [P], [m] ends, whether it
    returns or throws, with a result and a state that satisfy [Q]. *)
Definition hoare {A} (P : run → Prop) (m : M A) (Q : result A → run → Prop)
    : Prop :=
  ∀ st res st', m st = (res, st') → P st → Q res st'.

(** [inv I m]: [m] keeps the invariant [I], whether it returns or
    throws. *)
Definition inv {A} (I : run → Prop) (m : M A) : Prop :=
  hoare I m (λ _ st, I st).

(** [grows m]: all that [m] does to the store is a sequence of
    insertions. *)
Definition grows {A} (m : M A) : Prop :=
  ∀ st res st', m st = (res, st') → rtc insertion (db st) (db st').

(** The object that a row hands to [getOrCreateUser]. *)
Definition person_of (r : row) : userData :=
  mkUserData (firstname r) (dob r) (address r) (phone r) (state r) (zip r)
             (email r) (gender r) (userType r).

(** The persons of the store and the keys resolved so far. *)
Definition persons (st : run) : list user_doc * gmap string oid :=
  (users (db st), userCache st).

(** A row that brings a policy number, a category, a company and two
    valid policy dates. *)
Definition ready (h : host) (r : row) : bool :=
  truthy (policy_number r) && truthy (category_name r)
  && truthy (company_name r)
  && given (parse_date h (policy_start_date r))
  && given (parse_date h (policy_end_date r)).

(** Store [d] knows what row [r] names: every non-empty label of the row
    is, as the schema sets it, the name of a stored document of its
    family, and the policy number of a ready row is that of a stored
    policy. *)
Definition known (h : host) (r : row) (d : store) : Prop :=
  (∀ f l, mention f r = Some l → l ≠ "" → set_name h f l ∈ names f d)
  ∧ (ready h r = true → or_empty (policy_number r) ∈ numbers d).

(** Two hosts compute the same functions: they parse a payload, read a
    date and set a string in the same way.  Whether the connection opens
    and closes and which storage calls are rejected is each host's own. *)
Definition same_functions (h h' : host) : Prop :=
  parse h' = parse h ∧ new_Date h' = new_Date h
  ∧ toLowerCase h' = toLowerCase h ∧ trim h' = trim h.

(** Two stores hold the same reference documents and the same
    policies. *)
Definition same_refs (d d' : store) : Prop :=
  (∀ f, coll_of f d' = coll_of f d) ∧ policies d' = policies d.

(** A person with the first name and the e-mail of the row is among [us];
    this is what [User.findOne({ firstname, email })] asks of the store. *)
Definition person_stored (h : host) (r : row) (us : list user_doc) : Prop :=
  ∃ doc, doc ∈ us
         ∧ u_firstname doc.2 = trim h (or_empty (firstname r))
         ∧ u_email doc.2 = set_email h (or_empty (email r)).

(** The row has both values that the query for a person needs. *)
Definition named (r : row) : bool := truthy (firstname r) && truthy (email r).

(** The persons of the rows whose key is cached are stored. *)
Definition cached_persons (h : host) (rows : list row)
    (p : list user_doc * gmap string oid) : Prop :=
  ∀ r, r ∈ rows → is_Some (p.2 !! userKey (person_of r)) → person_stored h r p.1.

(** Rows with the same key in [userCache] name the same person. *)
Definition keys_tell_persons (rows : list row) : Prop :=
  ∀ r r', r ∈ rows → r' ∈ rows →
          userKey (person_of r) = userKey (person_of r') →
          firstname r = firstname r' ∧ email r = email r'.

(** ** The upload route's side of the port (routes/upload.js)

    What the handler of [worker.on('message', ...)] does: it logs, and on
    a terminal message it removes the uploaded file. *)
Inductive action :=
  | LogProgress (processed total : nat)
  | LogDone (processed errors : nat)
  | LogError (error : string)
  | Unlink.

Definition on_message (m : message) : list action :=
  match m with
  | Progress processed total => [LogProgress processed total]
  | Done _ processed errors _ _ => [LogDone processed errors; Unlink]
  | Error error => [LogError error; Unlink]
  end.

Definition is_Unlink (a : action) : bool :=
  match a with
  | Unlink => true
  | _ => false
  end.

(** What the handler does over the life of a worker that the route has
    started on the text [csvData] of an uploaded file. *)
Definition upload_actions (h : host) (csvData : string) (d : store) : list action :=
  match start h (Some csvData) d with
  | Some st => flat_map on_message (out st)
  | None => []
  end.

(** ** Scheduled messages (routes/scheduledMessages.js, models/ScheduledMessage.js)

    A [Date] as the getters and setters of the source use it, in local
    time: the number of its day (days since 1 January 1970, a Thursday)
    and its time of day. The clock of the server is taken to run without
    daylight-saving changes, so that every time of day exists on every
    day. *)
Record date := mkDate {
  d_day : Z;
  d_hours : Z;
  d_minutes : Z;
  d_seconds : Z;
  d_ms : Z
}.

Section Dates.

Local Open Scope Z_scope.

(** What [new Date()] can return. *)
Definition is_date (t : date) : Prop :=
  0 ≤ d_hours t < 24 ∧ 0 ≤ d_minutes t < 60 ∧ 0 ≤ d_seconds t < 60
  ∧ 0 ≤ d_ms t < 1000.

(** [t.getDay()]: 0 is Sunday. *)
Definition getDay (t : date) : Z := (d_day t + 4) mod 7.

(** [t.getTime()], up to the offset of the time zone. *)
Definition getTime (t : date) : Z :=
  ((d_day t * 24 + d_hours t) * 60 + d_minutes t) * 60000
  + d_seconds t * 1000 + d_ms t.

(** [t.setHours(h, m, s, ms)] for a time of day [h:m:s.ms], which is what
    the route passes once [timeRegex] has accepted the time. *)
Definition setHours (h m s ms : Z) (t : date) : date :=
  mkDate (d_day t) h m s ms.

(** [t.setDate(u.getDate() + k)] for [t] on the day of [u]: a day of the
    month past the end of the month runs on into the next month, so this
    is the day [k] days after [u], at the time of day of [t]. *)
Definition setDate_getDate_plus (u : date) (k : Z) (t : date) : date :=
  mkDate (d_day u + k) (d_hours t) (d_minutes t) (d_seconds t) (d_ms t).

(** [dayMap[day]] *)
Definition dayMap (day : string) : option Z :=
  if String.eqb day "sunday" then Some 0
  else if String.eqb day "monday" then Some 1
  else if String.eqb day "tuesday" then Some 2
  else if String.eqb day "wednesday" then Some 3
  else if String.eqb day "thursday" then Some 4
  else if String.eqb day "friday" then Some 5
  else if String.eqb day "saturday" then Some 6
  else None.

(** The value of a decimal digit. *)
Definition digit (c : ascii) : option Z :=
  let n := Z.of_N (N_of_ascii c) in
  if (48 <=? n) && (n <=? 57) then Some (n - 48) else None.

Fixpoint digits (acc : Z) (s : string) : option Z :=
  match s with
  | EmptyString => Some acc
  | String c s' =>
      match digit c with
      | Some v => digits (10 * acc + v) s'
      | None => None
      end
  end.

(** [Number(s)] for a string of decimal digits, the only strings that
    the route converts; for any other string the result is [None]. *)
Definition Number (s : string) : option Z := digits 0 s.

(** [s.split(sep)] for a separator of one character. *)
Fixpoint split (sep : ascii) (s : string) : list string :=
  match s with
  | EmptyString => [EmptyString]
  | String c s' =>
      if Ascii.eqb c sep then EmptyString :: split sep s'
      else match split sep s' with
           | x :: xs => String c x :: xs
           | [] => [String c EmptyString]
           end
  end.

(** [const [hours, minutes] = time.split(':').map(Number)] *)
Definition hours_minutes (time : string) : option (Z * Z) :=
  match split ":" time with
  | h :: m :: _ =>
      match Number h, Number m with
      | Some hours, Some minutes => Some (hours, minutes)
      | _, _ => None
      end
  | _ => None
  end.

(** The body of [getNextScheduledDate] from [const now = new Date()] on. *)
Definition next_date (targetDay hours minutes : Z) (now : date) : date :=
  let currentDay := getDay now in
  let currentHour := d_hours now in
  let currentMinute := d_minutes now in
  let daysUntilTarget := targetDay - currentDay in
  let targetDate := setHours hours minutes 0 0 now in
  let daysUntilTarget :=
    if (daysUntilTarget =? 0)
       && ((hours <? currentHour)
           || ((currentHour =? hours) && (minutes <=? currentMinute)))
    then 7
    else if daysUntilTarget <? 0 then daysUntilTarget + 7
    else daysUntilTarget in
  setDate_getDate_plus now daysUntilTarget targetDate.

(** [c] is a character of the class [[lo-hi]]. *)
Definition class (lo hi c : ascii) : bool :=
  ((N_of_ascii lo <=? N_of_ascii c) && (N_of_ascii c <=? N_of_ascii hi))%N.

(** [/^([0-1][0-9]|2[0-3]):[0-5][0-9]$/.test(time)], the [timeRegex] of the
    route and the [match] of the schema. *)
Definition timeRegex (time : string) : bool :=
  match time with
  | String a (String b (String c (String d (String e EmptyString)))) =>
      ((class "0" "1" a && class "0" "9" b) || (Ascii.eqb a "2" && class "0" "3" b))
      && Ascii.eqb c ":" && class "0" "5" d && class "0" "9" e
  | _ => false
  end.

(** [validDays] of the route, which is also the [enum] of the schema. *)
Definition validDays : list string :=
  ["monday"; "tuesday"; "wednesday"; "thursday"; "friday"; "saturday"; "sunday"].

(** [l.includes(s)] *)
Definition includes (l : list string) (s : string) : bool :=
  existsb (String.eqb s) l.

End Dates.

Section Schedule.

(** [String.prototype.toLowerCase] and [String.prototype.trim]. *)
Variable toLowerCase : string → string.
Variable trim : string → string.

(** [getNextScheduledDate(day, time)] when the clock shows [now]. [None]
    stands for the calls that the route does not make: a day that is not
    a key of [dayMap], for which the source returns an Invalid Date, and
    a time that is not two numbers of decimal digits. *)
Definition getNextScheduledDate (day time : string) (now : date) : option date :=
  match dayMap (toLowerCase day), hours_minutes time with
  | Some targetDay, Some (hours, minutes) =>
      Some (next_date targetDay hours minutes now)
  | _, _ => None
  end.

End Schedule.

(** [status] of a scheduled message. *)
Inductive status := Pending | Completed | Failed | Cancelled.

(** A document of the [ScheduledMessage] collection. The timestamps and
    the two fields that only the scheduler writes ([executed_at],
    [error_message]) play no part in the routes and are left out. *)
Record scheduledMessage := mkScheduledMessage {
  sm_id : oid;
  sm_message : string;
  scheduled_day : string;
  scheduled_time : string;
  scheduled_datetime : date;
  sm_status : status
}.

(** The paths of the schema that have validators. *)
Inductive path := PMessage | PDay | PTime | PDatetime.

(** Why a handler ends in its [catch]. *)
Inductive failure :=
  | ValidationError (paths : list path)
  | Rejected (message : string).

(** What the route asks of the scheduler. *)
Inductive scheduler_call :=
  | ScheduleMessage (doc : scheduledMessage)
  | CancelMessage (id : oid).

(** The collection, the [scheduler] variable of the router ([null] until
    [setScheduler] is called) and the calls the router has made on it. *)
Record router := mkRouter {
  scheduledMessages : list scheduledMessage;
  next_id : oid;
  scheduler_set : bool;
  calls : list scheduler_call
}.

Definition with_messages (l : list scheduledMessage) (a : router) : router :=
  mkRouter l (next_id a) (scheduler_set a) (calls a).

(** [if (scheduler) { scheduler.f(x); }] *)
Definition tell (c : scheduler_call) (a : router) : router :=
  if scheduler_set a
  then mkRouter (scheduledMessages a) (next_id a) (scheduler_set a) (calls a ++ [c])
  else a.

(** The paths of a document whose validators fail, in the order of the
    schema of models/ScheduledMessage.js, after its setters have run:
    [message] is required; [scheduled_day] is required and one of the
    [enum]; [scheduled_time] is required and must [match];
    [scheduled_datetime] is required. A [status] of ['pending'] is always
    valid. *)
Definition invalid_paths (message day time : string) (datetime : option date)
    : list path :=
  (if String.eqb message "" then [PMessage] else [])
  ++ (if includes validDays day then [] else [PDay])
  ++ (if timeRegex time then [] else [PTime])
  ++ (match datetime with Some _ => [] | None => [PDatetime] end).

(** The answers of [POST /api/scheduled-messages]. *)
Inductive post_response :=
  | MissingFields (message day time : bool)
  | InvalidDay (received : string)
  | InvalidTime (received : string)
  | Created (doc : scheduledMessage)
  | ErrorCreating (e : failure).

(** The answers of [DELETE /api/scheduled-messages/:id]. *)
Inductive delete_response :=
  | NotFound
  | NotPending (currentStatus : status)
  | CancelledOk
  | ErrorCancelling (message : string).

(** [ScheduledMessage.findById(id)] *)
Definition findById (id : oid) (a : router) : option scheduledMessage :=
  first_match (λ m, Nat.eqb (sm_id m) id) (scheduledMessages a).

(** [ScheduledMessage.findByIdAndUpdate(id, { status })] *)
Fixpoint set_status (id : oid) (s : status) (l : list scheduledMessage)
    : list scheduledMessage :=
  match l with
  | [] => []
  | m :: l' =>
      if Nat.eqb (sm_id m) id
      then mkScheduledMessage (sm_id m) (sm_message m) (scheduled_day m)
             (scheduled_time m) (scheduled_datetime m) s :: l'
      else m :: set_status id s l'
  end.

Section Routes.

Variable toLowerCase : string → string.
Variable trim : string → string.

(** [ScheduledMessage.create({ message, scheduled_day, scheduled_time,
    scheduled_datetime, status: 'pending' })]: the setters of the schema
    ([trim], [lowercase]), its validators, and the insertion, which
    storage may reject. *)
Definition ScheduledMessage_create (message day time : string)
    (datetime : option date) (rejected : option string) (a : router)
    : failure + scheduledMessage * router :=
  let message := trim message in
  let day := toLowerCase day in
  match invalid_paths message day time datetime, datetime with
  | [], Some datetime =>
      match rejected with
      | Some msg => inl (Rejected msg)
      | None =>
          let doc := mkScheduledMessage (next_id a) message day time datetime
                       Pending in
          inr (doc, mkRouter (scheduledMessages a ++ [doc]) (S (next_id a))
                          (scheduler_set a) (calls a))
      end
  | paths, _ => inl (ValidationError paths)
  end.

(** [router.post('/', ...)] on a body whose [message], [day] and [time]
    are absent or strings, when the clock shows [now]; [rejected] is the
    rejection of the insertion by storage, if any. *)
Definition router_post (message day time : field) (now : date)
    (rejected : option string) (a : router) : post_response * router :=
  if negb (truthy message) || negb (truthy day) || negb (truthy time) then
    (MissingFields (truthy message) (truthy day) (truthy time), a)
  else
    let message := or_empty message in
    let day := or_empty day in
    let time := or_empty time in
    if negb (includes validDays (toLowerCase day)) then (InvalidDay day, a)
    else if negb (timeRegex time) then (InvalidTime time, a)
    else
      let scheduledDatetime := getNextScheduledDate toLowerCase day time now in
      match ScheduledMessage_create (trim message) (toLowerCase day) time
              scheduledDatetime rejected a with
      | inr (scheduledMessage, a') =>
          (Created scheduledMessage, tell (ScheduleMessage scheduledMessage) a')
      | inl e => (ErrorCreating e, a)
      end.

End Routes.

(** [router.delete('/:id', ...)] for the id of an [ObjectId]; [rejected1]
    and [rejected2] are the rejections of the query and of the update by
    storage, if any. *)
Definition router_delete (id : oid) (rejected1 rejected2 : option string) (a : router)
    : delete_response * router :=
  match rejected1 with
  | Some msg => (ErrorCancelling msg, a)
  | None =>
      match findById id a with
      | None => (NotFound, a)
      | Some scheduledMessage =>
          match sm_status scheduledMessage with
          | Pending =>
              let a := tell (CancelMessage id) a in
              match rejected2 with
              | Some msg => (ErrorCancelling msg, a)
              | None =>
                  (CancelledOk,
                   with_messages (set_status id Cancelled (scheduledMessages a)) a)
              end
          | s => (NotPending s, a)
          end
      end
  end.

(** ** Policies by user (routes/policies.js, [GET /aggregated])

    The route reads the collections that the worker fills. *)

(** One document of the [$group] stage: [_id] and the pushed policies;
    [policy_count], the [$sum] of 1 per policy, is their number. *)
Definition user_group : Type := oid * list policy_fields.

(** The accumulators of [$group] on one more policy. *)
Fixpoint accumulate (p : policy_fields) (gs : list user_group) : list user_group :=
  match gs with
  | [] => [(p_user_id p, [p])]
  | g :: gs' =>
      if Nat.eqb g.1 (p_user_id p) then (g.1, g.2 ++ [p]) :: gs'
      else g :: accumulate p gs'
  end.

(** [{ $group: { _id: '$user_id', policy_count: { $sum: 1 },
    policies: { $push: {...} } } }] over the collection. *)
Definition grouped (ps : list policy_doc) : list user_group :=
  foldl (λ gs p, accumulate p.2 gs) [] ps.

(** Two groups of the same user with the same policies, in any order. *)
Definition same_group (x y : user_group) : Prop := x.1 = y.1 ∧ x.2 ≡ₚ y.2.

(** What [Policy.aggregate([{ $group }, { $sort: { policy_count: -1 } }])]
    may answer on the store: the groups, in some order of descending
    [policy_count]. Neither the order among equal counts nor the order of
    the policies within a group is determined. *)
Definition is_aggregate (items : list user_group) (d : store) : Prop :=
  (∃ gs, items ≡ₚ gs ∧ Forall2 same_group gs (grouped (policies d)))
  ∧ StronglySorted (λ x y, length y.2 ≤ length x.2) items.

(** An entry of [policies] in the answer. *)
Record policy_view := mkPolicyView {
  v_policy_number : string;
  v_policy_start_date : Z;
  v_policy_end_date : Z;
  v_policy_category : option string;
  v_company_name : option string
}.

(** An entry of [data] in the answer. *)
Record user_view := mkUserView {
  v_user : user_doc;
  v_policy_count : nat;
  v_policies : list policy_view
}.

Inductive aggregated_response :=
  | Aggregated (total_users total_policies : nat) (data : list user_view)
  | ErrorAggregating (message : string).

(** [Model.findById(id).lean()] on a collection. *)
Definition by_id {A} (id : oid) (l : list (oid * A)) : option (oid * A) :=
  first_match (λ x, Nat.eqb x.1 id) l.

(** [doc?.name || null] *)
Definition name_or_null (doc : option ref_doc) : option string :=
  match doc with
  | Some x => if String.eqb x.2 "" then None else Some x.2
  | None => None
  end.

(** The inner [item.policies.map(async (policy) => ...)]. *)
Definition with_details (d : store) (policy : policy_fields) : policy_view :=
  let lob := by_id (p_policy_category_id policy) (lobs d) in
  let carrier := by_id (p_company_collection_id policy) (carriers d) in
  mkPolicyView (p_policy_number policy) (p_policy_start_date policy)
    (p_policy_end_date policy) (name_or_null lob) (name_or_null carrier).

(** The outer [aggregatedPolicies.map(async (item) => ...)]: [None] is
    the [null] of a user that is not stored. *)
Definition populate (d : store) (item : user_group) : option user_view :=
  match by_id item.1 (users d) with
  | None => None
  | Some user => Some (mkUserView user (length item.2) (with_details d <$> item.2))
  end.

(** [router.get('/aggregated', ...)] when [Policy.aggregate] answers
    [items]; [rejected] is the first rejection of a query by storage, if
    any. *)
Definition aggregated (rejected : option string) (items : list user_group)
    (d : store) : aggregated_response :=
  match rejected with
  | Some msg => ErrorAggregating msg
  | None =>
      let result := populate d <$> items in
      let filteredResult := omap id result in
      Aggregated (length filteredResult)
        (foldl (λ sum item, sum + v_policy_count item) 0 filteredResult)
        filteredResult
  end.

(** Every stored policy belongs to a stored person. *)
Definition owners_stored (d : store) : Prop :=
  ∀ doc, doc ∈ policies d → p_user_id doc.2 ∈ (users d).*1.

(** Strings for the examples: ASCII blanks for [trim]. *)
Module Text.

(** [String.prototype.trim] on text in ASCII. *)
Definition trim (s : string) : string := Demo.trim s.

(** A router with no message and no scheduler yet. *)
Definition empty_router : router := mkRouter [] 0 false [].

(** Friday 9 January 1970, 09:05:00.000. *)
Definition friday_morning : date := mkDate 8 9 5 0 0.

(** A store with one person and her policy. *)
Definition lura : user_doc :=
  (1, mkUser "Lura Lucca" (Some 642902400000%Z) "" "" "NC" "34514"
             "madler@yahoo.ca" "" "Active Client").

Definition one_policy_store : store :=
  mkStore [] [(2, "Commercial Auto")] [(3, "Acme Corp")] [] [lura]
          [(4, mkPolicy "YEEX9MOIBU7X" 1541116800000 1572652800000 2 3 1)] 5.

End Text.

(** The ids of the reference documents are below the next id, and no two
    documents of a family share an id. *)
Definition fresh_ids (d : store) : Prop :=
  ∀ f, Forall (λ x : ref_doc, x.1 < next_oid d) (coll_of f d)
       ∧ NoDup (coll_of f d).*1.

(** The policy [doc] is what the row [r] said: its number is the row's,
    and its category and company are the stored LOB and carrier of the
    names in the row. *)
Definition told_by (r : row) (d : store) (doc : policy_doc) : Prop :=
  policy_number r = Some (p_policy_number doc.2)
  ∧ (∃ name, category_name r = Some name ∧ name ≠ ""
             ∧ (p_policy_category_id doc.2, name) ∈ lobs d)
  ∧ (∃ name, company_name r = Some name ∧ name ≠ ""
             ∧ (p_company_collection_id doc.2, name) ∈ carriers d).

(** ** The upload route: which file is read how (routes/upload.js) *)

(** [s.endsWith(suffix)] *)
Definition endsWith (s suffix : string) : bool :=
  bool_decide (list_ascii_of_string suffix `suffix_of` list_ascii_of_string s).

(** [/\.(csv|xlsx|xls)$/i.test(originalname)], the [fileFilter] of the
    upload: the letters of the pattern are ASCII, so ignoring case is
    comparing in ASCII lower case. *)
Definition allowedTypes (originalname : string) : bool :=
  endsWith (Demo.lower originalname) ".csv"
  || endsWith (Demo.lower originalname) ".xlsx"
  || endsWith (Demo.lower originalname) ".xls".

Definition xlsx_mimetype : string :=
  "application/vnd.openxmlformats-officedocument.spreadsheetml.sheet".

(** The condition of [// Handle XLSX files]: the upload is opened as a
    workbook; otherwise it is read as UTF-8 text. *)
Definition read_as_workbook (mimetype originalname : string) : bool :=
  String.eqb mimetype xlsx_mimetype
  || endsWith originalname ".xlsx"
  || endsWith originalname ".xls".

(** ** The table of jobs of the scheduler (services/scheduler.js)

    The three synchronous methods that the routes and the shutdown
    handlers call. A timeout of [setTimeout] has an identity; it is
    pending until it fires or is cleared. *)
Record timeout := mkTimeout {
  t_message : scheduledMessage;
  t_delay : Z
}.

Record scheduler := mkScheduler {
  jobs : gmap oid nat;
  isRunning : bool;
  pending : gmap nat timeout;
  next_timeout : nat;
  executing : list scheduledMessage
}.

(** [scheduleMessage(message)] when the clock shows [now]. A message
    whose time has passed is executed at once, without a job; otherwise
    a timeout is set and stored under the id of the message. *)
Definition scheduleMessage (message : scheduledMessage) (now : date)
    (s : scheduler) : scheduler :=
  let jobId := sm_id message in
  let scheduledDate := scheduled_datetime message in
  if (getTime scheduledDate <? getTime now)%Z then
    mkScheduler (jobs s) (isRunning s) (pending s) (next_timeout s)
                (executing s ++ [message])
  else
    let delay := (getTime scheduledDate - getTime now)%Z in
    let timeoutId := next_timeout s in
    mkScheduler (<[jobId := timeoutId]> (jobs s)) (isRunning s)
                (<[timeoutId := mkTimeout message delay]> (pending s))
                (S timeoutId) (executing s).

(** [cancelMessage(messageId)] *)
Definition cancelMessage (messageId : oid) (s : scheduler) : bool * scheduler :=
  match jobs s !! messageId with
  | Some timeoutId =>
      (true,
       mkScheduler (delete messageId (jobs s)) (isRunning s)
                   (delete timeoutId (pending s)) (next_timeout s) (executing s))
  | None => (false, s)
  end.

(** [stop()]: every timeout of the table is cleared, and the table. *)
Definition stop (s : scheduler) : scheduler :=
  mkScheduler ∅ false
              (foldr (λ job left, delete job.2 left) (pending s)
                     (map_to_list (jobs s)))
              (next_timeout s) (executing s).

(** The loop of [loadPendingMessages] over the answer of its query; a
    message comes with what the clock shows when its turn comes. *)
Fixpoint loadPendingMessages (pendingMessages : list (scheduledMessage * date))
    (s : scheduler) : scheduler :=
  match pendingMessages with
  | [] => s
  | (message, now) :: rest =>
      loadPendingMessages rest
        (match jobs s !! sm_id message with
         | Some _ => s
         | None => scheduleMessage message now s
         end)
  end.

(** Every pending timeout is the job of its message. *)
Definition no_orphan (s : scheduler) : Prop :=
  ∀ t x, pending s !! t = Some x → jobs s !! sm_id (t_message x) = Some t.

(** The timeouts in use are older than the next one. *)
Definition numbered (s : scheduler) : Prop :=
  ∀ t x, pending s !! t = Some x → t < next_timeout s.

(** A scheduler with no job, and a message for the examples. *)
Module Idle.

Definition table : scheduler := mkScheduler ∅ true ∅ 0 [].

Definition reminder : scheduledMessage :=
  mkScheduledMessage 0 "Pay the premium" "friday" "14:30" (mkDate 8 14 30 0 0)
                     Pending.

End Idle.

(** ** Reasoning about awaited calls *)

Lemma bind_Ok {A B} (m : M A) (k : A → M B) st a st1 :
  m st = (Ok a, st1) → (m ≫= k) st = k a st1.
Proof. intros E. unfold mbind, M_bind, bind. by rewrite E. Qed.

Lemma bind_Throw {A B} (m : M A) (k : A → M B) st msg st1 :
  m st = (Throw msg, st1) → (m ≫= k) st = (Throw msg, st1).
Proof. intros E. unfold mbind, M_bind, bind. by rewrite E. Qed.

Lemma bind_inv {A B} (m : M A) (k : A → M B) st res st' :
  (m ≫= k) st = (res, st') →
  (∃ a st1, m st = (Ok a, st1) ∧ k a st1 = (res, st'))
  ∨ (∃ msg, m st = (Throw msg, st') ∧ res = Throw msg).
Proof.
  unfold mbind, M_bind, bind. destruct (m st) as [[a|msg] st1] eqn:E; intros H.
  - left. eauto.
  - right. inversion H; subst. eauto.
Qed.

Section Keeps.

Context {X : Type} (obs : run → X).

Lemma keeps_ret {A} (a : A) : keeps obs (mret a).
Proof. by intros st. Qed.

Lemma keeps_throw {A} msg : keeps obs (@throw A msg).
Proof. by intros st. Qed.

Lemma keeps_gets {A} (f : run → A) : keeps obs (gets f).
Proof. by intros st. Qed.

Lemma keeps_modify (f : run → run) :
  (∀ st, obs (f st) = obs st) → keeps obs (modify f).
Proof. intros H st. apply H. Qed.

Lemma keeps_bind {A B} (m : M A) (k : A → M B) :
  keeps obs m → (∀ a, keeps obs (k a)) → keeps obs (m ≫= k).
Proof.
  intros Hm Hk st. unfold mbind, M_bind, bind.
  specialize (Hm st). destruct (m st) as [[a|msg] st1]; simpl in *.
  - rewrite Hk. done.
  - done.
Qed.

Lemma keeps_check v : keeps obs (check v).
Proof. destruct v; [apply keeps_throw | apply keeps_ret]. Qed.

Lemma keeps_roundtrip h : keeps obs (roundtrip h).
Proof. intros st. unfold roundtrip. by destruct (fault h _). Qed.

End Keeps.

(** Decomposes a [keeps] goal along the structure of the program; what is
    left are the [modify] steps, to be closed by the caller. *)
Ltac keeps_step :=
  lazymatch goal with
  | |- keeps _ (_ ≫= _) => apply keeps_bind; [| intros ?]
  | |- keeps _ (mret _) => apply keeps_ret
  | |- keeps _ (throw _) => apply keeps_throw
  | |- keeps _ (gets _) => apply keeps_gets
  | |- keeps _ (check _) => apply keeps_check
  | |- keeps _ (roundtrip _) => apply keeps_roundtrip
  | |- keeps _ (modify _) => apply keeps_modify; intros ?
  | |- keeps _ (call _) => apply keeps_modify; intros ?
  | |- keeps _ (match ?x with _ => _ end) => destruct x
  end.

Ltac keeps_tac := repeat keeps_step.

(** *** The counters and the port are the row loop's own *)

Lemma cache_set_counters f k v st : counters (cache_set f k v st) = counters st.
Proof. by destruct f. Qed.

Lemma findOne_counters h f l : keeps counters (findOne h f l).
Proof. unfold findOne. keeps_tac; done. Qed.

Lemma create_counters h f l : keeps counters (create h f l).
Proof. unfold create. keeps_tac; done. Qed.

Lemma getOrCreate_counters h f l : keeps counters (getOrCreate h f l).
Proof.
  unfold getOrCreate. keeps_tac;
    first [ apply findOne_counters | apply create_counters
          | apply cache_set_counters | done ].
Qed.

Lemma getOrCreateUser_counters h u : keeps counters (getOrCreateUser h u).
Proof.
  unfold getOrCreateUser, User_findOne, User_create. keeps_tac; done.
Qed.

Lemma resolve_counters h r : keeps counters (resolve h r).
Proof.
  unfold resolve, getOrCreateAgent, getOrCreateLOB, getOrCreateCarrier,
    getOrCreateUserAccount.
  keeps_tac; first [ apply getOrCreate_counters | apply getOrCreateUser_counters ].
Qed.

Lemma create_policy_counters h r lobId carrierId userId :
  keeps counters (create_policy h r lobId carrierId userId).
Proof.
  unfold create_policy, Policy_findOne, Policy_create. keeps_tac; done.
Qed.

Lemma keeps_run {A X} (obs : run → X) (m : M A) st res st' :
  keeps obs m → m st = (res, st') → obs st' = obs st.
Proof. intros K E. specialize (K st). by rewrite E in K. Qed.

Lemma count_row_spec total st :
  count_row total st
  = (Ok tt,
     mkRun (S (processed st)) (errors st) (errorsList st) (agentCache st)
           (lobCache st) (carrierCache st) (userCache st) (accountCache st)
           (db st) (trace st) (out st ++ report (S (processed st)) total)).
Proof.
  unfold count_row, report, mbind, M_bind, bind, modify, gets. simpl.
  destruct (Nat.eqb _ 0); simpl; unfold post; simpl; by rewrite ?app_nil_r.
Qed.

(** The body of a row counts it and may report when it returns, and
    leaves counters and port alone when it throws. *)
Lemma counters_inv st st' :
  counters st' = counters st →
  processed st' = processed st ∧ errors st' = errors st
  ∧ errorsList st' = errorsList st ∧ out st' = out st.
Proof. unfold counters. intros E. by inversion E. Qed.

Lemma try_body_counters h total r st res st' :
  try_body h total r st = (res, st') →
  errors st' = errors st ∧ errorsList st' = errorsList st
  ∧ match res with
    | Ok _ => processed st' = S (processed st)
              ∧ out st' = out st ++ report (S (processed st)) total
    | Throw _ => processed st' = processed st ∧ out st' = out st
    end.
Proof.
  unfold try_body. intros E.
  apply bind_inv in E as [(ids & st1 & E1 & E)|(msg & E1 & ->)];
    (apply (keeps_run counters) in E1; [|apply resolve_counters]);
    apply counters_inv in E1 as (P1 & R1 & L1 & O1).
  - apply bind_inv in E as [([] & st2 & E2 & E)|(msg & E2 & ->)];
      (apply (keeps_run counters) in E2; [|apply create_policy_counters]);
      apply counters_inv in E2 as (P2 & R2 & L2 & O2).
    + rewrite count_row_spec in E. inversion E; subst; clear E. simpl.
      rewrite P2, P1, R2, R1, L2, L1, O2, O1. done.
    + rewrite P2, P1, R2, R1, L2, L1, O2, O1. done.
  - done.
Qed.

(** What handling one row does to the counters, the error list and the
    port, by the result of its body. *)
Lemma handle_counters h total n r st :
  match (try_body h total r st).1 with
  | Ok _ =>
      processed (handle h total n r st) = S (processed st)
      ∧ errors (handle h total n r st) = errors st
      ∧ errorsList (handle h total n r st) = errorsList st
      ∧ out (handle h total n r st) = out st ++ report (S (processed st)) total
  | Throw msg =>
      processed (handle h total n r st) = processed st
      ∧ errors (handle h total n r st) = S (errors st)
      ∧ errorsList (handle h total n r st)
        = errorsList st ++ [mkEntry n msg (or_NA (policy_number r))]
      ∧ out (handle h total n r st) = out st
  end.
Proof.
  unfold handle. destruct (try_body h total r st) as [[[]|msg] st'] eqn:E;
    apply try_body_counters in E as (R & L & P & O); simpl;
    rewrite ?R, ?L, ?P, ?O; done.
Qed.

(** *** Batches against single rows *)

Lemma alloc_from_length n rows : length (alloc_from n rows) = length rows.
Proof. revert n. induction rows as [|r rows IH]; intros n; simpl; [done|]. by rewrite IH. Qed.

Lemma alloc_from_drop k n rows :
  drop k (alloc_from n rows) = alloc_from (n + k) (drop k rows).
Proof.
  revert n rows. induction k as [|k IH]; intros n rows.
  - by rewrite Nat.add_0_r.
  - destruct rows as [|r rows]; simpl; [done|].
    rewrite IH. f_equal. lia.
Qed.

Lemma alloc_from_take k n rows :
  take k (alloc_from n rows) = alloc_from n (take k rows).
Proof.
  revert n rows. induction k as [|k IH]; intros n rows.
  - done.
  - destruct rows as [|r rows]; simpl; [done|]. by rewrite IH.
Qed.

Lemma slice_alloc i bs rows :
  slice i (i + bs) (alloc rows) = alloc_from i (take bs (drop i rows)).
Proof.
  unfold slice, alloc. replace (i + bs - i) with bs by lia.
  by rewrite alloc_from_drop, alloc_from_take.
Qed.

(** In a batch of fresh objects, [indexOf] finds every record at its own
    position. *)
Lemma indexOf_alloc pre r post i :
  indexOf (alloc_from i (pre ++ r :: post)) (i + length pre, r)
  = Z.of_nat (length pre).
Proof.
  revert i. induction pre as [|x pre IH]; intros i; simpl.
  - rewrite Nat.add_0_r, Nat.eqb_refl. done.
  - destruct (Nat.eqb_spec i (i + S (length pre))) as [E|_]; [lia|].
    replace (i + S (length pre)) with (S i + length pre) by lia.
    rewrite IH. destruct (Z.ltb_spec (Z.of_nat (length pre)) 0); lia.
Qed.

Lemma try_catch_handle h total i batch r st :
  try_catch h total i batch r st
  = handle h total (Z.of_nat i + indexOf batch r + 1) r.2 st.
Proof. done. Qed.

Lemma for_of_alloc h total i rs pre st :
  foldl (λ st r, try_catch h total i (alloc_from i (pre ++ rs)) r st) st
        (alloc_from (i + length pre) rs)
  = one_at_a_time h total (i + length pre) rs st.
Proof.
  revert pre st. induction rs as [|r rs IH]; intros pre st; simpl; [done|].
  rewrite try_catch_handle, indexOf_alloc. simpl.
  replace (Z.of_nat i + Z.of_nat (length pre) + 1)%Z
    with (Z.of_nat (i + length pre) + 1)%Z by lia.
  specialize (IH (pre ++ [r])). rewrite <- app_assoc in IH. simpl in IH.
  rewrite length_app in IH. simpl in IH.
  replace (i + (length pre + 1)) with (S (i + length pre)) in IH by lia.
  apply IH.
Qed.

(** A batch is handled as its rows are, one at a time. *)
Lemma for_of_spec h total i rs st :
  for_of h total i (alloc_from i rs) st = one_at_a_time h total i rs st.
Proof.
  unfold for_of. pose proof (for_of_alloc h total i rs [] st) as H.
  simpl in H. by rewrite Nat.add_0_r in H.
Qed.

Lemma one_at_a_time_app h total k rows1 rows2 st :
  one_at_a_time h total k (rows1 ++ rows2) st
  = one_at_a_time h total (k + length rows1) rows2
                  (one_at_a_time h total k rows1 st).
Proof.
  revert k st. induction rows1 as [|r rows1 IH]; intros k st; simpl.
  - by rewrite Nat.add_0_r.
  - rewrite IH. f_equal. lia.
Qed.

(** With a positive batch size the loop over the batches ends, and it has
    done what the rows taken one at a time do. *)
Lemma for_batches_spec h bs rows fuel i st :
  0 < bs → length rows - i < fuel →
  for_batches h bs fuel i (alloc rows) st
  = Some (one_at_a_time h (length rows) i (drop i rows) st).
Proof.
  intros Hbs. revert i st. induction fuel as [|fuel IH]; intros i st Hfuel; [lia|].
  simpl. unfold alloc at 1. rewrite alloc_from_length.
  destruct (Nat.ltb_spec i (length rows)) as [Hi|Hi].
  - rewrite slice_alloc, for_of_spec. unfold alloc at 1 2. rewrite alloc_from_length.
    rewrite IH by lia.
    f_equal.
    rewrite <- (take_drop bs (drop i rows)) at 2.
    rewrite one_at_a_time_app, drop_drop.
    destruct (decide (i + bs ≤ length rows)) as [Hle|Hgt].
    + rewrite length_take, length_drop. by replace (bs `min` (length rows - i)) with bs by lia.
    + rewrite (drop_ge rows (i + bs)) by lia. done.
  - by rewrite drop_ge by lia.
Qed.

(** *** The whole run *)

(** [processCSV] always comes to an end, in one of four ways. *)
Lemma processCSV_spec h csvData d :
  processCSV h csvData d
  = Some
      match connect h with
      | Some msg => post (Error msg) (fresh d)
      | None =>
          match parse h csvData with
          | inl msg => post (Error msg) (fresh d)
          | inr rows =>
              let st := after_rows h rows d in
              match close h with
              | Some msg => post (Error msg) st
              | None =>
                  post (Done true (processed st) (errors st) (length rows)
                             (first10 (errorsList st))) st
              end
          end
      end.
Proof.
  unfold processCSV, after_rows. destruct (connect h); [done|].
  destruct (parse h csvData) as [msg|rows]; [done|].
  rewrite for_batches_spec.
  - unfold alloc. rewrite alloc_from_length. simpl. by destruct (close h).
  - unfold batchSize. lia.
  - unfold alloc. rewrite alloc_from_length. lia.
Qed.

(** Every row moves exactly one of the two counters, by one. *)
Lemma handle_one_counter h total n r st :
  (processed (handle h total n r st) = S (processed st)
   ∧ errors (handle h total n r st) = errors st)
  ∨ (processed (handle h total n r st) = processed st
     ∧ errors (handle h total n r st) = S (errors st)).
Proof.
  pose proof (handle_counters h total n r st) as H.
  destruct (try_body h total r st).1; destruct H as (P & E & _); auto.
Qed.

Lemma loop_counts h total k rows st :
  processed (one_at_a_time h total k rows st)
  + errors (one_at_a_time h total k rows st)
  = processed st + errors st + length rows
  ∧ processed st ≤ processed (one_at_a_time h total k rows st).
Proof.
  revert k st. induction rows as [|r rows IH]; intros k st; simpl; [lia|].
  destruct (IH (S k) (handle h total (Z.of_nat k + 1) r st)) as [IH1 IH2].
  destruct (handle_one_counter h total (Z.of_nat k + 1) r st) as [[P E]|[P E]];
    rewrite P, E in *; lia.
Qed.

(** The error list grows by the entries of the throwing rows, and the
    error counter by their number. *)
Lemma loop_errors h total k rows st :
  errorsList (one_at_a_time h total k rows st)
  = errorsList st ++ thrown h total k rows st
  ∧ errors (one_at_a_time h total k rows st)
    = errors st + length (thrown h total k rows st).
Proof.
  revert k st. induction rows as [|r rows IH]; intros k st; simpl.
  - rewrite app_nil_r. split; [done|lia].
  - destruct (IH (S k) (handle h total (Z.of_nat k + 1) r st)) as [IH1 IH2].
    rewrite IH1, IH2. clear IH IH1 IH2.
    pose proof (handle_counters h total (Z.of_nat k + 1) r st) as H.
    destruct (try_body h total r st).1 as [[]|msg];
      destruct H as (_ & E & L & _); rewrite E, L; simpl.
    + done.
    + rewrite <- app_assoc. simpl. split; [done|lia].
Qed.

(** The port receives one report per processed row that is due one. *)
Lemma loop_out h total k rows st :
  out (one_at_a_time h total k rows st)
  = out st
    ++ flat_map (λ n, report n total)
         (seq (S (processed st))
              (processed (one_at_a_time h total k rows st) - processed st)).
Proof.
  revert k st. induction rows as [|r rows IH]; intros k st; simpl.
  - rewrite Nat.sub_diag. simpl. by rewrite app_nil_r.
  - rewrite IH.
    pose proof (loop_counts h total (S k) rows (handle h total (Z.of_nat k + 1) r st))
      as [_ Hle].
    pose proof (handle_counters h total (Z.of_nat k + 1) r st) as H.
    destruct (try_body h total r st).1 as [[]|msg];
      destruct H as (P & _ & _ & O); rewrite O, P in *.
    + rewrite <- app_assoc. f_equal.
      replace (processed (one_at_a_time h total (S k) rows
                 (handle h total (Z.of_nat k + 1) r st)) - processed st)
        with (S (processed (one_at_a_time h total (S k) rows
                 (handle h total (Z.of_nat k + 1) r st)) - S (processed st)))
        by lia.
      simpl. done.
    + done.
Qed.

(** The reports of the first [n] processed rows are those of the
    multiples of 50 up to [n]. *)
Lemma reports_multiples total n :
  flat_map (λ p, report p total) (seq 1 n)
  = map (λ k, Progress (50 * k) total) (seq 1 (n / 50)).
Proof.
  induction n as [|n IH]; [done|].
  rewrite seq_S, flat_map_app, IH. cbn [flat_map]. rewrite app_nil_r.
  unfold report. replace (1 + n) with (S n) by done.
  pose proof (Nat.div_mod_eq n 50) as Hn.
  pose proof (Nat.div_mod_eq (S n) 50) as HS.
  pose proof (Nat.mod_upper_bound n 50) as Bn.
  pose proof (Nat.mod_upper_bound (S n) 50) as BS.
  destruct (Nat.eqb_spec (S n mod 50) 0) as [E|E].
  - assert (S n / 50 = S (n / 50)) as -> by lia.
    rewrite seq_S, map_app. cbn [map]. do 3 f_equal. lia.
  - assert (S n / 50 = n / 50) as -> by lia.
    by rewrite app_nil_r.
Qed.

Lemma first10_take l : first10 l = take 10 l.
Proof. done. Qed.

(** The messages a completed row loop has posted: one progress message
    per multiple of 50 that the processed counter has reached. *)
Lemma after_rows_out h rows d :
  out (after_rows h rows d)
  = map (λ k, Progress (50 * k) (length rows))
        (seq 1 (processed (after_rows h rows d) / 50)).
Proof.
  unfold after_rows. rewrite loop_out. simpl.
  rewrite Nat.sub_0_r. apply reports_multiples.
Qed.

Lemma after_rows_counts h rows d :
  processed (after_rows h rows d) + errors (after_rows h rows d) = length rows.
Proof.
  unfold after_rows.
  destruct (loop_counts h (length rows) 0 rows (fresh d)) as [H _]. by rewrite H.
Qed.

Lemma after_rows_errors h rows d :
  errorsList (after_rows h rows d) = thrown h (length rows) 0 rows (fresh d)
  ∧ errors (after_rows h rows d) = length (thrown h (length rows) 0 rows (fresh d)).
Proof.
  unfold after_rows.
  destruct (loop_errors h (length rows) 0 rows (fresh d)) as [H1 H2].
  by rewrite H1, H2.
Qed.

Lemma progress_values_map (f : nat → nat) total ks :
  progress_values (map (λ k, Progress (f k) total) ks) = map f ks.
Proof.
  induction ks as [|k ks IH]; [done|].
  change (progress_values (map (λ k, Progress (f k) total) (k :: ks)))
    with (f k :: progress_values (map (λ k, Progress (f k) total) ks)).
  by rewrite IH.
Qed.

Lemma progress_values_app ms1 ms2 :
  progress_values (ms1 ++ ms2) = progress_values ms1 ++ progress_values ms2.
Proof. apply omap_app. Qed.

Lemma forallb_progress_map (f : nat → nat) total ks :
  forallb is_progress (map (λ k, Progress (f k) total) ks) = true.
Proof. induction ks as [|k ks IH]; [done|]. simpl. done. Qed.

Lemma multiples_sorted a n :
  StronglySorted lt (map (λ k, 50 * k) (seq a n)).
Proof.
  revert a. induction n as [|n IH]; intros a; simpl; constructor.
  - apply IH.
  - apply Forall_forall. intros x Hx. apply list_elem_of_In in Hx.
    apply in_map_iff in Hx as (k & <- & Hk). apply in_seq in Hk. lia.
Qed.

Lemma multiples_bounded n :
  Forall (λ v, v ≤ n) (map (λ k, 50 * k) (seq 1 (n / 50))).
Proof.
  apply Forall_forall. intros x Hx. apply list_elem_of_In in Hx.
  apply in_map_iff in Hx as (k & <- & Hk). apply in_seq in Hk.
  pose proof (Nat.div_mod_eq n 50). nia.
Qed.

Lemma posted_spec h csvData d :
  posted h csvData d
  = Some
      match connect h with
      | Some msg => [Error msg]
      | None =>
          match parse h csvData with
          | inl msg => [Error msg]
          | inr rows =>
              let st := after_rows h rows d in
              out st
                ++ [match close h with
                    | Some msg => Error msg
                    | None =>
                        Done true (processed st) (errors st) (length rows)
                             (first10 (errorsList st))
                    end]
          end
      end.
Proof.
  unfold posted. rewrite processCSV_spec. simpl. f_equal.
  destruct (connect h); [done|]. destruct (parse h csvData); [done|].
  by destruct (close h).
Qed.

Lemma Done_not_progress s p e t l (f : nat → nat) total ks :
  Done s p e t l ∉ map (λ k, Progress (f k) total) ks.
Proof. intros H. apply list_elem_of_In, in_map_iff in H as (k & Hk & _). done. Qed.

(** The worker starts a run for a non-empty payload only; started
    without one, it posts nothing. *)
Lemma start_spec h csvData d :
  start h csvData d
  = if truthy csvData then processCSV h (or_empty csvData) d else Some (fresh d).
Proof. done. Qed.

(** The scenario of the specification: two rows naming the carrier Acme
    Corp, the second without a policy number. Both are processed, none is
    an error, one carrier and one policy are stored. *)
Example acme_scenario :
  let rows := [Demo.policy_row "YEEX9MOIBU7X" "Lura Lucca" "madler@yahoo.ca" "1990-05-17";
               Demo.policy_row "" "Lura Lucca" "madler@yahoo.ca" "1990-05-17"] in
  (λ st, (out st, carriers (db st), length (policies (db st))))
    <$> processCSV (Demo.host_of rows Demo.no_fault) "csv" Demo.empty_store
  = Some ([Done true 2 0 2 []], [(2, "Acme Corp")], 1).
Proof. vm_compute. reflexivity. Qed.

(** ** The claims *)

(** C9. Grouping the records into batches of 100 does what taking the
    rows one at a time, in input order and each under its own row number,
    does: the loop over the batches of a freshly parsed payload ends in
    the very state (store, caches, counters, error list, messages) the
    one-row-at-a-time iteration ends in, for the batch size of the source
    and for any other positive batch size alike. *)
Theorem batches_as_single_rows h rows st bs :
  0 < bs →
  for_batches h bs (S (length rows)) 0 (alloc rows) st
  = Some (one_at_a_time h (length rows) 0 rows st)
  ∧ for_batches h bs (S (length rows)) 0 (alloc rows) st
    = for_batches h batchSize (S (length rows)) 0 (alloc rows) st.
Proof.
  intros Hbs. rewrite !for_batches_spec; unfold batchSize; try lia. done.
Qed.

Lemma batches_as_single_rows_witness :
  0 < 2
  ∧ (for_batches (Demo.host_of Demo.three_rows Demo.no_fault) 2
       (S (length Demo.three_rows)) 0 (alloc Demo.three_rows) (fresh Demo.empty_store)
     = Some (one_at_a_time (Demo.host_of Demo.three_rows Demo.no_fault)
               (length Demo.three_rows) 0 Demo.three_rows (fresh Demo.empty_store))
     ∧ for_batches (Demo.host_of Demo.three_rows Demo.no_fault) 2
         (S (length Demo.three_rows)) 0 (alloc Demo.three_rows) (fresh Demo.empty_store)
       = for_batches (Demo.host_of Demo.three_rows Demo.no_fault) batchSize
           (S (length Demo.three_rows)) 0 (alloc Demo.three_rows) (fresh Demo.empty_store)).
Proof.
  split; [lia|].
  apply (batches_as_single_rows (Demo.host_of Demo.three_rows Demo.no_fault)
           Demo.three_rows (fresh Demo.empty_store) 2).
  lia.
Defined.

(** C10. Every record moves exactly one of the two counters, by one; so
    the [done] message of a run carries [processed + errors = total], and
    the [processed] values of the progress messages of that run increase
    strictly and never exceed [total]. *)
Theorem counters_split_the_rows h csvData d ms s p e t l :
  posted h csvData d = Some ms →
  Done s p e t l ∈ ms →
  p + e = t
  ∧ StronglySorted lt (progress_values ms)
  ∧ Forall (λ v, v ≤ t) (progress_values ms)
  ∧ ∀ total i batch r st,
      (processed (try_catch h total i batch r st) = S (processed st)
       ∧ errors (try_catch h total i batch r st) = errors st)
      ∨ (processed (try_catch h total i batch r st) = processed st
         ∧ errors (try_catch h total i batch r st) = S (errors st)).
Proof.
  rewrite posted_spec. intros [= <-] Hin.
  assert (∀ total i batch r st,
      (processed (try_catch h total i batch r st) = S (processed st)
       ∧ errors (try_catch h total i batch r st) = errors st)
      ∨ (processed (try_catch h total i batch r st) = processed st
         ∧ errors (try_catch h total i batch r st) = S (errors st))) as Hrow.
  { intros. rewrite try_catch_handle. apply handle_one_counter. }
  destruct (connect h) as [msg|].
  { apply list_elem_of_singleton in Hin. done. }
  destruct (parse h csvData) as [msg|rows].
  { apply list_elem_of_singleton in Hin. done. }
  simpl in *. rewrite after_rows_out in *.
  apply elem_of_app in Hin as [Hin|Hin].
  { by apply Done_not_progress in Hin. }
  apply list_elem_of_singleton in Hin.
  destruct (close h) as [msg|]; [done|].
  injection Hin as -> -> -> -> ->.
  rewrite progress_values_app, progress_values_map. simpl. rewrite app_nil_r.
  pose proof (after_rows_counts h rows d) as Hc.
  split_and!; [done|apply multiples_sorted| |done].
  eapply Forall_impl; [apply multiples_bounded|]. simpl. lia.
Qed.

Lemma counters_split_the_rows_witness :
  let h := Demo.host_of Demo.three_rows (Demo.fault_at 13) in
  let entry := mkEntry 2 "connection timed out" "P-2" in
  posted h "csv" Demo.empty_store = Some [Done true 2 1 3 [entry]]
  ∧ Done true 2 1 3 [entry] ∈ [Done true 2 1 3 [entry]]
  ∧ 2 + 1 = 3.
Proof.
  intros h entry.
  assert (posted h "csv" Demo.empty_store = Some [Done true 2 1 3 [entry]]) as H
    by (vm_compute; reflexivity).
  assert (Done true 2 1 3 [entry] ∈ [Done true 2 1 3 [entry]]) as Hin
    by (apply list_elem_of_here).
  split_and!; [exact H|exact Hin|].
  exact (proj1 (counters_split_the_rows h "csv" Demo.empty_store _ _ _ _ _ _ H Hin)).
Defined.

(** C7, as amended. A worker that is started with a payload that is not
    empty posts exactly one terminal message, and posts it last: its
    messages are progress messages followed by one message that is no
    progress message. When the connection does not open or the payload
    does not parse, that message is [error] with the message of the
    failure and nothing precedes it. Otherwise every row has been
    consumed, each counted once as processed or as an error, and the
    terminal message is [done] with those counts, or [error] when closing
    the connection fails. A worker that is started with an empty payload,
    or with none, posts nothing. *)
Theorem one_terminal_message_last h csvData d :
  if truthy csvData then
    ∃ ps t,
      out <$> start h csvData d = Some (ps ++ [t])
      ∧ forallb is_progress ps = true
      ∧ is_progress t = false
      ∧ match connect h, parse h (or_empty csvData) with
        | Some msg, _ => ps = [] ∧ t = Error msg
        | None, inl msg => ps = [] ∧ t = Error msg
        | None, inr rows =>
            ps = out (after_rows h rows d)
            ∧ processed (after_rows h rows d) + errors (after_rows h rows d)
              = length rows
            ∧ t = match close h with
                  | Some msg => Error msg
                  | None =>
                      Done true (processed (after_rows h rows d))
                           (errors (after_rows h rows d)) (length rows)
                           (first10 (errorsList (after_rows h rows d)))
                  end
        end
  else out <$> start h csvData d = Some [].
Proof.
  rewrite start_spec. destruct (truthy csvData); [|done].
  rewrite processCSV_spec. simpl.
  destruct (connect h) as [msg|].
  { by exists [], (Error msg). }
  destruct (parse h (or_empty csvData)) as [msg|rows].
  { by exists [], (Error msg). }
  simpl. pose proof (after_rows_counts h rows d) as Hc.
  destruct (close h) as [msg|]; simpl; eexists _, _;
    (split; [reflexivity|]);
    (split; [rewrite after_rows_out; apply forallb_progress_map|]); done.
Qed.

(** C7, the claim as it is written, at the empty payload: the guard at
    the end of the worker calls [processCSV] only for a payload that is
    not empty, so this worker posts no message at all. *)
Lemma empty_payload_posts_nothing :
  out <$> start (Demo.host_of [] Demo.no_fault) (Some "") Demo.empty_store
  = Some [].
Proof. reflexivity. Qed.

(** C6. In a run in which no row throws, the progress messages are those
    of the multiples of 50 up to the number of rows, each carrying the
    count reached and the total, in increasing order and followed by the
    [done] message; for 205 rows these are 50, 100, 150, 200 and no
    other. *)
Theorem progress_every_fifty_rows h csvData d rows :
  connect h = None → parse h csvData = inr rows → close h = None →
  no_row_throws h rows d →
  posted h csvData d
  = Some (map (λ k, Progress (50 * k) (length rows)) (seq 1 (length rows / 50))
          ++ [Done true (length rows) 0 (length rows) []])
  ∧ (length rows = 205 →
     posted h csvData d
     = Some [Progress 50 205; Progress 100 205; Progress 150 205;
             Progress 200 205; Done true 205 0 205 []]).
Proof.
  intros Ec Ep Ecl Hno. rewrite posted_spec, Ec, Ep, Ecl. simpl.
  rewrite after_rows_out.
  destruct (after_rows_errors h rows d) as [HL HE].
  pose proof (after_rows_counts h rows d) as Hc.
  unfold no_row_throws in Hno. rewrite Hno in *. simpl in HE.
  rewrite HL, HE in *. rewrite Nat.add_0_r in Hc. rewrite Hc.
  split; [done|]. intros ->. done.
Qed.

Lemma progress_every_fifty_rows_witness :
  let h := Demo.host_of (Demo.same_rows 205) Demo.no_fault in
  connect h = None ∧ parse h "csv" = inr (Demo.same_rows 205) ∧ close h = None
  ∧ no_row_throws h (Demo.same_rows 205) Demo.empty_store
  ∧ posted h "csv" Demo.empty_store
    = Some [Progress 50 205; Progress 100 205; Progress 150 205;
            Progress 200 205; Done true 205 0 205 []].
Proof.
  assert (no_row_throws (Demo.host_of (Demo.same_rows 205) Demo.no_fault)
            (Demo.same_rows 205) Demo.empty_store) as Hno
    by (vm_compute; reflexivity).
  split_and!; [reflexivity|reflexivity|reflexivity|exact Hno|].
  apply (progress_every_fifty_rows (Demo.host_of (Demo.same_rows 205) Demo.no_fault)
           "csv" Demo.empty_store (Demo.same_rows 205)
           eq_refl eq_refl eq_refl Hno).
  vm_compute; reflexivity.
Defined.

(** C5. The [done] message of a completed run reports the number of all
    recorded error entries in [errors], and carries in [errorsList] the
    first [min errors 10] of them, in the order in which the rows threw;
    with 15 of them, [errors] is 15 and [errorsList] has 10 elements. *)
Theorem done_caps_the_error_list h csvData d rows :
  connect h = None → parse h csvData = inr rows → close h = None →
  let recorded := thrown h (length rows) 0 rows (fresh d) in
  ∃ ps p l,
    posted h csvData d = Some (ps ++ [Done true p (length recorded) (length rows) l])
    ∧ forallb is_progress ps = true
    ∧ l = take (length recorded `min` 10) recorded
    ∧ length l = length recorded `min` 10
    ∧ (length recorded = 15 → length l = 10).
Proof.
  intros Ec Ep Ecl recorded. rewrite posted_spec, Ec, Ep, Ecl. simpl.
  rewrite after_rows_out.
  destruct (after_rows_errors h rows d) as [HL HE]. fold recorded in HL, HE.
  rewrite HL, HE, first10_take.
  eexists _, _, _. split; [reflexivity|].
  split; [apply forallb_progress_map|].
  assert (take 10 recorded = take (length recorded `min` 10) recorded) as Ht.
  { destruct (decide (length recorded ≤ 10)) as [Hle|Hgt].
    - rewrite !take_ge; [done| lia | lia].
    - by replace (length recorded `min` 10) with 10 by lia. }
  split; [done|]. rewrite Ht, length_take.
  split; [lia|]. intros ->. done.
Qed.

Lemma done_caps_the_error_list_witness :
  let h := Demo.host_of (Demo.same_rows 15) Demo.all_fault in
  let recorded := thrown h 15 0 (Demo.same_rows 15) (fresh Demo.empty_store) in
  connect h = None ∧ parse h "csv" = inr (Demo.same_rows 15) ∧ close h = None
  ∧ length recorded = 15
  ∧ ∃ ps p l,
      posted h "csv" Demo.empty_store = Some (ps ++ [Done true p 15 15 l])
      ∧ length l = 10.
Proof.
  assert (length (thrown (Demo.host_of (Demo.same_rows 15) Demo.all_fault) 15 0
                    (Demo.same_rows 15) (fresh Demo.empty_store)) = 15) as H15
    by (vm_compute; reflexivity).
  split_and!; [reflexivity|reflexivity|reflexivity|exact H15|].
  destruct (done_caps_the_error_list
              (Demo.host_of (Demo.same_rows 15) Demo.all_fault)
              "csv" Demo.empty_store (Demo.same_rows 15) eq_refl eq_refl eq_refl)
    as (ps & p & l & Hp & _ & _ & _ & Hl).
  exists ps, p, l. split; [|exact (Hl H15)].
  change (length (Demo.same_rows 15)) with 15 in Hp.
  rewrite H15 in Hp. exact Hp.
Defined.

(** C4. A row whose body throws leaves exactly one error entry (its row
    number, the message, its policy number or N/A), adds one to the error
    counter, neither counts as processed nor posts anything, and the loop
    goes on with the rows after it: the batched loop over the whole
    payload ends, in the state the remaining rows lead to from there. *)
Theorem throwing_row_is_recorded_and_passed h pre r post st0 msg st1 :
  let rows := pre ++ r :: post in
  let total := length rows in
  let st := one_at_a_time h total 0 pre st0 in
  let entry := mkEntry (Z.of_nat (length pre) + 1) msg
                       (if truthy (policy_number r) then or_empty (policy_number r)
                        else "N/A") in
  try_body h total r st = (Throw msg, st1) →
  ∃ st',
    st' = push_error entry st1
    ∧ errors st' = S (errors st)
    ∧ errorsList st' = errorsList st ++ [entry]
    ∧ processed st' = processed st
    ∧ out st' = out st
    ∧ for_batches h batchSize (S total) 0 (alloc rows) st0
      = Some (one_at_a_time h total (S (length pre)) post st').
Proof.
  intros rows total st entry E.
  assert (handle h total (Z.of_nat (length pre) + 1) r st = push_error entry st1) as Hh.
  { unfold handle. by rewrite E. }
  exists (push_error entry st1).
  pose proof (handle_counters h total (Z.of_nat (length pre) + 1) r st) as Hc.
  rewrite E, Hh in Hc. simpl in Hc. destruct Hc as (P & R & L & O).
  split_and!; try done.
  subst total rows. rewrite for_batches_spec by (unfold batchSize; lia).
  rewrite drop_0, one_at_a_time_app. simpl. fold st.
  by rewrite Hh.
Qed.

Lemma throwing_row_is_recorded_and_passed_witness :
  let h := Demo.host_of Demo.three_rows (Demo.fault_at 13) in
  let pre := take 1 Demo.three_rows in
  let r := Demo.policy_row "P-2" "Ann Lee" "ann@lee.org" "1985-01-31" in
  let post := drop 2 Demo.three_rows in
  let st := one_at_a_time h 3 0 pre (fresh Demo.empty_store) in
  let st1 := (try_body h 3 r st).2 in
  try_body h 3 r st = (Throw "connection timed out", st1)
  ∧ posted h "csv" Demo.empty_store
    = Some [Done true 2 1 3 [mkEntry 2 "connection timed out" "P-2"]]
  ∧ ∃ st',
      errors st' = S (errors st)
      ∧ for_batches h batchSize 4 0 (alloc Demo.three_rows) (fresh Demo.empty_store)
        = Some (one_at_a_time h 3 2 post st').
Proof.
  intros h pre r post st st1.
  assert (try_body h 3 r st = (Throw "connection timed out", st1)) as E
    by (vm_compute; reflexivity).
  split_and!; [exact E|vm_compute; reflexivity|].
  destruct (throwing_row_is_recorded_and_passed h pre r post
              (fresh Demo.empty_store) "connection timed out" st1 E)
    as (st' & _ & He & _ & _ & _ & Hloop).
  exists st'. split; [exact He|exact Hloop].
Defined.

(** *** Policy creation *)

Lemma first_match_existsb {A} (p : A → bool) l :
  given (first_match p l) = existsb p l.
Proof. induction l as [|x l IH]; [done|]. simpl. by destruct (p x). Qed.

Lemma push_ref_policies f x d : policies (push_ref f x d) = policies d.
Proof. by destruct f. Qed.

Lemma cache_set_policies f k v st :
  stored_policies (cache_set f k v st) = stored_policies st.
Proof. by destruct f. Qed.

Lemma resolve_policies h r : keeps stored_policies (resolve h r).
Proof.
  unfold resolve, getOrCreateAgent, getOrCreateLOB, getOrCreateCarrier,
    getOrCreateUserAccount, getOrCreate, getOrCreateUser, findOne, create,
    User_findOne, User_create.
  keeps_tac; first [ done | apply cache_set_policies | apply push_ref_policies ].
Qed.

Lemma create_policy_spec h r lobId carrierId userId st st' :
  create_policy h r lobId carrierId userId st = (Ok tt, st') →
  if creatable h r lobId carrierId (db st) then
    ∃ lob carrier startDate endDate,
      lobId = Some lob ∧ carrierId = Some carrier
      ∧ parse_date h (policy_start_date r) = Some startDate
      ∧ parse_date h (policy_end_date r) = Some endDate
      ∧ stored_policies st'
        = stored_policies st
          ++ [(next_oid (db st),
               mkPolicy (or_empty (policy_number r)) startDate endDate
                        lob carrier userId)]
  else stored_policies st' = stored_policies st.
Proof.
  unfold create_policy, creatable, complete, policy_known.
  destruct (truthy (policy_number r)); [|by intros [= <-]].
  destruct lobId as [lob|]; [|by intros [= <-]].
  destruct carrierId as [carrier|]; [|by intros [= <-]].
  destruct (parse_date h (policy_start_date r)) as [startDate|]; [|by intros [= <-]].
  destruct (parse_date h (policy_end_date r)) as [endDate|]; [|by intros [= <-]].
  simpl. rewrite <- first_match_existsb.
  unfold Policy_findOne, Policy_create, call, roundtrip, mbind, M_bind, bind,
    mret, M_ret, ret, modify, gets. simpl.
  destruct (fault h _); [done|]. simpl.
  destruct (first_match (λ x, String.eqb (p_policy_number x.2)
                                 (or_empty (policy_number r)))
                        (policies (db st))) as [doc|]; simpl.
  - by intros [= <-].
  - destruct (fault h _); [done|]. intros [= <-]. simpl.
    exists lob, carrier, startDate, endDate. done.
Qed.

(** An incomplete row asks nothing of storage for its policy. *)
Lemma create_policy_incomplete h r lobId carrierId userId st :
  complete h r lobId carrierId = false →
  create_policy h r lobId carrierId userId st = (Ok tt, st).
Proof.
  unfold create_policy, complete.
  destruct (truthy (policy_number r)), lobId, carrierId,
    (parse_date h (policy_start_date r)), (parse_date h (policy_end_date r));
    done.
Qed.

Lemma try_body_Ok h total r st st' :
  try_body h total r st = (Ok tt, st') →
  ∃ ids st1 st2,
    resolve h r st = (Ok ids, st1)
    ∧ create_policy h r ids.1.1 ids.1.2 ids.2 st1 = (Ok tt, st2)
    ∧ count_row total st2 = (Ok tt, st').
Proof.
  unfold try_body. intros E.
  apply bind_inv in E as [(ids & st1 & E1 & E)|(msg & _ & ?)]; [|done].
  apply bind_inv in E as [([] & st2 & E2 & E)|(msg & _ & ?)]; [|done].
  eauto 10.
Qed.

Lemma count_row_policies total st st' :
  count_row total st = (Ok tt, st') → stored_policies st' = stored_policies st.
Proof. rewrite count_row_spec. by intros [= <-]. Qed.

(** The rule of policy creation. Once the references of a row are
    resolved, the row creates a policy if and only if the rule holds: policy number present, LOB and
    carrier resolved (the person is, whenever its resolution returns),
    both dates valid, no policy of that number in storage. An incomplete
    row cannot throw any more: it is skipped, counted as processed, with
    no policy created and no error recorded. For a row whose body
    returns, the policy is appended with the resolved identities and the
    parsed dates exactly when the rule holds, and otherwise (also when
    the number is already stored) the policies are left as they were and
    no error is recorded. The identities of the agent and of the account
    play no part in the rule. *)
Theorem policy_created_iff_rule h total r st lobId carrierId userId st1 :
  resolve h r st = (Ok (lobId, carrierId, userId), st1) →
  (complete h r lobId carrierId = false →
   ∃ st', try_body h total r st = (Ok tt, st')
          ∧ stored_policies st' = stored_policies st
          ∧ processed st' = S (processed st)
          ∧ errors st' = errors st
          ∧ errorsList st' = errorsList st)
  ∧ (∀ st', try_body h total r st = (Ok tt, st') →
       (creatable h r lobId carrierId (db st) = true
        ↔ ∃ doc, stored_policies st' = stored_policies st ++ [doc])
       ∧ (creatable h r lobId carrierId (db st) = true →
          ∃ lob carrier startDate endDate,
            lobId = Some lob ∧ carrierId = Some carrier
            ∧ parse_date h (policy_start_date r) = Some startDate
            ∧ parse_date h (policy_end_date r) = Some endDate
            ∧ stored_policies st'
              = stored_policies st
                ++ [(next_oid (db st1),
                     mkPolicy (or_empty (policy_number r)) startDate endDate
                              lob carrier userId)])
       ∧ (creatable h r lobId carrierId (db st) = false →
          stored_policies st' = stored_policies st)
       ∧ processed st' = S (processed st)
       ∧ errors st' = errors st
       ∧ errorsList st' = errorsList st).
Proof.
  intros Hres.
  pose proof (keeps_run stored_policies _ _ _ _ (resolve_policies h r) Hres) as K1.
  split.
  - intros Hinc.
    destruct (count_row total st1) as [res st'] eqn:Ecount.
    assert (res = Ok tt) as -> by (rewrite count_row_spec in Ecount; by injection Ecount).
    assert (try_body h total r st = (Ok tt, st')) as Hbody.
    { unfold try_body. rewrite (bind_Ok _ _ _ _ _ Hres). simpl.
      by rewrite (bind_Ok _ _ _ tt st1 (create_policy_incomplete _ _ _ _ _ _ Hinc)). }
    exists st'. pose proof (try_body_counters _ _ _ _ _ _ Hbody) as (R & L & P & _).
    apply count_row_policies in Ecount. rewrite Ecount, K1. done.
  - intros st' Hbody.
    pose proof (try_body_counters _ _ _ _ _ _ Hbody) as (R & L & P & _).
    apply try_body_Ok in Hbody as (ids & st1' & st2 & E1 & E2 & E3).
    rewrite Hres in E1. injection E1 as <- <-. simpl in E2.
    apply count_row_policies in E3.
    apply create_policy_spec in E2.
    assert (creatable h r lobId carrierId (db st1)
            = creatable h r lobId carrierId (db st)) as Hc.
    { unfold creatable, policy_known. unfold stored_policies in K1. by rewrite K1. }
    rewrite Hc in E2. rewrite E3.
    destruct (creatable h r lobId carrierId (db st)).
    + destruct E2 as (lob & carrier & startDate & endDate & -> & -> & Es & Ee & E2).
      rewrite E2, K1. split_and!; try done.
      * split; [eauto|done].
      * intros _. exists lob, carrier, startDate, endDate. done.
    + rewrite E2, K1. split_and!; try done.
      split; [done|]. intros [doc Hdoc].
      apply (f_equal length) in Hdoc. rewrite length_app in Hdoc. simpl in Hdoc. lia.
Qed.

Lemma policy_created_iff_rule_witness :
  let h := Demo.host_of [Demo.unassigned_row] Demo.no_fault in
  let st := fresh Demo.empty_store in
  let st1 := (resolve h Demo.unassigned_row st).2 in
  let st' := (try_body h 1 Demo.unassigned_row st).2 in
  resolve h Demo.unassigned_row st = (Ok (Some 0, Some 1, 2), st1)
  ∧ try_body h 1 Demo.unassigned_row st = (Ok tt, st')
  ∧ creatable h Demo.unassigned_row (Some 0) (Some 1) (db st) = true
  ∧ ∃ doc, stored_policies st' = stored_policies st ++ [doc].
Proof.
  intros h st st1 st'.
  assert (resolve h Demo.unassigned_row st = (Ok (Some 0, Some 1, 2), st1)) as Hres
    by (vm_compute; reflexivity).
  assert (try_body h 1 Demo.unassigned_row st = (Ok tt, st')) as Hbody
    by (vm_compute; reflexivity).
  assert (creatable h Demo.unassigned_row (Some 0) (Some 1) (db st) = true) as Hc
    by (vm_compute; reflexivity).
  split_and!; [exact Hres|exact Hbody|exact Hc|].
  exact (proj1 (proj1 (proj2 (policy_created_iff_rule h 1 Demo.unassigned_row st
                                (Some 0) (Some 1) 2 st1 Hres) st' Hbody)) Hc).
Defined.

(** *** Lookups and creations per label *)




Lemma cache_of_cache_set f g k v st l :
  cache_of f (cache_set g k v st) !! l
  = if decide (g = f ∧ k = l) then Some v else cache_of f st !! l.
Proof.
  destruct (decide (g = f ∧ k = l)) as [[-> ->]|Hne].
  - destruct f; simpl; apply lookup_insert_eq.
  - destruct (decide (g = f)) as [->|Hgf].
    + assert (k ≠ l) by naive_solver.
      destruct f; simpl; by apply lookup_insert_ne.
    + by destruct f, g.
Qed.





















(** *** Whatever the rows do: one more lookup per row that throws *)












(** The same without any failure of storage: the account of two rows is
    a quoted blank, which the schema trims to the empty string and then
    rejects. Each row asks for the label, tries to create it and throws;
    no account is stored. *)
Example blank_account_is_asked_for_by_every_row :
  (λ st, (lookups UserAccount " " (trace st),
          creations UserAccount " " (trace st), errors st, accounts (db st)))
    <$> processCSV (Demo.host_of [Demo.blank_account_row; Demo.blank_account_row]
                                 Demo.no_fault) "csv" Demo.empty_store
  = Some (2, 2, 2, []).
Proof. vm_compute. reflexivity. Qed.

(** *** Persons *)

Lemma validate_User_None u :
  validate_User u = None ↔ u_firstname u ≠ "" ∧ is_Some (u_dob u).
Proof.
  unfold validate_User.
  destruct (String.eqb_spec (u_firstname u) ""), (u_dob u); split;
    try done; intros [? ?]; by try apply is_Some_None in H0.
Qed.

(** What the validators of the User schema reject is not stored. *)
Lemma User_create_rejects h u msg st :
  validate_User (set_User h u) = Some msg →
  User_create h u st = (Throw msg, log (UserCreate u) st).
Proof.
  intros Hv. unfold User_create, call, check, mbind, M_bind, bind, modify.
  by rewrite Hv.
Qed.

(** A policy date that does not parse: nothing is asked of storage, the
    row goes on to be counted. *)
Lemma create_policy_bad_date h r lobId carrierId userId st :
  parse_date h (policy_start_date r) = None
  ∨ parse_date h (policy_end_date r) = None →
  create_policy h r lobId carrierId userId st = (Ok tt, st).
Proof.
  unfold create_policy. intros [-> | ->];
    destruct (truthy (policy_number r)), lobId, carrierId; try done;
    by destruct (parse_date h (policy_start_date r)).
Qed.

(** Without a first name or without an email, storage is not asked for a
    matching person. *)
Lemma getOrCreateUser_no_query h u :
  truthy (ud_firstname u) && truthy (ud_email u) = false →
  keeps user_lookups (getOrCreateUser h u).
Proof.
  intros Hf. unfold getOrCreateUser, User_create. rewrite Hf.
  keeps_tac; unfold user_lookups; simpl;
    rewrite ?List.filter_app, ?length_app; simpl; lia.
Qed.

(** What Person resolution does when the key is not cached and the
    resolver returns: it reuses the first stored person of that first
    name and email, which takes both to be present, or else it stores a
    new person. *)
Lemma getOrCreateUser_returns h u st id st' :
  userCache st !! userKey u = None →
  getOrCreateUser h u st = (Ok id, st') →
  (∃ doc,
      truthy (ud_firstname u) && truthy (ud_email u) = true
      ∧ first_match
          (λ x, String.eqb (u_firstname x.2) (trim h (or_empty (ud_firstname u)))
                && String.eqb (u_email x.2) (set_email h (or_empty (ud_email u))))
          (users (db st)) = Some doc
      ∧ id = doc.1
      ∧ users (db st') = users (db st))
  ∨ (∃ doc, users (db st') = users (db st) ++ [doc]
            ∧ id = doc.1
            ∧ u_firstname doc.2 = trim h (or_empty (ud_firstname u))
            ∧ u_dob doc.2 = parse_date h (ud_dob u)).
Proof.
  intros Hc. unfold getOrCreateUser, User_findOne, User_create, call, roundtrip,
    check, mbind, M_bind, bind, gets, modify, mret, M_ret, ret. rewrite Hc.
  destruct (truthy (ud_firstname u) && truthy (ud_email u)); simpl.
  - destruct (fault h _); [done|].
    change (db (log _ st)) with (db st).
    destruct (first_match
                (λ x, String.eqb (u_firstname x.2)
                                 (trim h (or_empty (ud_firstname u)))
                      && String.eqb (u_email x.2)
                                    (set_email h (or_empty (ud_email u))))
                (users (db st))) as [doc|] eqn:Hf.
    + intros [= <- <-]. left. exists doc. done.
    + destruct (validate_User _); [done|]. simpl.
      destruct (fault h _); [done|]. intros [= <- <-]. right. eexists. done.
  - destruct (validate_User _); [done|]. simpl.
    destruct (fault h _); [done|]. intros [= <- <-]. right. eexists. done.
Qed.

(** C3, at the failing input. The first of two rows carries the date of
    birth [not-a-date] for a person not yet stored, and nothing but the
    person: the date resolves to null, [User.create] is rejected by the
    [required] validator of [dob], and the row is an error, not a skip:
    [processed] does not count it, [errors] does, and [errorsList] has
    its entry. The row after it is processed in full. *)
Theorem unparsable_dob_row_is_an_error :
  posted
    (Demo.host_of
       [Demo.person_row "Lura Lucca" "madler@yahoo.ca" "not-a-date";
        Demo.policy_row "P-2" "Ann Lee" "ann@lee.org" "1985-01-31"]
       Demo.no_fault)
    "csv" Demo.empty_store
  = Some [Done true 1 1 2
               [mkEntry 1 "User validation failed: dob: Path `dob` is required."
                        "N/A"]].
Proof. vm_compute. reflexivity. Qed.

(** C8, at the failing input. A row without a first name, with an email
    and a valid date of birth, on an empty store: storage is not asked
    for a matching person, [User.create] is called and rejected by the
    [required] validator of [firstname], no person is stored and the row
    is an error. *)
Theorem row_without_firstname_creates_no_person :
  let h := Demo.host_of [Demo.person_row "" "madler@yahoo.ca" "1990-05-17"]
                        Demo.no_fault in
  (λ st, (out st, users (db st), user_lookups st, trace st))
    <$> processCSV h "csv" Demo.empty_store
  = Some ([Done true 0 1 1
                [mkEntry 1 "User validation failed: firstname: Path `firstname` is required."
                         "N/A"]],
          [], 0,
          [UserCreate (mkUser "" (Some 642902400000%Z) "" "" "" "" "madler@yahoo.ca" "" "")]).
Proof. vm_compute. reflexivity. Qed.

(** ** More about the run: what it does to the store *)

Lemma first_match_Some {A} (p : A → bool) l x :
  first_match p l = Some x → x ∈ l ∧ p x = true.
Proof.
  induction l as [|y l IH]; [done|]. simpl.
  destruct (p y) eqn:E.
  - intros [= ->]. split; [apply list_elem_of_here|done].
  - intros H. destruct (IH H). split; [by apply list_elem_of_further|done].
Qed.

Lemma first_match_None {A} (p : A → bool) l :
  first_match p l = None → ∀ x, x ∈ l → p x = false.
Proof.
  induction l as [|y l IH]; intros H x Hx; [by apply elem_of_nil in Hx|].
  simpl in H. destruct (p y) eqn:E; [done|].
  apply elem_of_cons in Hx as [->|Hx]; [done|by apply IH].
Qed.

(** All that a reference resolver can do, case by case. *)
Lemma getOrCreate_cases h g label st res st' :
  getOrCreate h g label st = (res, st') →
  (truthy label = false ∧ res = Ok None ∧ st' = st)
  ∨ ∃ name, label = Some name ∧ name ≠ "" ∧
      ((∃ id, cache_of g st !! name = Some id ∧ res = Ok (Some id) ∧ st' = st)
       ∨ (cache_of g st !! name = None ∧
          ((∃ msg, res = Throw msg ∧ st' = log (FindOne g name) st)
           ∨ (∃ doc, first_match (λ x, String.eqb x.2 (set_name h g name))
                                 (coll_of g (db st))
                     = Some doc
                     ∧ res = Ok (Some doc.1)
                     ∧ st' = cache_set g name doc.1 (log (FindOne g name) st))
           ∨ (first_match (λ x, String.eqb x.2 (set_name h g name))
                          (coll_of g (db st)) = None
              ∧ ∃ msg, res = Throw msg
                       ∧ st' = log (Create g name) (log (FindOne g name) st))
           ∨ (first_match (λ x, String.eqb x.2 (set_name h g name))
                          (coll_of g (db st)) = None
              ∧ res = Ok (Some (next_oid (db st)))
              ∧ st' = cache_set g name (next_oid (db st))
                        (with_db (push_ref g (next_oid (db st), set_name h g name)
                                    (db st))
                           (log (Create g name) (log (FindOne g name) st))))))).
Proof.
  unfold getOrCreate. destruct label as [name|]; simpl.
  2: { unfold mret, M_ret, ret. intros [= <- <-]. by left. }
  destruct (String.eqb_spec name "") as [|Hname]; simpl.
  { unfold mret, M_ret, ret. intros [= <- <-]. by left. }
  intros E. right. exists name. split_and!; [done|done|]. revert E.
  unfold findOne, create, call, roundtrip, check, mbind, M_bind, bind, gets,
    modify, mret, M_ret, ret. simpl.
  destruct (cache_of g st !! name) as [id|] eqn:Hc.
  { intros [= <- <-]. left. by exists id. }
  intros E. right. split; [done|]. revert E.
  destruct (fault h _).
  { intros [= <- <-]. left. by eexists. }
  change (db (log (FindOne g name) st)) with (db st).
  destruct (first_match (λ x : oid * string, String.eqb x.2 (set_name h g name))
                        (coll_of g (db st))) as [doc|].
  { intros [= <- <-]. right. left. by exists doc. }
  destruct (validate_ref g (set_name h g name)) as [msg|].
  { intros [= <- <-]. right. right. left. split; [done|]. by eexists. }
  simpl. destruct (fault h _).
  { intros [= <- <-]. right. right. left. split; [done|]. by eexists. }
  intros [= <- <-]. right. right. right. done.
Qed.

Lemma db_cache_set g k v st : db (cache_set g k v st) = db st.
Proof. by destruct g. Qed.

Lemma userCache_cache_set g k v st : userCache (cache_set g k v st) = userCache st.
Proof. by destruct g. Qed.

(** All that the person resolver can do to the store and the caches. *)
Lemma getOrCreateUser_cases h u st res st' :
  getOrCreateUser h u st = (res, st') →
  (∀ f, cache_of f st' = cache_of f st)
  ∧ ((∃ id, userCache st !! userKey u = Some id ∧ res = Ok id ∧ st' = st)
     ∨ (userCache st !! userKey u = None
        ∧ ((∃ msg, res = Throw msg ∧ db st' = db st
                   ∧ userCache st' = userCache st)
           ∨ (∃ doc, doc ∈ users (db st) ∧ res = Ok doc.1 ∧ db st' = db st
                     ∧ userCache st' = <[userKey u := doc.1]> (userCache st))
           ∨ (∃ p, res = Ok (next_oid (db st))
                   ∧ db st' = push_user (next_oid (db st), p) (db st)
                   ∧ userCache st'
                     = <[userKey u := next_oid (db st)]> (userCache st))))).
Proof.
  unfold getOrCreateUser, User_findOne, User_create, call, roundtrip, check,
    mbind, M_bind, bind, gets, modify, mret, M_ret, ret.
  destruct (userCache st !! userKey u) as [id|] eqn:Hc.
  { intros [= <- <-]. split; [done|]. left. by exists id. }
  destruct (truthy (ud_firstname u) && truthy (ud_email u)); simpl.
  - destruct (fault h _).
    { intros [= <- <-]. split; [by intros []|]. right. split; [done|].
      left. by eexists. }
    change (db (log _ st)) with (db st).
    destruct (first_match
                (λ x, String.eqb (u_firstname x.2)
                                 (trim h (or_empty (ud_firstname u)))
                      && String.eqb (u_email x.2)
                                    (set_email h (or_empty (ud_email u))))
                (users (db st))) as [doc|] eqn:Hf.
    { intros [= <- <-]. split; [by intros []|]. right. split; [done|].
      right. left. exists doc. apply first_match_Some in Hf as [Hin _]. done. }
    destruct (validate_User _).
    { intros [= <- <-]. split; [by intros []|]. right. split; [done|].
      left. by eexists. }
    simpl. destruct (fault h _).
    { intros [= <- <-]. split; [by intros []|]. right. split; [done|].
      left. by eexists. }
    intros [= <- <-]. split; [by intros []|]. right. split; [done|].
    right. right. by eexists.
  - destruct (validate_User _).
    { intros [= <- <-]. split; [by intros []|]. right. split; [done|].
      left. by eexists. }
    simpl. destruct (fault h _).
    { intros [= <- <-]. split; [by intros []|]. right. split; [done|].
      left. by eexists. }
    intros [= <- <-]. split; [by intros []|]. right. split; [done|].
    right. right. by eexists.
Qed.

(** All that the policy step of a row can do to the store. *)
Lemma create_policy_cases h r lobId carrierId userId st res st' :
  create_policy h r lobId carrierId userId st = (res, st') →
  caches st' = caches st
  ∧ (db st' = db st
     ∨ (∃ lob carrier startDate endDate,
          truthy (policy_number r) = true
          ∧ lobId = Some lob ∧ carrierId = Some carrier
          ∧ parse_date h (policy_start_date r) = Some startDate
          ∧ parse_date h (policy_end_date r) = Some endDate
          ∧ first_match
              (λ x, String.eqb (p_policy_number x.2) (or_empty (policy_number r)))
              (policies (db st)) = None
          ∧ res = Ok tt
          ∧ db st'
            = push_policy
                (next_oid (db st),
                 mkPolicy (or_empty (policy_number r)) startDate endDate
                          lob carrier userId)
                (db st))).
Proof.
  unfold create_policy.
  destruct (truthy (policy_number r)); [|intros [= <- <-]; by split; [|left]].
  destruct lobId as [lob|]; [|intros [= <- <-]; by split; [|left]].
  destruct carrierId as [carrier|]; [|intros [= <- <-]; by split; [|left]].
  destruct (parse_date h (policy_start_date r)) as [startDate|];
    [|intros [= <- <-]; by split; [|left]].
  destruct (parse_date h (policy_end_date r)) as [endDate|];
    [|intros [= <- <-]; by split; [|left]].
  unfold Policy_findOne, Policy_create, call, roundtrip, mbind, M_bind, bind,
    mret, M_ret, ret, modify, gets. simpl.
  destruct (fault h _); [intros [= <- <-]; by split; [|left]|].
  change (db (log _ st)) with (db st).
  destruct (first_match (λ x, String.eqb (p_policy_number x.2)
                                 (or_empty (policy_number r)))
                        (policies (db st))) as [doc|] eqn:Hf.
  { intros [= <- <-]. by split; [|left]. }
  destruct (fault h _); [intros [= <- <-]; by split; [|left]|].
  intros [= <- <-]. split; [done|]. right.
  exists lob, carrier, startDate, endDate. done.
Qed.

Lemma count_row_db total st res st' :
  count_row total st = (res, st') →
  res = Ok tt ∧ db st' = db st ∧ caches st' = caches st.
Proof. rewrite count_row_spec. by intros [= <- <-]. Qed.

(** *** The policy of a row, whatever storage does *)

(** A row whose body throws creates no policy. *)
Lemma try_body_Throw_policies h total r st msg st' :
  try_body h total r st = (Throw msg, st') →
  stored_policies st' = stored_policies st.
Proof.
  unfold try_body. intros E.
  apply bind_inv in E as [(ids & st1 & E1 & E)|(msg' & E1 & _)].
  - pose proof (keeps_run stored_policies _ _ _ _ (resolve_policies h r) E1) as K1.
    apply bind_inv in E as [([] & st2 & E2 & E)|(msg' & E2 & _)].
    + rewrite count_row_spec in E. done.
    + apply create_policy_cases in E2 as [_ [Hdb|E2]].
      * unfold stored_policies in *. by rewrite Hdb.
      * by destruct E2 as (? & ? & ? & ? & _ & _ & _ & _ & _ & _ & ? & _).
  - apply (keeps_run stored_policies _ _ _ _ (resolve_policies h r) E1).
Qed.

(** C1, as amended. The [try]/[catch] of one record, whatever storage
    does. When the body of the row returns, its references have
    resolved, the person to an identity, and the row creates a policy if
    and only if the rule holds: policy number present, LOB and carrier
    resolved, both dates valid, no policy of that number in storage. The
    policy is then
    appended with the resolved identities and the parsed dates; when the
    rule fails (also when the number is already stored) the policies are
    left as they were, the row is counted as processed and no error is
    recorded. A row whose references have resolved and that is incomplete
    cannot throw any more. When the body of the row throws, because a
    reference or the person could not be resolved or the query or the
    creation of the policy was rejected, the row is not skipped: no
    policy is created and the row is recorded as an error. The
    identities of the agent and of the account play no part. *)
Theorem row_creates_policy_by_rule_or_is_error h total i batch (rec : record) st :
  match try_body h total rec.2 st with
  | (Throw msg, _) =>
      stored_policies (try_catch h total i batch rec st) = stored_policies st
      ∧ processed (try_catch h total i batch rec st) = processed st
      ∧ errors (try_catch h total i batch rec st) = S (errors st)
      ∧ errorsList (try_catch h total i batch rec st)
        = errorsList st
          ++ [mkEntry (Z.of_nat i + indexOf batch rec + 1) msg
                      (or_NA (policy_number rec.2))]
  | (Ok _, _) =>
      ∃ lobId carrierId userId st1,
        resolve h rec.2 st = (Ok (lobId, carrierId, userId), st1)
        ∧ (creatable h rec.2 lobId carrierId (db st) = true
           ↔ ∃ doc, stored_policies (try_catch h total i batch rec st)
                    = stored_policies st ++ [doc])
        ∧ (creatable h rec.2 lobId carrierId (db st) = true →
           ∃ lob carrier startDate endDate,
             lobId = Some lob ∧ carrierId = Some carrier
             ∧ parse_date h (policy_start_date rec.2) = Some startDate
             ∧ parse_date h (policy_end_date rec.2) = Some endDate
             ∧ stored_policies (try_catch h total i batch rec st)
               = stored_policies st
                 ++ [(next_oid (db st1),
                      mkPolicy (or_empty (policy_number rec.2)) startDate
                               endDate lob carrier userId)])
        ∧ (creatable h rec.2 lobId carrierId (db st) = false →
           stored_policies (try_catch h total i batch rec st)
           = stored_policies st)
        ∧ processed (try_catch h total i batch rec st) = S (processed st)
        ∧ errors (try_catch h total i batch rec st) = errors st
        ∧ errorsList (try_catch h total i batch rec st) = errorsList st
  end
  ∧ (∀ lobId carrierId userId st1,
       resolve h rec.2 st = (Ok (lobId, carrierId, userId), st1) →
       complete h rec.2 lobId carrierId = false →
       (try_body h total rec.2 st).1 = Ok tt).
Proof.
  split.
  - unfold try_catch.
    destruct (try_body h total rec.2 st) as [[[]|msg] st'] eqn:E.
    + pose proof E as E'.
      apply try_body_Ok in E' as ([[lobId carrierId] userId] & st1 & _ & E1 & _).
      exists lobId, carrierId, userId, st1. split; [done|].
      by apply (policy_created_iff_rule h total rec.2 st lobId carrierId userId
                  st1 E1).
    + pose proof (try_body_counters _ _ _ _ _ _ E) as (R & L & P & _).
      apply try_body_Throw_policies in E. simpl.
      split_and!; [done|done|by rewrite R|by rewrite L].
  - intros lobId carrierId userId st1 E1 Hc.
    destruct (policy_created_iff_rule h total rec.2 st lobId carrierId userId
                st1 E1) as [H _].
    destruct (H Hc) as (st' & -> & _). done.
Qed.

(** C1, the claim as it is written, at a row whose person is not
    resolved: the only row names a category, a company and a person and
    brings a policy number and two valid dates, and storage rejects the
    fifth call of the run, the query for the person. The row is not
    skipped: it creates no policy and is recorded as an error. *)
Lemma rejected_person_query_is_an_error :
  let h := Demo.host_of [Demo.unassigned_row] (Demo.fault_at 5) in
  (resolve h Demo.unassigned_row (fresh Demo.empty_store)).1
  = Throw "connection timed out"
  ∧ (λ st, (out st, stored_policies st)) <$> processCSV h "csv" Demo.empty_store
    = Some ([Done true 0 1 1 [mkEntry 1 "connection timed out" "YEEX9MOIBU7X"]],
            []).
Proof. vm_compute. split; reflexivity. Qed.

(** *** Invariants of awaited code *)

Lemma inv_ret {A} (I : run → Prop) (a : A) : inv I (mret a).
Proof. by intros st res st' [= <- <-]. Qed.

Lemma inv_bind {A B} (I : run → Prop) (m : M A) (k : A → M B) :
  inv I m → (∀ a, inv I (k a)) → inv I (m ≫= k).
Proof.
  intros Hm Hk st res st' E HI.
  apply bind_inv in E as [(a & st1 & E1 & E)|(msg & E1 & _)].
  - eapply Hk; [done|]. by eapply Hm.
  - by eapply Hm.
Qed.

Lemma grows_ret {A} (a : A) : grows (mret a).
Proof. by intros st res st' [= <- <-]. Qed.

Lemma grows_bind {A B} (m : M A) (k : A → M B) :
  grows m → (∀ a, grows (k a)) → grows (m ≫= k).
Proof.
  intros Hm Hk st res st' E.
  apply bind_inv in E as [(a & st1 & E1 & E)|(msg & E1 & _)].
  - etrans; [by eapply Hm|by eapply Hk].
  - by eapply Hm.
Qed.

Lemma getOrCreate_grows h g label : grows (getOrCreate h g label).
Proof.
  intros st res st' E.
  apply getOrCreate_cases in E
    as [(_ & _ & ->)|(name & -> & Hname & [(id & _ & _ & ->)|(Hc & E)])].
  1, 2: reflexivity.
  destruct E as [(msg & _ & ->)|[(doc & _ & _ & ->)|[(_ & msg & _ & ->)|(Hf & _ & ->)]]];
    rewrite ?db_cache_set; simpl; try reflexivity.
  apply rtc_once. by constructor.
Qed.

Lemma getOrCreateUser_grows h u : grows (getOrCreateUser h u).
Proof.
  intros st res st' E.
  apply getOrCreateUser_cases in E as [_ [(id & _ & _ & ->)|(_ & E)]].
  1: reflexivity.
  destruct E as [(msg & _ & -> & _)|[(doc & _ & _ & -> & _)|(p & _ & -> & _)]];
    try reflexivity.
  apply rtc_once. constructor.
Qed.

Lemma create_policy_grows h r lobId carrierId userId :
  grows (create_policy h r lobId carrierId userId).
Proof.
  intros st res st' E.
  apply create_policy_cases in E as [_ [->|E]].
  1: reflexivity.
  destruct E as (lob & carrier & s & e & _ & _ & _ & _ & _ & Hf & _ & ->).
  apply rtc_once. by apply (insert_policy (mkPolicy _ _ _ _ _ _)).
Qed.

Lemma count_row_grows total : grows (count_row total).
Proof. intros st res st' E. apply count_row_db in E as (_ & -> & _). reflexivity. Qed.

Lemma resolve_grows h r : grows (resolve h r).
Proof.
  unfold resolve, getOrCreateAgent, getOrCreateLOB, getOrCreateCarrier,
    getOrCreateUserAccount.
  do 3 (apply grows_bind; [apply getOrCreate_grows|intros ?]).
  apply grows_bind; [apply getOrCreateUser_grows|intros ?].
  apply grows_bind; [apply getOrCreate_grows|intros ?].
  apply grows_ret.
Qed.

Lemma try_body_grows h total r : grows (try_body h total r).
Proof.
  unfold try_body.
  apply grows_bind; [apply resolve_grows|intros ?].
  apply grows_bind; [apply create_policy_grows|intros ?].
  apply count_row_grows.
Qed.

Lemma handle_grows h total n r st :
  rtc insertion (db st) (db (handle h total n r st)).
Proof.
  unfold handle. destruct (try_body h total r st) as [[[]|msg] st'] eqn:E;
    apply try_body_grows in E; exact E.
Qed.

Lemma one_at_a_time_grows h total k rows st :
  rtc insertion (db st) (db (one_at_a_time h total k rows st)).
Proof.
  revert k st. induction rows as [|r rows IH]; intros k st; simpl; [reflexivity|].
  etrans; [apply handle_grows|apply IH].
Qed.

Lemma store_after_spec h csvData d :
  store_after h csvData d
  = match connect h, parse h csvData with
    | None, inr rows => db (after_rows h rows d)
    | _, _ => d
    end.
Proof.
  unfold store_after. rewrite processCSV_spec.
  destruct (connect h); [done|]. destruct (parse h csvData); [done|].
  simpl. by destruct (close h).
Qed.

(** A run changes the store by insertions only. *)
Lemma store_after_grows h csvData d :
  rtc insertion d (store_after h csvData d).
Proof.
  rewrite store_after_spec. destruct (connect h); [reflexivity|].
  destruct (parse h csvData) as [|rows]; [reflexivity|].
  apply (one_at_a_time_grows h (length rows) 0 rows (fresh d)).
Qed.

(** *** What insertions keep *)

Lemma insertion_prefix d d' :
  insertion d d' →
  (∀ f, coll_of f d `prefix_of` coll_of f d')
  ∧ users d `prefix_of` users d'
  ∧ policies d `prefix_of` policies d'.
Proof.
  intros [f name d0 _|u d0|p d0 _]; split_and!; try intros g;
    try destruct f; try destruct g; simpl;
    first [reflexivity | by apply prefix_app_r].
Qed.

Lemma rtc_insertion_prefix d d' :
  rtc insertion d d' →
  (∀ f, coll_of f d `prefix_of` coll_of f d')
  ∧ users d `prefix_of` users d'
  ∧ policies d `prefix_of` policies d'.
Proof.
  induction 1 as [|d1 d2 d3 H _ (IH1 & IH2 & IH3)].
  { split_and!; [intros f|..]; reflexivity. }
  apply insertion_prefix in H as (H1 & H2 & H3).
  split_and!;
    [intros f; etrans; [apply H1|apply IH1]
    |etrans; [apply H2|apply IH2]
    |etrans; [apply H3|apply IH3]].
Qed.

Lemma insertion_names f d d' :
  insertion d d' → NoDup (names f d) → NoDup (names f d').
Proof.
  unfold names. intros [g name d0 Hf|u d0|p d0 _]; [|done|done].
  destruct (decide (g = f)) as [->|Hne]; [|by destruct f, g].
  intros Hnd.
  assert (coll_of f (push_ref f (next_oid d0, name) d0)
          = coll_of f d0 ++ [(next_oid d0, name)]) as -> by (by destruct f).
  rewrite fmap_app. simpl. apply NoDup_app. split_and!; [done| |apply NoDup_singleton].
  intros x Hx Hx'. apply list_elem_of_singleton in Hx' as ->.
  apply list_elem_of_fmap in Hx as (doc & -> & Hdoc).
  apply (first_match_None _ _ Hf) in Hdoc. simpl in Hdoc.
  by rewrite String.eqb_refl in Hdoc.
Qed.

Lemma insertion_numbers d d' :
  insertion d d' → NoDup (numbers d) → NoDup (numbers d').
Proof.
  unfold numbers. intros [g name d0 _|u d0|p d0 Hf]; [by destruct g|done|].
  intros Hnd. simpl. rewrite fmap_app. simpl.
  apply NoDup_app. split_and!; [done| |apply NoDup_singleton].
  intros x Hx Hx'. apply list_elem_of_singleton in Hx' as ->.
  apply list_elem_of_fmap in Hx as (doc & Heq & Hdoc).
  apply (first_match_None _ _ Hf) in Hdoc. simpl in Hdoc.
  rewrite <- Heq in Hdoc. by rewrite String.eqb_refl in Hdoc.
Qed.

(** *** The caches name stored documents *)

Lemma ids_mono f d d' id :
  rtc insertion d d' → id ∈ (coll_of f d).*1 → id ∈ (coll_of f d').*1.
Proof.
  intros H Hin. apply rtc_insertion_prefix in H as (H & _ & _).
  destruct (H f) as [k ->]. rewrite fmap_app. apply elem_of_app. by left.
Qed.

Lemma user_ids_mono d d' id :
  rtc insertion d d' → id ∈ (users d).*1 → id ∈ (users d').*1.
Proof.
  intros H Hin. apply rtc_insertion_prefix in H as (_ & [k ->] & _).
  rewrite fmap_app. apply elem_of_app. by left.
Qed.

Lemma refers_to_stored_mono p d d' :
  rtc insertion d d' → refers_to_stored p d → refers_to_stored p d'.
Proof.
  intros H (H1 & H2 & H3). split_and!.
  - by apply (ids_mono LOB d d').
  - by apply (ids_mono Carrier d d').
  - by apply (user_ids_mono d d').
Qed.

Lemma coll_of_push_ref f g x d :
  coll_of f (push_ref g x d)
  = if decide (g = f) then coll_of f d ++ [x] else coll_of f d.
Proof. destruct f, g; done. Qed.

Lemma users_push_ref g x d : users (push_ref g x d) = users d.
Proof. by destruct g. Qed.

Lemma caches_eq st st' :
  caches st' = caches st →
  (∀ f, cache_of f st' = cache_of f st) ∧ userCache st' = userCache st.
Proof. unfold caches. intros [= H1 H2 H3 H4 H5]. split; [by intros []|done]. Qed.

Lemma sound_same_caches h st st' :
  caches st' = caches st → rtc insertion (db st) (db st') →
  sound h st → sound h st'.
Proof.
  intros Hc Hg [Href Husr]. apply caches_eq in Hc as [Hc Hu].
  apply rtc_insertion_prefix in Hg as (Hp & [k Hk] & _). split.
  - intros f l id. rewrite Hc. intros H. apply Href in H.
    destruct (Hp f) as [k' ->]. apply elem_of_app. by left.
  - intros key id. rewrite Hu, Hk, fmap_app. intros H. apply elem_of_app.
    left. by apply (Husr key).
Qed.

Lemma sound_getOrCreate h g label : inv (sound h) (getOrCreate h g label).
Proof.
  intros st res st' E Hs. pose proof Hs as [Href Husr].
  apply getOrCreate_cases in E
    as [(_ & _ & ->)|(name & -> & Hname & [(id & _ & _ & ->)|(Hc & E)])].
  1, 2: done.
  destruct E as [(msg & _ & ->)|[(doc & Hf & _ & ->)|[(_ & msg & _ & ->)|(Hf & _ & ->)]]].
  - by apply (sound_same_caches h st).
  - split.
    + intros f l id. rewrite cache_of_cache_set, db_cache_set. simpl.
      destruct (decide (g = f ∧ name = l)) as [[<- <-]|_].
      * intros [= <-]. apply first_match_Some in Hf as [Hin Heq].
        apply String.eqb_eq in Heq. destruct doc as [i n]. simpl in *. by subst.
      * intros H. change (cache_of f (log (FindOne g name) st)) with (cache_of f st) in H.
        by apply Href.
    + intros k id. rewrite userCache_cache_set, db_cache_set. apply Husr.
  - by apply (sound_same_caches h st).
  - split.
    + intros f l id. rewrite cache_of_cache_set, db_cache_set. simpl.
      rewrite coll_of_push_ref.
      destruct (decide (g = f ∧ name = l)) as [[<- <-]|_].
      * intros [= <-]. rewrite decide_True by done.
        apply elem_of_app. right. apply list_elem_of_singleton. done.
      * intros H.
        assert ((id, set_name h f l) ∈ coll_of f (db st))
          by (apply Href; by destruct f).
        destruct (decide (g = f)); [apply elem_of_app; by left|done].
    + intros k id. rewrite userCache_cache_set, db_cache_set. simpl.
      rewrite users_push_ref. apply Husr.
Qed.

Lemma sound_getOrCreateUser h u : inv (sound h) (getOrCreateUser h u).
Proof.
  intros st res st' E [Href Husr].
  apply getOrCreateUser_cases in E as [Hcache [(id & _ & _ & ->)|(_ & E)]].
  1: done.
  destruct E as [(msg & _ & Hdb & Hu)|[(doc & Hin & _ & Hdb & Hu)|(p & _ & Hdb & Hu)]];
    split.
  - intros f l id. rewrite Hcache, Hdb. apply Href.
  - intros k id. rewrite Hu, Hdb. apply Husr.
  - intros f l id. rewrite Hcache, Hdb. apply Href.
  - intros k id. rewrite Hu, Hdb. rewrite lookup_insert.
    destruct (decide (userKey u = k)); [|apply Husr].
    intros [= <-]. apply list_elem_of_fmap. by exists doc.
  - intros f l id. rewrite Hcache, Hdb. intros H. apply Href in H. by destruct f.
  - intros k id. rewrite Hu, Hdb. rewrite lookup_insert. simpl. rewrite fmap_app.
    intros H. apply elem_of_app.
    destruct (decide (userKey u = k)).
    + injection H as <-. right. simpl. apply list_elem_of_singleton. done.
    + left. by apply (Husr k).
Qed.

Lemma sound_create_policy h r lobId carrierId userId :
  inv (sound h) (create_policy h r lobId carrierId userId).
Proof.
  intros st res st' E Hs.
  pose proof (create_policy_grows _ _ _ _ _ _ _ _ E) as Hg.
  apply create_policy_cases in E as [Hc _]. by apply (sound_same_caches h st).
Qed.

Lemma sound_count_row h total : inv (sound h) (count_row total).
Proof.
  intros st res st' E Hs. apply count_row_db in E as (_ & Hdb & Hc).
  apply (sound_same_caches h st); [done| |done]. rewrite Hdb. reflexivity.
Qed.

(** What the resolvers return is stored. *)
Lemma getOrCreate_stored h g label st id st' :
  getOrCreate h g label st = (Ok (Some id), st') → sound h st →
  id ∈ (coll_of g (db st')).*1.
Proof.
  intros E Hs. pose proof (sound_getOrCreate h g label _ _ _ E Hs) as [Href _].
  assert (∃ name, cache_of g st' !! name = Some id) as [name Hname].
  { apply getOrCreate_cases in E
      as [(_ & ? & _)|(name & -> & Hname & [(id' & Hc & Hid & ->)|(Hc & E)])].
    - done.
    - injection Hid as <-. by exists name.
    - exists name.
      destruct E as [(msg & ? & _)|[(doc & Hf & Hid & ->)|[(_ & msg & ? & _)|(Hf & Hid & ->)]]];
        try done; injection Hid as ->;
        rewrite cache_of_cache_set; by rewrite decide_True. }
  apply list_elem_of_fmap. exists (id, set_name h g name).
  split; [done|by apply Href].
Qed.

Lemma getOrCreateUser_stored h u st id st' :
  getOrCreateUser h u st = (Ok id, st') → sound h st →
  id ∈ (users (db st')).*1.
Proof.
  intros E [_ Husr].
  apply getOrCreateUser_cases in E as [_ [(id' & Hc & [= <-] & ->)|(_ & E)]].
  { by apply (Husr (userKey u)). }
  destruct E as [(msg & ? & _)|[(doc & Hin & [= ->] & -> & _)|(p & [= ->] & -> & _)]];
    try done.
  - apply list_elem_of_fmap. by exists doc.
  - simpl. rewrite fmap_app. apply elem_of_app. right. simpl.
    apply list_elem_of_singleton. done.
Qed.

Lemma sound_resolve h r : inv (sound h) (resolve h r).
Proof.
  unfold resolve, getOrCreateAgent, getOrCreateLOB, getOrCreateCarrier,
    getOrCreateUserAccount.
  do 3 (apply inv_bind; [apply sound_getOrCreate|intros ?]).
  apply inv_bind; [apply sound_getOrCreateUser|intros ?].
  apply inv_bind; [apply sound_getOrCreate|intros ?].
  apply inv_ret.
Qed.

Lemma sound_try_body h total r : inv (sound h) (try_body h total r).
Proof.
  unfold try_body.
  apply inv_bind; [apply sound_resolve|intros ?].
  apply inv_bind; [apply sound_create_policy|intros ?].
  apply sound_count_row.
Qed.

Lemma sound_fresh h d : sound h (fresh d).
Proof. split; [intros f l id; destruct f|intros k id]; simpl; by rewrite lookup_empty. Qed.

Lemma sound_push_error h e st : sound h st → sound h (push_error e st).
Proof. apply sound_same_caches; [done|reflexivity]. Qed.

Lemma sound_handle h total n r st : sound h st → sound h (handle h total n r st).
Proof.
  intros Hs. unfold handle.
  destruct (try_body h total r st) as [[[]|msg] st'] eqn:E;
    pose proof (sound_try_body _ _ _ _ _ _ E Hs) as Hs'; [done|].
  by apply sound_push_error.
Qed.

(** Throughout a run, every cached identity is that of a stored
    document. *)
Lemma sound_one_at_a_time h total k rows st :
  sound h st → sound h (one_at_a_time h total k rows st).
Proof.
  revert k st. induction rows as [|r rows IH]; intros k st Hs; simpl; [done|].
  apply IH. by apply sound_handle.
Qed.

(** The identities that the resolution of a row returns are stored. *)
Lemma resolve_stored h r st lobId carrierId userId st' :
  resolve h r st = (Ok (lobId, carrierId, userId), st') → sound h st →
  (∀ id, lobId = Some id → id ∈ (lobs (db st')).*1)
  ∧ (∀ id, carrierId = Some id → id ∈ (carriers (db st')).*1)
  ∧ userId ∈ (users (db st')).*1.
Proof.
  intros E Hs. unfold resolve, getOrCreateAgent, getOrCreateLOB,
    getOrCreateCarrier, getOrCreateUserAccount in E.
  apply bind_inv in E as [(a1 & s1 & E1 & E)|(msg & _ & ?)]; [|done].
  apply bind_inv in E as [(a2 & s2 & E2 & E)|(msg & _ & ?)]; [|done].
  apply bind_inv in E as [(a3 & s3 & E3 & E)|(msg & _ & ?)]; [|done].
  apply bind_inv in E as [(a4 & s4 & E4 & E)|(msg & _ & ?)]; [|done].
  apply bind_inv in E as [(a5 & s5 & E5 & E)|(msg & _ & ?)]; [|done].
  injection E as -> -> -> <-.
  pose proof (sound_getOrCreate _ _ _ _ _ _ E1 Hs) as Hs1.
  pose proof (sound_getOrCreate _ _ _ _ _ _ E2 Hs1) as Hs2.
  pose proof (sound_getOrCreate _ _ _ _ _ _ E3 Hs2) as Hs3.
  pose proof (sound_getOrCreateUser _ _ _ _ _ E4 Hs3) as Hs4.
  pose proof (getOrCreate_grows _ _ _ _ _ _ E3) as G3.
  pose proof (getOrCreateUser_grows _ _ _ _ _ E4) as G4.
  pose proof (getOrCreate_grows _ _ _ _ _ _ E5) as G5.
  split_and!.
  - intros id ->. apply (ids_mono LOB (db s2)); [by do 2 (etrans; [done|])|].
    by apply (getOrCreate_stored h LOB (category_name r) s1).
  - intros id ->. apply (ids_mono Carrier (db s3)); [by etrans|].
    by apply (getOrCreate_stored h Carrier (company_name r) s2).
  - apply (user_ids_mono (db s4)); [done|].
    by eapply getOrCreateUser_stored.
Qed.

(** Every policy of the store that was not in [d] refers to stored
    documents. *)
Lemma linked_try_body h d total r st res st' :
  try_body h total r st = (res, st') →
  sound h st →
  (∀ doc, doc ∈ policies (db st) →
          doc ∈ policies d ∨ refers_to_stored doc.2 (db st)) →
  ∀ doc, doc ∈ policies (db st') →
         doc ∈ policies d ∨ refers_to_stored doc.2 (db st').
Proof.
  intros E Hs Hl.
  assert (∀ s s', rtc insertion (db s) (db s') →
            policies (db s') = policies (db s) →
            (∀ doc, doc ∈ policies (db s) →
                    doc ∈ policies d ∨ refers_to_stored doc.2 (db s)) →
            ∀ doc, doc ∈ policies (db s') →
                   doc ∈ policies d ∨ refers_to_stored doc.2 (db s')) as Hmono.
  { intros s s' Hg Hp H doc. rewrite Hp. intros Hin.
    destruct (H doc Hin) as [?|?]; [by left|right].
    by apply (refers_to_stored_mono _ (db s)). }
  unfold try_body in E.
  apply bind_inv in E as [(ids & st1 & E1 & E)|(msg & E1 & _)].
  2: { apply (Hmono st); [by eapply resolve_grows| |done].
       apply (keeps_run stored_policies _ _ _ _ (resolve_policies h r) E1). }
  assert (∀ doc, doc ∈ policies (db st1) →
                 doc ∈ policies d ∨ refers_to_stored doc.2 (db st1)) as Hl1.
  { apply (Hmono st); [by eapply resolve_grows| |done].
    apply (keeps_run stored_policies _ _ _ _ (resolve_policies h r) E1). }
  destruct ids as [[lobId carrierId] userId].
  destruct (resolve_stored _ _ _ _ _ _ _ E1 Hs) as (Hlob & Hcar & Husr).
  simpl in E.
  assert (∀ res2 st2,
            create_policy h r lobId carrierId userId st1 = (res2, st2) →
            ∀ doc, doc ∈ policies (db st2) →
                   doc ∈ policies d ∨ refers_to_stored doc.2 (db st2)) as Hcp.
  { intros res2 st2 E2.
    pose proof (create_policy_grows _ _ _ _ _ _ _ _ E2) as G2.
    apply create_policy_cases in E2 as [_ [Hdb|E2]].
    { by rewrite Hdb. }
    destruct E2 as (lob & carrier & s & e & _ & -> & -> & _ & _ & _ & _ & Hdb).
    intros doc. rewrite Hdb. simpl. intros Hin.
    apply elem_of_app in Hin as [Hin|Hin].
    - destruct (Hl1 doc Hin) as [?|?]; [by left|right].
      apply (refers_to_stored_mono _ (db st1)); [by rewrite <- Hdb|done].
    - apply list_elem_of_singleton in Hin as ->. right. simpl.
      rewrite <- Hdb. apply (refers_to_stored_mono _ (db st1)); [done|].
      split_and!; simpl; auto. }
  apply bind_inv in E as [([] & st2 & E2 & E)|(msg & E2 & _)].
  - apply count_row_db in E as (_ & Hdb & _). rewrite Hdb. by eapply Hcp.
  - by eapply Hcp.
Qed.

Lemma linked_one_at_a_time h d total k rows st :
  sound h st →
  (∀ doc, doc ∈ policies (db st) →
          doc ∈ policies d ∨ refers_to_stored doc.2 (db st)) →
  ∀ doc, doc ∈ policies (db (one_at_a_time h total k rows st)) →
         doc ∈ policies d
         ∨ refers_to_stored doc.2 (db (one_at_a_time h total k rows st)).
Proof.
  revert k st. induction rows as [|r rows IH]; intros k st Hs Hl; simpl; [done|].
  apply IH; [by apply sound_handle|].
  unfold handle. destruct (try_body h total r st) as [[[]|msg] st'] eqn:E;
    by apply (linked_try_body h d total r st _ _ E).
Qed.

Lemma rtc_insertion_names f d d' :
  rtc insertion d d' → NoDup (names f d) → NoDup (names f d').
Proof. induction 1 as [|d1 d2 d3 H _ IH]; [done|]. intros Hn. by apply IH, (insertion_names f d1). Qed.

Lemma rtc_insertion_numbers d d' :
  rtc insertion d d' → NoDup (numbers d) → NoDup (numbers d').
Proof. induction 1 as [|d1 d2 d3 H _ IH]; [done|]. intros Hn. by apply IH, (insertion_numbers d1). Qed.

(** X1. A run never deletes, rewrites or reorders a stored document: each
    of the six collections it leaves behind starts with the collection it
    found. *)
Theorem run_only_appends h csvData d :
  (∀ f, coll_of f d `prefix_of` coll_of f (store_after h csvData d))
  ∧ users d `prefix_of` users (store_after h csvData d)
  ∧ policies d `prefix_of` policies (store_after h csvData d).
Proof. apply rtc_insertion_prefix, store_after_grows. Qed.

(** X2. A run keeps the names of a reference family unique: if no two
    stored agents (LOBs, carriers, accounts) share a name before the run,
    none do after it, whatever the payload and whatever storage rejects. *)
Theorem run_keeps_names_unique h csvData d f :
  NoDup (names f d) → NoDup (names f (store_after h csvData d)).
Proof. apply rtc_insertion_names, store_after_grows. Qed.

Lemma run_keeps_names_unique_witness :
  NoDup (names Carrier Demo.acme_store)
  ∧ NoDup (names Carrier
             (store_after (Demo.host_of Demo.three_rows Demo.no_fault) "csv"
                          Demo.acme_store)).
Proof.
  assert (NoDup (names Carrier Demo.acme_store)) as H by apply NoDup_singleton.
  split; [exact H|].
  exact (run_keeps_names_unique (Demo.host_of Demo.three_rows Demo.no_fault)
           "csv" Demo.acme_store Carrier H).
Defined.

(** X3. A run keeps policy numbers unique: if no two stored policies
    share a number before the run, none do after it. *)
Theorem run_keeps_policy_numbers_unique h csvData d :
  NoDup (numbers d) → NoDup (numbers (store_after h csvData d)).
Proof. apply rtc_insertion_numbers, store_after_grows. Qed.

Lemma run_keeps_policy_numbers_unique_witness :
  NoDup (numbers Demo.empty_store)
  ∧ NoDup (numbers
             (store_after (Demo.host_of Demo.three_rows Demo.no_fault) "csv"
                          Demo.empty_store)).
Proof.
  assert (NoDup (numbers Demo.empty_store)) as H by apply NoDup_nil_2.
  split; [exact H|].
  exact (run_keeps_policy_numbers_unique
           (Demo.host_of Demo.three_rows Demo.no_fault) "csv" Demo.empty_store H).
Defined.

(** X4. Every policy that a run adds refers to stored documents: its
    category, company and user identities are the [_id]s of a LOB, a
    carrier and a person of the store the run leaves behind. *)
Theorem created_policies_refer_to_stored h csvData d doc :
  doc ∈ policies (store_after h csvData d) →
  doc ∉ policies d →
  refers_to_stored doc.2 (store_after h csvData d).
Proof.
  rewrite store_after_spec. destruct (connect h); [done|].
  destruct (parse h csvData) as [|rows]; [done|].
  intros Hin Hnot.
  destruct (linked_one_at_a_time h d (length rows) 0 rows (fresh d)
              (sound_fresh h d) (λ doc H, or_introl H) doc Hin); done.
Qed.

Lemma created_policies_refer_to_stored_witness :
  let h := Demo.host_of Demo.three_rows Demo.no_fault in
  let doc := (5, mkPolicy "P-1" 1541116800000 1572652800000 1 2 3) in
  (doc ∈ policies (store_after h "csv" Demo.empty_store))
  ∧ (doc ∉ policies Demo.empty_store)
  ∧ refers_to_stored doc.2 (store_after h "csv" Demo.empty_store).
Proof.
  intros h doc.
  assert (doc ∈ policies (store_after h "csv" Demo.empty_store)) as Hin.
  { assert (policies (store_after h "csv" Demo.empty_store)
            = [doc; (7, mkPolicy "P-2" 1541116800000 1572652800000 1 2 6)]) as Hp
      by (vm_compute; reflexivity).
    rewrite Hp. apply list_elem_of_here. }
  assert (doc ∉ policies Demo.empty_store) as Hnot by apply not_elem_of_nil.
  split_and!; [exact Hin|exact Hnot|].
  exact (created_policies_refer_to_stored h "csv" Demo.empty_store doc Hin Hnot).
Defined.

(** *** Persons per key *)

Lemma getOrCreate_persons h g label : keeps persons (getOrCreate h g label).
Proof.
  unfold getOrCreate, findOne, create.
  keeps_tac; unfold persons; simpl;
    rewrite ?db_cache_set, ?userCache_cache_set; simpl;
    rewrite ?users_push_ref; done.
Qed.

Lemma create_policy_persons h r lobId carrierId userId :
  keeps persons (create_policy h r lobId carrierId userId).
Proof. unfold create_policy, Policy_findOne, Policy_create. keeps_tac; done. Qed.

Lemma count_row_persons total : keeps persons (count_row total).
Proof. intros st. by rewrite count_row_spec. Qed.

Lemma persons_inv st st' :
  persons st' = persons st →
  users (db st') = users (db st) ∧ userCache st' = userCache st.
Proof. unfold persons. by intros [= -> ->]. Qed.

(** One resolution of a person stores at most one person, and none
    without a new key in the cache. *)
Lemma getOrCreateUser_bound h u (K : gset string) n st res st' :
  getOrCreateUser h u st = (res, st') →
  userKey u ∈ K →
  length (users (db st)) ≤ n + size (userCache st) →
  dom (userCache st) ⊆ K →
  length (users (db st')) ≤ n + size (userCache st')
  ∧ dom (userCache st') ⊆ K.
Proof.
  intros E HK Hlen Hdom.
  apply getOrCreateUser_cases in E as [_ [(id & _ & _ & ->)|(Hc & E)]]; [done|].
  destruct E as [(msg & _ & -> & ->)|[(doc & _ & _ & -> & ->)|(p & _ & -> & ->)]].
  - done.
  - rewrite map_size_insert_None by done. split; [lia|].
    rewrite dom_insert. apply union_subseteq.
    split; [by apply singleton_subseteq_l|done].
  - rewrite map_size_insert_None by done. simpl. rewrite length_app. simpl.
    split; [lia|]. rewrite dom_insert. apply union_subseteq.
    split; [by apply singleton_subseteq_l|done].
Qed.

Lemma try_body_bound h total r (K : gset string) n st res st' :
  try_body h total r st = (res, st') →
  userKey (person_of r) ∈ K →
  length (users (db st)) ≤ n + size (userCache st) →
  dom (userCache st) ⊆ K →
  length (users (db st')) ≤ n + size (userCache st')
  ∧ dom (userCache st') ⊆ K.
Proof.
  intros E HK Hlen Hdom.
  assert (∀ s s', persons s' = persons s →
            length (users (db s)) ≤ n + size (userCache s)
            ∧ dom (userCache s) ⊆ K →
            length (users (db s')) ≤ n + size (userCache s')
            ∧ dom (userCache s') ⊆ K) as Hsame.
  { intros s s' Hp. apply persons_inv in Hp as [-> ->]. done. }
  assert (∀ res1 st1, resolve h r st = (res1, st1) →
            length (users (db st1)) ≤ n + size (userCache st1)
            ∧ dom (userCache st1) ⊆ K) as Hres.
  { intros res1 st1 E1. unfold resolve, getOrCreateAgent, getOrCreateLOB,
      getOrCreateCarrier, getOrCreateUserAccount in E1.
    apply bind_inv in E1 as [(a1 & s1 & E1 & E')|(msg & E1 & _)];
      apply (keeps_run persons) in E1; try apply getOrCreate_persons;
      [|by apply (Hsame st)].
    apply bind_inv in E' as [(a2 & s2 & E2 & E')|(msg & E2 & _)];
      apply (keeps_run persons) in E2; try apply getOrCreate_persons;
      [|apply (Hsame s1); [done|by apply (Hsame st)]].
    apply bind_inv in E' as [(a3 & s3 & E3 & E')|(msg & E3 & _)];
      apply (keeps_run persons) in E3; try apply getOrCreate_persons;
      [|apply (Hsame s2); [done|apply (Hsame s1); [done|by apply (Hsame st)]]].
    assert (length (users (db s3)) ≤ n + size (userCache s3)
            ∧ dom (userCache s3) ⊆ K) as [H3 D3].
    { apply (Hsame s2); [done|apply (Hsame s1); [done|by apply (Hsame st)]]. }
    apply bind_inv in E' as [(a4 & s4 & E4 & E')|(msg & E4 & _)];
      apply (getOrCreateUser_bound h _ K n) in E4; try done.
    apply bind_inv in E' as [(a5 & s5 & E5 & E')|(msg & E5 & _)];
      apply (keeps_run persons) in E5; try apply getOrCreate_persons;
      [|by apply (Hsame s4)].
    injection E' as _ <-. by apply (Hsame s4). }
  unfold try_body in E.
  apply bind_inv in E as [(ids & st1 & E1 & E)|(msg & E1 & _)];
    [|by eapply Hres].
  apply Hres in E1.
  apply bind_inv in E as [([] & st2 & E2 & E)|(msg & E2 & _)];
    apply (keeps_run persons) in E2; try apply create_policy_persons;
    [|by apply (Hsame st1)].
  apply (keeps_run persons) in E; [|apply count_row_persons].
  apply (Hsame st2); [done|]. by apply (Hsame st1).
Qed.

Lemma one_at_a_time_bound h total k rows (K : gset string) n st :
  (∀ r, r ∈ rows → userKey (person_of r) ∈ K) →
  length (users (db st)) ≤ n + size (userCache st) →
  dom (userCache st) ⊆ K →
  length (users (db (one_at_a_time h total k rows st)))
  ≤ n + size (userCache (one_at_a_time h total k rows st))
  ∧ dom (userCache (one_at_a_time h total k rows st)) ⊆ K.
Proof.
  revert k st. induction rows as [|r rows IH]; intros k st HK Hlen Hdom; simpl; [done|].
  assert (length (users (db (handle h total (Z.of_nat k + 1) r st)))
          ≤ n + size (userCache (handle h total (Z.of_nat k + 1) r st))
          ∧ dom (userCache (handle h total (Z.of_nat k + 1) r st)) ⊆ K) as [H1 H2].
  { unfold handle. destruct (try_body h total r st) as [[[]|msg] st'] eqn:E;
      apply (try_body_bound h total r K n) in E; try done;
      apply HK, list_elem_of_here. }
  apply IH; [|done|done]. intros r' Hr'. by apply HK, list_elem_of_further.
Qed.

(** X5. A run stores at most one new person per resolution key of the
    payload (first name, email and raw date-of-birth string): the number
    of persons it adds is at most the number of distinct keys among its
    rows. *)
Theorem run_adds_one_person_per_key h csvData d rows :
  parse h csvData = inr rows →
  length (users (store_after h csvData d))
  ≤ length (users d)
    + size (list_to_set ((λ r, userKey (person_of r)) <$> rows) : gset string).
Proof.
  intros Ep. rewrite store_after_spec, Ep. destruct (connect h); [lia|].
  destruct (one_at_a_time_bound h (length rows) 0 rows
              (list_to_set ((λ r, userKey (person_of r)) <$> rows))
              (length (users d)) (fresh d)) as [Hlen Hdom].
  - intros r Hr. apply elem_of_list_to_set, list_elem_of_fmap. by exists r.
  - simpl. lia.
  - simpl. rewrite dom_empty. apply empty_subseteq.
  - unfold after_rows. etrans; [exact Hlen|].
    apply Nat.add_le_mono_l. rewrite <- size_dom. by apply subseteq_size.
Qed.

Lemma run_adds_one_person_per_key_witness :
  let h := Demo.host_of (Demo.same_rows 205) Demo.no_fault in
  parse h "csv" = inr (Demo.same_rows 205)
  ∧ length (users (store_after h "csv" Demo.empty_store))
    ≤ length (users Demo.empty_store)
      + size (list_to_set ((λ r, userKey (person_of r)) <$> Demo.same_rows 205)
              : gset string).
Proof.
  intros h. split; [reflexivity|].
  exact (run_adds_one_person_per_key h "csv" Demo.empty_store (Demo.same_rows 205)
           eq_refl).
Defined.

(** *** Importing a payload again *)

Lemma names_mono f d d' l :
  rtc insertion d d' → l ∈ names f d → l ∈ names f d'.
Proof.
  unfold names. intros H Hin. apply rtc_insertion_prefix in H as (H & _ & _).
  destruct (H f) as [k ->]. rewrite fmap_app. apply elem_of_app. by left.
Qed.

Lemma numbers_mono d d' n :
  rtc insertion d d' → n ∈ numbers d → n ∈ numbers d'.
Proof.
  unfold numbers. intros H Hin. apply rtc_insertion_prefix in H as (_ & _ & [k ->]).
  rewrite fmap_app. apply elem_of_app. by left.
Qed.

Lemma known_mono h r d d' : rtc insertion d d' → known h r d → known h r d'.
Proof.
  intros H [H1 H2]. split.
  - intros f l Hm Hl. by apply (names_mono f d), H1.
  - intros Hr. by apply (numbers_mono d), H2.
Qed.

Lemma first_match_name_None f d l :
  first_match (λ x, String.eqb x.2 l) (coll_of f d) = None → l ∉ names f d.
Proof.
  intros Hf Hin. unfold names in Hin.
  apply list_elem_of_fmap in Hin as (doc & -> & Hdoc).
  apply (first_match_None _ _ Hf) in Hdoc. simpl in Hdoc.
  by rewrite String.eqb_refl in Hdoc.
Qed.

Lemma first_match_number_None d n :
  first_match (λ x, String.eqb (p_policy_number x.2) n) (policies d) = None →
  n ∉ numbers d.
Proof.
  intros Hf Hin. unfold numbers in Hin.
  apply list_elem_of_fmap in Hin as (doc & -> & Hdoc).
  apply (first_match_None _ _ Hf) in Hdoc. simpl in Hdoc.
  by rewrite String.eqb_refl in Hdoc.
Qed.

(** A resolver that returns gives an identity exactly to a non-empty
    label, and that label is then the name of a stored document. *)
Lemma getOrCreate_Ok h g label st x st' :
  getOrCreate h g label st = (Ok x, st') → sound h st →
  given x = truthy label
  ∧ ∀ l, label = Some l → l ≠ "" → set_name h g l ∈ names g (db st').
Proof.
  intros E Hs. pose proof (sound_getOrCreate h g label _ _ _ E Hs) as [Href _].
  apply getOrCreate_cases in E
    as [(Ht & [= ->] & ->)|(name & -> & Hname & E)].
  { split; [done|]. intros l -> Hl. simpl in Ht.
    by destruct (String.eqb_spec l ""). }
  assert (truthy (Some name) = true) as Ht.
  { simpl. by destruct (String.eqb_spec name ""). }
  assert (∃ id, x = Some id ∧ cache_of g st' !! name = Some id) as (id & -> & Hid).
  { destruct E as [(id & Hc & [= ->] & ->)|(Hc & E)]; [by exists id|].
    destruct E as [(msg & ? & _)|[(doc & Hf & [= ->] & ->)|[(_ & msg & ? & _)|(Hf & [= ->] & ->)]]];
      try done; eexists; (split; [done|]);
      rewrite cache_of_cache_set; by rewrite decide_True. }
  split; [done|]. intros l [= <-] _. unfold names.
  apply list_elem_of_fmap. exists (id, set_name h g name).
  split; [done|by apply Href].
Qed.

(** After a row whose body returns, the store knows what the row names. *)
Lemma try_body_known h total r st st' :
  try_body h total r st = (Ok tt, st') → sound h st → known h r (db st').
Proof.
  intros E Hs.
  apply try_body_Ok in E as (ids & st1 & st2 & E1 & E2 & E3).
  destruct ids as [[lobId carrierId] userId]. simpl in E2.
  pose proof (create_policy_grows _ _ _ _ _ _ _ _ E2) as G2.
  apply count_row_db in E3 as (_ & Hdb3 & _). rewrite Hdb3.
  assert ((∀ f l, mention f r = Some l → l ≠ "" →
                  set_name h f l ∈ names f (db st1))
          ∧ given lobId = truthy (category_name r)
          ∧ given carrierId = truthy (company_name r)) as (Hk & Hlob & Hcar).
  { unfold resolve, getOrCreateAgent, getOrCreateLOB, getOrCreateCarrier,
      getOrCreateUserAccount in E1.
    apply bind_inv in E1 as [(a1 & s1 & F1 & E1)|(msg & _ & ?)]; [|done].
    apply bind_inv in E1 as [(a2 & s2 & F2 & E1)|(msg & _ & ?)]; [|done].
    apply bind_inv in E1 as [(a3 & s3 & F3 & E1)|(msg & _ & ?)]; [|done].
    apply bind_inv in E1 as [(a4 & s4 & F4 & E1)|(msg & _ & ?)]; [|done].
    apply bind_inv in E1 as [(a5 & s5 & F5 & E1)|(msg & _ & ?)]; [|done].
    injection E1 as -> -> -> <-.
    pose proof (sound_getOrCreate _ _ _ _ _ _ F1 Hs) as Hs1.
    pose proof (sound_getOrCreate _ _ _ _ _ _ F2 Hs1) as Hs2.
    pose proof (sound_getOrCreate _ _ _ _ _ _ F3 Hs2) as Hs3.
    pose proof (sound_getOrCreateUser _ _ _ _ _ F4 Hs3) as Hs4.
    pose proof (getOrCreate_grows _ _ _ _ _ _ F2) as G12.
    pose proof (getOrCreate_grows _ _ _ _ _ _ F3) as G23.
    pose proof (getOrCreateUser_grows _ _ _ _ _ F4) as G34.
    pose proof (getOrCreate_grows _ _ _ _ _ _ F5) as G45.
    destruct (getOrCreate_Ok _ _ _ _ _ _ F1 Hs) as [_ K1].
    destruct (getOrCreate_Ok _ _ _ _ _ _ F2 Hs1) as [T2 K2].
    destruct (getOrCreate_Ok _ _ _ _ _ _ F3 Hs2) as [T3 K3].
    destruct (getOrCreate_Ok _ _ _ _ _ _ F5 Hs4) as [_ K5].
    split_and!; [|done|done].
    intros f l Hm Hl. destruct f; simpl in Hm.
    - apply (names_mono Agent (db s1)); [|by apply K1].
      etrans; [done|]. etrans; [done|]. by etrans.
    - apply (names_mono LOB (db s2)); [|by apply K2].
      etrans; [done|]. by etrans.
    - apply (names_mono Carrier (db s3)); [|by apply K3]. by etrans.
    - by apply K5. }
  split.
  - intros f l Hm Hl. by apply (names_mono f (db st1)), Hk.
  - intros Hr. unfold ready in Hr.
    apply andb_prop in Hr as [Hr He]. apply andb_prop in Hr as [Hr Hsd].
    apply andb_prop in Hr as [Hr Hco]. apply andb_prop in Hr as [Hpn Hca].
    apply create_policy_spec in E2. unfold creatable, complete in E2.
    rewrite Hpn, Hlob, Hcar, Hca, Hco, Hsd, He in E2. simpl in E2.
    destruct (policy_known (or_empty (policy_number r)) (db st1)) eqn:Hpk; simpl in E2.
    + apply (numbers_mono (db st1)); [done|].
      unfold policy_known in Hpk. apply existsb_exists in Hpk as (doc & Hin & Heq).
      apply String.eqb_eq in Heq. unfold numbers. apply list_elem_of_fmap.
      exists doc. split; [done|by apply list_elem_of_In].
    + destruct E2 as (lob & carrier & sd & ed & _ & _ & _ & _ & Hp).
      unfold numbers. unfold stored_policies in Hp. rewrite Hp, fmap_app.
      apply elem_of_app. right. simpl. apply list_elem_of_singleton. done.
Qed.

Lemma one_at_a_time_known h total k rows st :
  thrown h total k rows st = [] → sound h st →
  ∀ r, r ∈ rows → known h r (db (one_at_a_time h total k rows st)).
Proof.
  revert k st. induction rows as [|r rows IH]; intros k st Hno Hs r' Hr'.
  { by apply elem_of_nil in Hr'. }
  simpl in *. unfold handle in *.
  destruct (try_body h total r st) as [[[]|msg] st1] eqn:E; simpl in Hno; [|done].
  pose proof (sound_try_body _ _ _ _ _ _ E Hs) as Hs1.
  apply elem_of_cons in Hr' as [->|Hr'].
  - apply (known_mono h r (db st1)); [apply one_at_a_time_grows|].
    by apply (try_body_known h total r st).
  - by apply IH.
Qed.

Lemma same_refs_refl d : same_refs d d.
Proof. by split. Qed.

Lemma same_refs_trans d1 d2 d3 :
  same_refs d1 d2 → same_refs d2 d3 → same_refs d1 d3.
Proof.
  intros [H1 H2] [H3 H4]. split; [intros f; by rewrite H3, H1|by rewrite H4, H2].
Qed.

Lemma same_refs_known h r d d' : same_refs d d' → known h r d → known h r d'.
Proof.
  intros [H1 H2] [K1 K2]. unfold known, names, numbers in *. split.
  - intros f l. rewrite H1. apply K1.
  - rewrite H2. apply K2.
Qed.

(** Resolving a label that is stored inserts nothing. *)
Lemma getOrCreate_stored_label h g label st res st' :
  getOrCreate h g label st = (res, st') →
  (∀ l, label = Some l → l ≠ "" → set_name h g l ∈ names g (db st)) →
  db st' = db st.
Proof.
  intros E Hk.
  apply getOrCreate_cases in E
    as [(_ & _ & ->)|(name & -> & Hname & [(id & _ & _ & ->)|(Hc & E)])].
  1, 2: done.
  destruct E as [(msg & _ & ->)|[(doc & _ & _ & ->)|[(_ & msg & _ & ->)|(Hf & _ & ->)]]];
    rewrite ?db_cache_set; try done.
  apply first_match_name_None in Hf. destruct Hf. by apply Hk.
Qed.

Lemma getOrCreateUser_same_refs h u st res st' :
  getOrCreateUser h u st = (res, st') → same_refs (db st) (db st').
Proof.
  intros E.
  apply getOrCreateUser_cases in E as [_ [(id & _ & _ & ->)|(_ & E)]].
  1: apply same_refs_refl.
  destruct E as [(msg & _ & -> & _)|[(doc & _ & _ & -> & _)|(p & _ & -> & _)]];
    try apply same_refs_refl.
  split; [by intros []|done].
Qed.

(** The policy step of a row whose number is stored inserts nothing. *)
Lemma create_policy_stored_number h r lobId carrierId userId st res st' :
  create_policy h r lobId carrierId userId st = (res, st') →
  (complete h r lobId carrierId = true →
   or_empty (policy_number r) ∈ numbers (db st)) →
  db st' = db st.
Proof.
  intros E Hk. apply create_policy_cases in E as [_ [->|E]]; [done|].
  destruct E as (lob & carrier & sd & ed & Hpn & -> & -> & Hsd & Hed & Hf & _).
  apply first_match_number_None in Hf. destruct Hf. apply Hk.
  unfold complete. by rewrite Hpn, Hsd, Hed.
Qed.

(** A row that the store already knows leaves references and policies as
    they are, whether its body returns or throws. *)
Lemma try_body_same_refs h total r st res st' :
  try_body h total r st = (res, st') → sound h st → known h r (db st) →
  same_refs (db st) (db st').
Proof.
  intros E Hs [Kn Kp].
  assert (∀ g s, same_refs (db st) (db s) →
            ∀ l, mention g r = Some l → l ≠ "" →
                 set_name h g l ∈ names g (db s)) as Hnames.
  { intros g s [H1 _] l Hm Hl. unfold names. rewrite H1. by apply Kn. }
  unfold try_body in E.
  apply bind_inv in E as [(ids & st1 & E1 & E)|(msg & E1 & _)].
  - assert (same_refs (db st) (db st1)
            ∧ given ids.1.1 = truthy (category_name r)
            ∧ given ids.1.2 = truthy (company_name r)) as (R1 & Hlob & Hcar).
    { unfold resolve, getOrCreateAgent, getOrCreateLOB, getOrCreateCarrier,
        getOrCreateUserAccount in E1.
      apply bind_inv in E1 as [(a1 & s1 & F1 & E1)|(msg & _ & ?)]; [|done].
      apply bind_inv in E1 as [(a2 & s2 & F2 & E1)|(msg & _ & ?)]; [|done].
      apply bind_inv in E1 as [(a3 & s3 & F3 & E1)|(msg & _ & ?)]; [|done].
      apply bind_inv in E1 as [(a4 & s4 & F4 & E1)|(msg & _ & ?)]; [|done].
      apply bind_inv in E1 as [(a5 & s5 & F5 & E1)|(msg & _ & ?)]; [|done].
      injection E1 as <- <-. simpl.
      pose proof (sound_getOrCreate _ _ _ _ _ _ F1 Hs) as Hs1.
      pose proof (sound_getOrCreate _ _ _ _ _ _ F2 Hs1) as Hs2.
      destruct (getOrCreate_Ok _ _ _ _ _ _ F2 Hs1) as [T2 _].
      destruct (getOrCreate_Ok _ _ _ _ _ _ F3 Hs2) as [T3 _].
      apply getOrCreate_stored_label in F1;
        [|apply (Hnames Agent), same_refs_refl].
      apply getOrCreate_stored_label in F2;
        [|apply (Hnames LOB); rewrite F1; apply same_refs_refl].
      apply getOrCreate_stored_label in F3;
        [|apply (Hnames Carrier); rewrite F2, F1; apply same_refs_refl].
      apply getOrCreateUser_same_refs in F4. rewrite F3, F2, F1 in F4.
      apply getOrCreate_stored_label in F5; [|by apply (Hnames UserAccount)].
      rewrite F5. done. }
    assert (∀ res2 st2,
              create_policy h r ids.1.1 ids.1.2 ids.2 st1 = (res2, st2) →
              db st2 = db st1) as Hcp.
    { intros res2 st2 E2. apply (create_policy_stored_number _ _ _ _ _ _ _ _ E2).
      unfold complete. rewrite Hlob, Hcar. intros Hc.
      destruct R1 as [_ R1]. unfold numbers. rewrite R1. by apply Kp. }
    apply bind_inv in E as [([] & st2 & E2 & E)|(msg & E2 & _)].
    + apply count_row_db in E as (_ & -> & _). by rewrite (Hcp _ _ E2).
    + by rewrite (Hcp _ _ E2).
  - unfold resolve, getOrCreateAgent, getOrCreateLOB, getOrCreateCarrier,
      getOrCreateUserAccount in E1.
    apply bind_inv in E1 as [(a1 & s1 & F1 & E1)|(m1 & F1 & _)];
      (apply getOrCreate_stored_label in F1;
        [|apply (Hnames Agent), same_refs_refl]);
      [|rewrite F1; apply same_refs_refl].
    apply bind_inv in E1 as [(a2 & s2 & F2 & E1)|(m2 & F2 & _)];
      (apply getOrCreate_stored_label in F2;
        [|apply (Hnames LOB); rewrite F1; apply same_refs_refl]);
      [|rewrite F2, F1; apply same_refs_refl].
    apply bind_inv in E1 as [(a3 & s3 & F3 & E1)|(m3 & F3 & _)];
      (apply getOrCreate_stored_label in F3;
        [|apply (Hnames Carrier); rewrite F2, F1; apply same_refs_refl]);
      [|rewrite F3, F2, F1; apply same_refs_refl].
    apply bind_inv in E1 as [(a4 & s4 & F4 & E1)|(m4 & F4 & _)];
      apply getOrCreateUser_same_refs in F4; rewrite F3, F2, F1 in F4;
      [|done].
    apply bind_inv in E1 as [(a5 & s5 & F5 & E1)|(m5 & F5 & _)];
      (apply getOrCreate_stored_label in F5; [|by apply (Hnames UserAccount)]);
      [done|by rewrite F5].
Qed.

Lemma one_at_a_time_same_refs h total k rows st :
  sound h st → (∀ r, r ∈ rows → known h r (db st)) →
  same_refs (db st) (db (one_at_a_time h total k rows st)).
Proof.
  revert k st. induction rows as [|r rows IH]; intros k st Hs Hk; simpl.
  { apply same_refs_refl. }
  assert (same_refs (db st) (db (handle h total (Z.of_nat k + 1) r st))) as H1.
  { unfold handle. destruct (try_body h total r st) as [[[]|msg] st'] eqn:E;
      apply try_body_same_refs in E; try done; apply Hk, list_elem_of_here. }
  eapply same_refs_trans; [exact H1|].
  apply IH; [by apply sound_handle|].
  intros r' Hr'. apply (same_refs_known h r' (db st)); [done|].
  by apply Hk, list_elem_of_further.
Qed.

(** What a store knows of a row does not depend on which of two hosts
    that compute the same functions asks. *)
Lemma known_same_functions h h' r d :
  same_functions h h' → known h r d → known h' r d.
Proof.
  intros (_ & Hd & _ & Ht) [K1 K2]. split.
  - intros f l Hm Hl. specialize (K1 f l Hm Hl). destruct f; simpl in *;
      by rewrite ?Ht.
  - unfold ready, parse_date in *. rewrite Hd. exact K2.
Qed.

Lemma person_stored_same_functions h h' r us :
  same_functions h h' → person_stored h r us → person_stored h' r us.
Proof.
  intros (_ & _ & Hl & Ht) (doc & Hin & H1 & H2). exists doc.
  unfold set_email in *. rewrite Hl, Ht. done.
Qed.

(** X6. Importing a payload again creates no reference document and no
    policy, whatever the second run meets. After a first run that
    connected and in which no row threw, a run of the same payload on
    the store left behind, on any host that parses, reads dates and sets
    strings in the same way, leaves agents, LOBs, carriers, accounts and
    policies exactly as they are: whether its connection opens or not,
    and whichever of its storage calls are rejected, so that any of its
    rows may return or throw. *)
Theorem second_import_adds_no_reference_or_policy h h' csvData d rows :
  connect h = None →
  parse h csvData = inr rows →
  no_row_throws h rows d →
  same_functions h h' →
  same_refs (store_after h csvData d)
            (store_after h' csvData (store_after h csvData d)).
Proof.
  intros Ec Ep Hno Hsame. rewrite !store_after_spec, Ec, Ep.
  destruct Hsame as [Hp Hsame']. rewrite Hp, Ep.
  destruct (connect h'); [apply same_refs_refl|]. unfold after_rows.
  set (d1 := db (one_at_a_time h (length rows) 0 rows (fresh d))).
  apply (one_at_a_time_same_refs h' (length rows) 0 rows (fresh d1));
    [apply sound_fresh|].
  intros r Hr. apply (known_same_functions h h'); [done|].
  apply (one_at_a_time_known h (length rows) 0 rows (fresh d) Hno (sound_fresh h d) r Hr).
Qed.

Lemma second_import_adds_no_reference_or_policy_witness :
  let h := Demo.host_of Demo.three_rows Demo.no_fault in
  let h' := Demo.host_of Demo.three_rows (Demo.fault_at 2) in
  no_row_throws h Demo.three_rows Demo.empty_store
  ∧ thrown h' 3 0 Demo.three_rows (fresh (store_after h "csv" Demo.empty_store))
    = [mkEntry 1 "connection timed out" "P-1"]
  ∧ same_refs (store_after h "csv" Demo.empty_store)
              (store_after h' "csv" (store_after h "csv" Demo.empty_store)).
Proof.
  intros h h'.
  assert (no_row_throws h Demo.three_rows Demo.empty_store) as Hno
    by (vm_compute; reflexivity).
  assert (same_functions h h') as Hsame by (by split_and!).
  split_and!; [exact Hno|vm_compute; reflexivity|].
  exact (second_import_adds_no_reference_or_policy h h' "csv" Demo.empty_store
           Demo.three_rows eq_refl eq_refl Hno Hsame).
Defined.

(** *** The error list *)

Lemma StronglySorted_take {A} (R : A → A → Prop) n l :
  StronglySorted R l → StronglySorted R (take n l).
Proof.
  intros H. revert n. induction H as [|x l Hs IH Hf]; intros [|n]; simpl;
    constructor; [apply IH|by apply Forall_take].
Qed.

(** The entries of the throwing rows carry the numbers of their rows, in
    increasing order, and the policy numbers of their rows. *)
Lemma thrown_entries h total k rows st :
  StronglySorted Z.lt (e_row <$> thrown h total k rows st)
  ∧ Forall (λ e, ∃ i r, rows !! i = Some r
                        ∧ e_row e = (Z.of_nat k + Z.of_nat i + 1)%Z
                        ∧ e_record e = or_NA (policy_number r))
           (thrown h total k rows st).
Proof.
  revert k st. induction rows as [|r rows IH]; intros k st; simpl.
  { split; constructor. }
  destruct (IH (S k) (handle h total (Z.of_nat k + 1) r st)) as [IH1 IH2].
  assert (Forall (λ e, ∃ i r0, (r :: rows) !! i = Some r0
                        ∧ e_row e = (Z.of_nat k + Z.of_nat i + 1)%Z
                        ∧ e_record e = or_NA (policy_number r0))
                 (thrown h total (S k) rows (handle h total (Z.of_nat k + 1) r st)))
    as Htail.
  { eapply Forall_impl; [exact IH2|]. intros e (i & r0 & Hi & Hrow & Hrec).
    exists (S i), r0. split_and!; [done|lia|done]. }
  destruct (try_body h total r st).1 as [[]|msg]; simpl; [done|].
  split.
  - constructor; [done|]. apply Forall_fmap. eapply Forall_impl; [exact IH2|].
    intros e (i & r0 & _ & Hrow & _). simpl. lia.
  - constructor; [|done]. exists 0, r. split_and!; [done|simpl; lia|done].
Qed.

(** X7. The error list of a [done] message is in row order and points at
    the rows that threw: its row numbers increase strictly, and each
    entry carries the 1-based number of a row of the payload, together
    with that row's policy number, or N/A when the row has none. *)
Theorem errors_list_points_at_rows h csvData d rows ms s p e t l :
  parse h csvData = inr rows →
  posted h csvData d = Some ms →
  Done s p e t l ∈ ms →
  StronglySorted Z.lt (e_row <$> l)
  ∧ Forall (λ x, ∃ i r, rows !! i = Some r
                        ∧ e_row x = (Z.of_nat i + 1)%Z
                        ∧ e_record x
                          = (if truthy (policy_number r)
                             then or_empty (policy_number r) else "N/A"))
           l.
Proof.
  intros Ep. rewrite posted_spec, Ep. intros [= <-] Hin.
  destruct (connect h) as [msg|].
  { apply list_elem_of_singleton in Hin. done. }
  simpl in Hin. rewrite after_rows_out in Hin.
  apply elem_of_app in Hin as [Hin|Hin].
  { by apply Done_not_progress in Hin. }
  apply list_elem_of_singleton in Hin.
  destruct (close h) as [msg|]; [done|].
  injection Hin as -> -> -> -> ->.
  destruct (after_rows_errors h rows d) as [-> _]. rewrite first10_take.
  destruct (thrown_entries h (length rows) 0 rows (fresh d)) as [H1 H2].
  split.
  - rewrite fmap_take. by apply StronglySorted_take.
  - apply Forall_take. eapply Forall_impl; [exact H2|].
    intros x (i & r & Hi & Hrow & Hrec). exists i, r. split_and!; [done|lia|done].
Qed.

Lemma errors_list_points_at_rows_witness :
  let h := Demo.host_of Demo.three_rows (Demo.fault_at 13) in
  let l := [mkEntry 2 "connection timed out" "P-2"] in
  parse h "csv" = inr Demo.three_rows
  ∧ posted h "csv" Demo.empty_store = Some [Done true 2 1 3 l]
  ∧ Done true 2 1 3 l ∈ [Done true 2 1 3 l]
  ∧ StronglySorted Z.lt (e_row <$> l).
Proof.
  intros h l.
  assert (posted h "csv" Demo.empty_store = Some [Done true 2 1 3 l]) as Hp
    by (vm_compute; reflexivity).
  assert (Done true 2 1 3 l ∈ [Done true 2 1 3 l]) as Hin
    by apply list_elem_of_here.
  split_and!; [reflexivity|exact Hp|exact Hin|].
  exact (proj1 (errors_list_points_at_rows h "csv" Demo.empty_store
                  Demo.three_rows _ _ _ _ _ _ eq_refl Hp Hin)).
Defined.

(** *** The upload route and its worker *)

Lemma flat_map_on_message_progress (f : nat → nat) total ks :
  forallb (λ a, negb (is_Unlink a))
          (flat_map on_message (map (λ k, Progress (f k) total) ks)) = true.
Proof. induction ks as [|k ks IH]; [done|]. simpl. done. Qed.

(** X8. Over the life of a worker, the message handler of the upload
    route removes the uploaded file exactly once, as its last action,
    when the file has any text; for an empty file the worker starts no
    run and posts nothing, and the handler never removes the file. *)
Theorem upload_removes_file_once h csvData d :
  if String.eqb csvData "" then upload_actions h csvData d = []
  else ∃ logs,
         upload_actions h csvData d = logs ++ [Unlink]
         ∧ forallb (λ a, negb (is_Unlink a)) logs = true.
Proof.
  unfold upload_actions. rewrite start_spec. simpl.
  destruct (String.eqb_spec csvData ""); simpl; [done|].
  rewrite processCSV_spec.
  destruct (connect h) as [msg|].
  { simpl. by exists [LogError msg]. }
  destruct (parse h csvData) as [msg|rows].
  { simpl. by exists [LogError msg]. }
  simpl.
  assert (∀ m, out (post m (after_rows h rows d)) = out (after_rows h rows d) ++ [m])
    as Hout by done.
  destruct (close h) as [msg|]; rewrite Hout, flat_map_app, after_rows_out; simpl.
  - eexists (_ ++ [LogError msg]). rewrite <- app_assoc. split; [done|].
    rewrite forallb_app, flat_map_on_message_progress. done.
  - eexists (_ ++ [LogDone _ _]). rewrite <- app_assoc. split; [done|].
    rewrite forallb_app, flat_map_on_message_progress. done.
Qed.

(** *** A second run of the same payload *)

Lemma person_stored_prefix h r us us' :
  us `prefix_of` us' → person_stored h r us → person_stored h r us'.
Proof.
  intros [k ->] (doc & Hin & H). exists doc. split; [|done].
  apply elem_of_app. by left.
Qed.

(** A resolution of a person that had to ask the store leaves the person
    stored. *)
Lemma getOrCreateUser_stores h r st id st' :
  getOrCreateUser h (person_of r) st = (Ok id, st') →
  userCache st !! userKey (person_of r) = None →
  named r = true →
  person_stored h r (users (db st')).
Proof.
  intros E Hc Hn. revert E.
  unfold getOrCreateUser, User_findOne, User_create, call, roundtrip, check,
    mbind, M_bind, bind, gets, modify, mret, M_ret, ret. rewrite Hc.
  unfold named in Hn. simpl. rewrite Hn. simpl.
  destruct (fault h _); [done|].
  change (db (log _ st)) with (db st).
  destruct (first_match
              (λ x, String.eqb (u_firstname x.2) (trim h (or_empty (firstname r)))
                    && String.eqb (u_email x.2)
                                  (set_email h (or_empty (email r))))
              (users (db st))) as [doc|] eqn:Hf.
  { intros [= <- <-]. apply first_match_Some in Hf as [Hin Hp].
    apply andb_prop in Hp as [H1 H2].
    apply String.eqb_eq in H1. apply String.eqb_eq in H2. by exists doc. }
  destruct (validate_User _); [done|]. simpl.
  destruct (fault h _); [done|].
  intros [= <- <-]. simpl. eexists. split.
  - apply elem_of_app. right. apply list_elem_of_here.
  - done.
Qed.

(** A resolution of a person who is stored inserts nothing. *)
Lemma getOrCreateUser_finds h r st res st' :
  getOrCreateUser h (person_of r) st = (res, st') →
  named r = true →
  person_stored h r (users (db st)) →
  db st' = db st.
Proof.
  intros E Hn (doc & Hin & H1 & H2). revert E.
  unfold getOrCreateUser, User_findOne, User_create, call, roundtrip, check,
    mbind, M_bind, bind, gets, modify, mret, M_ret, ret.
  destruct (userCache st !! userKey (person_of r)); [by intros [= <- <-]|].
  unfold named in Hn. simpl. rewrite Hn. simpl.
  destruct (fault h _); [by intros [= <- <-]|].
  change (db (log _ st)) with (db st).
  destruct (first_match
              (λ x, String.eqb (u_firstname x.2) (trim h (or_empty (firstname r)))
                    && String.eqb (u_email x.2)
                                  (set_email h (or_empty (email r))))
              (users (db st))) as [doc'|] eqn:Hf.
  { by intros [= <- <-]. }
  apply (first_match_None _ _ Hf) in Hin. simpl in Hin.
  by rewrite H1, H2, !String.eqb_refl in Hin.
Qed.

(** An invariant of the persons and their cache that the resolution of the
    row's person keeps is kept by the whole body of the row. *)
Lemma try_body_persons h total r (I : list user_doc * gmap string oid → Prop)
    st res st' :
  (∀ s res1 s1, getOrCreateUser h (person_of r) s = (res1, s1) →
                I (persons s) → I (persons s1)) →
  try_body h total r st = (res, st') → I (persons st) → I (persons st').
Proof.
  intros HU E HI.
  assert (∀ res1 st1, resolve h r st = (res1, st1) → I (persons st1)) as Hres.
  { intros res1 st1 E1. unfold resolve, getOrCreateAgent, getOrCreateLOB,
      getOrCreateCarrier, getOrCreateUserAccount in E1.
    apply bind_inv in E1 as [(a1 & s1 & E1 & E')|(msg & E1 & _)];
      apply (keeps_run persons) in E1; try apply getOrCreate_persons;
      [|by rewrite E1].
    apply bind_inv in E' as [(a2 & s2 & E2 & E')|(msg & E2 & _)];
      apply (keeps_run persons) in E2; try apply getOrCreate_persons;
      [|by rewrite E2, E1].
    apply bind_inv in E' as [(a3 & s3 & E3 & E')|(msg & E3 & _)];
      apply (keeps_run persons) in E3; try apply getOrCreate_persons;
      [|by rewrite E3, E2, E1].
    assert (I (persons s3)) as H3 by (by rewrite E3, E2, E1).
    apply bind_inv in E' as [(a4 & s4 & E4 & E')|(msg & E4 & _)];
      apply HU in E4; try done.
    apply bind_inv in E' as [(a5 & s5 & E5 & E')|(msg & E5 & _)];
      apply (keeps_run persons) in E5; try apply getOrCreate_persons;
      [|by rewrite E5].
    injection E' as _ <-. by rewrite E5. }
  unfold try_body in E.
  apply bind_inv in E as [(ids & st1 & E1 & E)|(msg & E1 & _)];
    [|by eapply Hres].
  apply Hres in E1.
  apply bind_inv in E as [([] & st2 & E2 & E)|(msg & E2 & _)];
    apply (keeps_run persons) in E2; try apply create_policy_persons;
    [|by rewrite E2].
  apply (keeps_run persons) in E; [|apply count_row_persons].
  by rewrite E, E2.
Qed.

(** A body that returns leaves the key of its row in the cache. *)
Lemma try_body_caches_key h total r st st' :
  try_body h total r st = (Ok tt, st') →
  is_Some (userCache st' !! userKey (person_of r)).
Proof.
  intros E. apply try_body_Ok in E as (ids & st1 & st2 & E1 & E2 & E3).
  apply (keeps_run persons) in E2; [|apply create_policy_persons].
  apply (keeps_run persons) in E3; [|apply count_row_persons].
  apply persons_inv in E2 as [_ E2]. apply persons_inv in E3 as [_ E3].
  rewrite E3, E2. clear E2 E3.
  unfold resolve, getOrCreateAgent, getOrCreateLOB, getOrCreateCarrier,
    getOrCreateUserAccount in E1.
  apply bind_inv in E1 as [(a1 & s1 & F1 & E1)|(msg & _ & ?)]; [|done].
  apply bind_inv in E1 as [(a2 & s2 & F2 & E1)|(msg & _ & ?)]; [|done].
  apply bind_inv in E1 as [(a3 & s3 & F3 & E1)|(msg & _ & ?)]; [|done].
  apply bind_inv in E1 as [(a4 & s4 & F4 & E1)|(msg & _ & ?)]; [|done].
  apply bind_inv in E1 as [(a5 & s5 & F5 & E1)|(msg & _ & ?)]; [|done].
  injection E1 as _ <-.
  apply (keeps_run persons) in F5; [|apply getOrCreate_persons].
  apply persons_inv in F5 as [_ ->]. unfold person_of.
  apply getOrCreateUser_cases in F4 as [_ [(id & Hc & _ & ->)|(_ & E)]].
  { by rewrite Hc. }
  destruct E as [(msg & ? & _)|[(doc & _ & _ & _ & ->)|(p & _ & _ & ->)]];
    [done| |]; by rewrite lookup_insert_eq.
Qed.

(** The resolution of a person keeps the persons of the cached keys
    stored, when equal keys name the same person. *)
Lemma getOrCreateUser_cached_persons h rows r st res st' :
  keys_tell_persons rows → r ∈ rows → named r = true →
  getOrCreateUser h (person_of r) st = (res, st') →
  cached_persons h rows (persons st) → cached_persons h rows (persons st').
Proof.
  intros HK Hr Hn E HI.
  assert (users (db st) `prefix_of` users (db st')) as Hpre.
  { apply getOrCreateUser_grows in E. by apply rtc_insertion_prefix in E as (_ & ? & _). }
  destruct res as [id|msg].
  2: { apply getOrCreateUser_cases in E as [_ [(id & _ & ? & _)|(_ & E)]]; [done|].
       destruct E as [(msg' & _ & Hdb & Hu)|[(doc & _ & ? & _)|(p & ? & _)]];
         [|done|done].
       intros r' Hr' Hs. unfold persons in *. simpl in *.
       rewrite Hdb. rewrite Hu in Hs. by apply HI. }
  destruct (userCache st !! userKey (person_of r)) as [id'|] eqn:Hc.
  { apply getOrCreateUser_cases in E as [_ [(? & _ & _ & ->)|(Hc' & _)]]; [done|].
    by rewrite Hc in Hc'. }
  pose proof (getOrCreateUser_stores _ _ _ _ _ E Hc Hn) as Hst.
  intros r' Hr' Hs. unfold persons in *. simpl in *.
  destruct (decide (userKey (person_of r') = userKey (person_of r))) as [Heq|Hne].
  - destruct (HK r' r Hr' Hr Heq) as [F1 F2].
    destruct Hst as (doc & Hin & H1 & H2). exists doc.
    by rewrite F1, F2.
  - apply (person_stored_prefix h r' (users (db st))); [done|].
    apply HI; [done|]. simpl.
    apply getOrCreateUser_cases in E as [_ [(? & _ & _ & ->)|(_ & E)]]; [done|].
    destruct E as [(msg' & ? & _)|[(doc & _ & _ & _ & Hu)|(p & _ & _ & Hu)]];
      [done| |]; rewrite Hu in Hs; by rewrite lookup_insert_ne in Hs.
Qed.

Lemma handle_persons h total n r (I : list user_doc * gmap string oid → Prop) st :
  (∀ s res1 s1, getOrCreateUser h (person_of r) s = (res1, s1) →
                I (persons s) → I (persons s1)) →
  I (persons st) → I (persons (handle h total n r st)).
Proof.
  intros HU HI. unfold handle.
  destruct (try_body h total r st) as [[[]|msg] st'] eqn:E;
    apply (try_body_persons h total r I) in E; done.
Qed.

(** After a run without a throwing row, the person of every row is
    stored. *)
Lemma one_at_a_time_persons_stored h total k rows0 rows st :
  keys_tell_persons rows0 → (∀ r, r ∈ rows0 → named r = true) →
  (∀ r, r ∈ rows → r ∈ rows0) →
  thrown h total k rows st = [] →
  cached_persons h rows0 (persons st) →
  ∀ r, r ∈ rows →
       person_stored h r (users (db (one_at_a_time h total k rows st))).
Proof.
  intros HK Hn. revert k st.
  induction rows as [|r rows IH]; intros k st Hsub Hno HI r' Hr'.
  { by apply elem_of_nil in Hr'. }
  simpl in *.
  assert (cached_persons h rows0 (persons (handle h total (Z.of_nat k + 1) r st)))
    as HI1.
  { apply handle_persons; [|done]. intros s res1 s1 E.
    apply (getOrCreateUser_cached_persons h rows0 r s res1 s1); try done.
    - apply Hsub, list_elem_of_here.
    - apply Hn, Hsub, list_elem_of_here. }
  apply elem_of_cons in Hr' as [->|Hr'].
  - eapply person_stored_prefix.
    + pose proof (one_at_a_time_grows h total (S k) rows
                    (handle h total (Z.of_nat k + 1) r st)) as G.
      apply rtc_insertion_prefix in G as (_ & G & _). exact G.
    + apply (HI1 r); [apply Hsub, list_elem_of_here|]. simpl.
      unfold handle in *.
      destruct (try_body h total r st) as [[[]|msg] st1] eqn:E; simpl in Hno;
        [|done].
      by apply try_body_caches_key in E.
  - apply IH; try done.
    + intros r0 Hr0. by apply Hsub, list_elem_of_further.
    + unfold handle in *.
      by destruct (try_body h total r st) as [[[]|msg] st1] eqn:E.
Qed.

(** The body of a row whose labels, policy number and person are stored
    inserts nothing, whether it returns or throws. *)
Lemma try_body_steady h total r st res st' :
  try_body h total r st = (res, st') → sound h st →
  known h r (db st) → named r = true → person_stored h r (users (db st)) →
  db st' = db st.
Proof.
  intros E Hs [Kn Kp] Hn Hp.
  unfold try_body in E.
  apply bind_inv in E as [(ids & st1 & E1 & E)|(msg & E1 & _)].
  - assert (db st1 = db st
            ∧ given ids.1.1 = truthy (category_name r)
            ∧ given ids.1.2 = truthy (company_name r)) as (R1 & Hlob & Hcar).
    { unfold resolve, getOrCreateAgent, getOrCreateLOB, getOrCreateCarrier,
        getOrCreateUserAccount in E1.
      apply bind_inv in E1 as [(a1 & s1 & F1 & E1)|(msg & _ & ?)]; [|done].
      apply bind_inv in E1 as [(a2 & s2 & F2 & E1)|(msg & _ & ?)]; [|done].
      apply bind_inv in E1 as [(a3 & s3 & F3 & E1)|(msg & _ & ?)]; [|done].
      apply bind_inv in E1 as [(a4 & s4 & F4 & E1)|(msg & _ & ?)]; [|done].
      apply bind_inv in E1 as [(a5 & s5 & F5 & E1)|(msg & _ & ?)]; [|done].
      injection E1 as <- <-. simpl.
      pose proof (sound_getOrCreate _ _ _ _ _ _ F1 Hs) as Hs1.
      pose proof (sound_getOrCreate _ _ _ _ _ _ F2 Hs1) as Hs2.
      destruct (getOrCreate_Ok _ _ _ _ _ _ F2 Hs1) as [T2 _].
      destruct (getOrCreate_Ok _ _ _ _ _ _ F3 Hs2) as [T3 _].
      apply getOrCreate_stored_label in F1; [|apply (Kn Agent)].
      apply getOrCreate_stored_label in F2; [|rewrite F1; apply (Kn LOB)].
      apply getOrCreate_stored_label in F3; [|rewrite F2, F1; apply (Kn Carrier)].
      apply getOrCreateUser_finds in F4; [|done|by rewrite F3, F2, F1].
      apply getOrCreate_stored_label in F5;
        [|rewrite F4, F3, F2, F1; apply (Kn UserAccount)].
      by rewrite F5, F4, F3, F2, F1. }
    assert (∀ res2 st2,
              create_policy h r ids.1.1 ids.1.2 ids.2 st1 = (res2, st2) →
              db st2 = db st1) as Hcp.
    { intros res2 st2 E2. apply (create_policy_stored_number _ _ _ _ _ _ _ _ E2).
      unfold complete. rewrite Hlob, Hcar, R1. intros Hc. by apply Kp. }
    apply bind_inv in E as [([] & st2 & E2 & E)|(msg & E2 & _)].
    + apply count_row_db in E as (_ & -> & _). by rewrite (Hcp _ _ E2).
    + by rewrite (Hcp _ _ E2).
  - unfold resolve, getOrCreateAgent, getOrCreateLOB, getOrCreateCarrier,
      getOrCreateUserAccount in E1.
    apply bind_inv in E1 as [(a1 & s1 & F1 & E1)|(m1 & F1 & _)];
      (apply getOrCreate_stored_label in F1; [|apply (Kn Agent)]); [|done].
    apply bind_inv in E1 as [(a2 & s2 & F2 & E1)|(m2 & F2 & _)];
      (apply getOrCreate_stored_label in F2; [|rewrite F1; apply (Kn LOB)]);
      [|by rewrite F2].
    apply bind_inv in E1 as [(a3 & s3 & F3 & E1)|(m3 & F3 & _)];
      (apply getOrCreate_stored_label in F3;
        [|rewrite F2, F1; apply (Kn Carrier)]);
      [|by rewrite F3, F2].
    apply bind_inv in E1 as [(a4 & s4 & F4 & E1)|(m4 & F4 & _)];
      (apply getOrCreateUser_finds in F4; [|done|by rewrite F3, F2, F1]);
      [|by rewrite F4, F3, F2].
    apply bind_inv in E1 as [(a5 & s5 & F5 & E1)|(m5 & F5 & _)];
      (apply getOrCreate_stored_label in F5;
        [|rewrite F4, F3, F2, F1; apply (Kn UserAccount)]);
      [done|by rewrite F5, F4, F3, F2].
Qed.

Lemma one_at_a_time_steady h total k rows st :
  sound h st →
  (∀ r, r ∈ rows → known h r (db st) ∧ named r = true
                   ∧ person_stored h r (users (db st))) →
  db (one_at_a_time h total k rows st) = db st.
Proof.
  revert k st. induction rows as [|r rows IH]; intros k st Hs Hk; simpl; [done|].
  assert (db (handle h total (Z.of_nat k + 1) r st) = db st) as H1.
  { destruct (Hk r) as (K1 & K2 & K3); [apply list_elem_of_here|].
    unfold handle. destruct (try_body h total r st) as [[[]|msg] st'] eqn:E;
      by apply try_body_steady in E. }
  rewrite IH; [done|by apply sound_handle|].
  intros r' Hr'. rewrite H1. by apply Hk, list_elem_of_further.
Qed.

(** X9. Importing the same payload a second time changes nothing,
    whatever the second run meets. When the first run connected and none
    of its rows threw, every row has a first name and an e-mail, and rows
    with the same cache key name the same person, a run of the same
    payload on the store left behind, on any host that parses, reads
    dates and sets strings in the same way, finds every label, every
    person and every policy number and leaves the store exactly as the
    first run left it: whether its connection opens or not, and
    whichever of its storage calls are rejected. *)
Theorem second_import_changes_nothing h h' csvData d rows :
  connect h = None →
  parse h csvData = inr rows →
  no_row_throws h rows d →
  same_functions h h' →
  (∀ r, r ∈ rows → named r = true) →
  keys_tell_persons rows →
  store_after h' csvData (store_after h csvData d) = store_after h csvData d.
Proof.
  intros Ec Ep Hno Hsame Hn HK. rewrite !store_after_spec, Ec, Ep.
  pose proof Hsame as [Hp _]. rewrite Hp, Ep.
  destruct (connect h'); [done|]. unfold after_rows.
  set (d1 := db (one_at_a_time h (length rows) 0 rows (fresh d))).
  apply (one_at_a_time_steady h' (length rows) 0 rows (fresh d1));
    [apply sound_fresh|].
  intros r Hr. split_and!.
  - apply (known_same_functions h h'); [done|].
    apply (one_at_a_time_known h (length rows) 0 rows (fresh d) Hno (sound_fresh h d) r Hr).
  - by apply Hn.
  - apply (person_stored_same_functions h h'); [done|].
    apply (one_at_a_time_persons_stored h (length rows) 0 rows rows (fresh d));
      try done.
    intros r' _ [x Hx]. simpl in Hx. by rewrite lookup_empty in Hx.
Qed.

Lemma second_import_changes_nothing_witness :
  let h := Demo.host_of Demo.three_rows Demo.no_fault in
  let h' := Demo.host_of Demo.three_rows (Demo.fault_at 4) in
  no_row_throws h Demo.three_rows Demo.empty_store
  ∧ thrown h' 3 0 Demo.three_rows (fresh (store_after h "csv" Demo.empty_store))
    = [mkEntry 1 "connection timed out" "P-1"]
  ∧ store_after h' "csv" (store_after h "csv" Demo.empty_store)
    = store_after h "csv" Demo.empty_store.
Proof.
  assert (∀ r, r ∈ Demo.three_rows → named r = true) as Hn.
  { intros r Hr. repeat (apply elem_of_cons in Hr as [->|Hr]; [reflexivity|]).
    by apply elem_of_nil in Hr. }
  assert (keys_tell_persons Demo.three_rows) as HK.
  { intros r r' Hr Hr'.
    repeat (apply elem_of_cons in Hr as [->|Hr]); try (by apply elem_of_nil in Hr).
    all: repeat (apply elem_of_cons in Hr' as [->|Hr']);
      try (by apply elem_of_nil in Hr').
    all: intros Hk; try (split; reflexivity).
    all: vm_compute in Hk; discriminate Hk. }
  intros h h'.
  assert (no_row_throws h Demo.three_rows Demo.empty_store) as Hno
    by (vm_compute; reflexivity).
  assert (same_functions h h') as Hsame by (by split_and!).
  split; [exact Hno|].
  split; [vm_compute; reflexivity|].
  exact (second_import_changes_nothing h h' "csv" Demo.empty_store
           Demo.three_rows eq_refl eq_refl Hno Hsame Hn HK).
Defined.

(** ** The routes *)

Section DateFacts.

Local Open Scope Z_scope.

Lemma dayMap_range day n : dayMap day = Some n → 0 ≤ n < 7.
Proof.
  unfold dayMap.
  repeat (destruct (String.eqb day _); [intros [= <-]; lia|]). done.
Qed.

Lemma class_digit (hi c : ascii) :
  (N_of_ascii hi ≤ 57)%N → class "0" hi c = true →
  ∃ v, digit c = Some v ∧ 0 ≤ v ≤ Z.of_N (N_of_ascii hi) - 48
       ∧ Ascii.eqb c ":" = false.
Proof.
  unfold class, digit. intros Hhi H. apply andb_prop in H as [H1 H2].
  apply N.leb_le in H1. apply N.leb_le in H2.
  change (N_of_ascii "0") with 48%N in H1.
  assert (48 ≤ Z.of_N (N_of_ascii c) ≤ 57) as Hc by lia.
  exists (Z.of_N (N_of_ascii c) - 48). split_and!.
  - destruct (Z.leb_spec 48 (Z.of_N (N_of_ascii c))); [|lia].
    destruct (Z.leb_spec (Z.of_N (N_of_ascii c)) 57); [done|lia].
  - lia.
  - lia.
  - destruct (Ascii.eqb_spec c ":") as [->|]; [|done].
    change (N_of_ascii ":") with 58%N in H2. lia.
Qed.

(** A time that [timeRegex] accepts splits into an hour below 24 and a
    minute below 60. *)
Lemma timeRegex_hours_minutes time :
  timeRegex time = true →
  ∃ hours minutes, hours_minutes time = Some (hours, minutes)
                   ∧ 0 ≤ hours < 24 ∧ 0 ≤ minutes < 60.
Proof.
  destruct time as [|a [|b [|c [|d [|e [|]]]]]]; try done. simpl.
  intros H. apply andb_prop in H as [H He]. apply andb_prop in H as [H Hd].
  apply andb_prop in H as [Hab Hc].
  apply Ascii.eqb_eq in Hc as ->.
  apply (class_digit "5") in Hd as (vd & Dd & Rd & Nd); [|done].
  apply (class_digit "9") in He as (ve & De & Re & Ne); [|done].
  change (Z.of_N (N_of_ascii "5") - 48) with 5 in Rd.
  change (Z.of_N (N_of_ascii "9") - 48) with 9 in Re.
  assert (∃ va vb, digit a = Some va ∧ digit b = Some vb
                   ∧ Ascii.eqb a ":" = false ∧ Ascii.eqb b ":" = false
                   ∧ 0 ≤ 10 * va + vb < 24) as (va & vb & Da & Db & Na & Nb & Rab).
  { apply orb_prop in Hab as [H|H]; apply andb_prop in H as [Ha Hb].
    - apply (class_digit "1") in Ha as (va & Da & Ra & Na); [|done].
      apply (class_digit "9") in Hb as (vb & Db & Rb & Nb); [|done].
      change (Z.of_N (N_of_ascii "1") - 48) with 1 in Ra.
      change (Z.of_N (N_of_ascii "9") - 48) with 9 in Rb.
      exists va, vb. split_and!; try done; lia.
    - apply Ascii.eqb_eq in Ha as ->.
      apply (class_digit "3") in Hb as (vb & Db & Rb & Nb); [|done].
      change (Z.of_N (N_of_ascii "3") - 48) with 3 in Rb.
      exists 2, vb. split_and!; try done; lia. }
  unfold hours_minutes. cbn [split]. rewrite Na, Nb, Nd, Ne.
  rewrite Ascii.eqb_refl. cbn [split].
  unfold Number. cbn [digits]. rewrite Da, Db, Dd, De. cbn [digits].
  exists (10 * (10 * 0 + va) + vb), (10 * (10 * 0 + vd) + ve).
  split_and!; try done; lia.
Qed.

End DateFacts.

Section NextDate.

Local Open Scope Z_scope.

Lemma next_date_spec targetDay hours minutes now :
  is_date now → 0 ≤ targetDay < 7 → 0 ≤ hours < 24 → 0 ≤ minutes < 60 →
  getDay (next_date targetDay hours minutes now) = targetDay
  ∧ d_hours (next_date targetDay hours minutes now) = hours
  ∧ d_minutes (next_date targetDay hours minutes now) = minutes
  ∧ d_seconds (next_date targetDay hours minutes now) = 0
  ∧ d_ms (next_date targetDay hours minutes now) = 0
  ∧ getTime now < getTime (next_date targetDay hours minutes now)
    ≤ getTime now + 7 * 86400000.
Proof.
  intros (Hh & Hm & Hs & Hms) Ht Hhours Hminutes.
  unfold next_date, setDate_getDate_plus, setHours, getDay, getTime. simpl.
  pose proof (Z.mod_pos_bound (d_day now + 4) 7 ltac:(lia)) as Hb.
  set (c := (d_day now + 4) mod 7) in *.
  assert (∀ k, (c + k) mod 7 = (d_day now + k + 4) mod 7) as Hmod.
  { intros k. unfold c. rewrite Zplus_mod_idemp_l. f_equal. lia. }
  destruct (Z.eqb_spec (targetDay - c) 0) as [E0|E0]; simpl.
  - destruct (Z.ltb_spec hours (d_hours now)) as [L1|L1]; simpl.
    { split_and!; try done; try nia.
      rewrite <- Hmod. rewrite <- Zplus_mod_idemp_r. change (7 mod 7) with 0.
      rewrite Z.add_0_r. rewrite Z.mod_small by lia. lia. }
    destruct (Z.eqb_spec (d_hours now) hours) as [E1|E1]; simpl.
    + destruct (Z.leb_spec minutes (d_minutes now)) as [L2|L2]; simpl.
      { split_and!; try done; try nia.
        rewrite <- Hmod. rewrite <- Zplus_mod_idemp_r. change (7 mod 7) with 0.
        rewrite Z.add_0_r. rewrite Z.mod_small by lia. lia. }
      destruct (Z.ltb_spec (targetDay - c) 0); [lia|].
      rewrite E0. split_and!; try done; try nia.
      rewrite <- Hmod, Z.add_0_r. rewrite Z.mod_small by lia. lia.
    + destruct (Z.ltb_spec (targetDay - c) 0); [lia|].
      rewrite E0. split_and!; try done; try nia.
      rewrite <- Hmod, Z.add_0_r. rewrite Z.mod_small by lia. lia.
  - destruct (Z.ltb_spec (targetDay - c) 0) as [L|L].
    + split_and!; try done; try nia.
      rewrite <- Hmod. replace (c + (targetDay - c + 7)) with (targetDay + 1 * 7) by lia.
      rewrite Z.mod_add by lia. apply Z.mod_small. lia.
    + split_and!; try done; try nia.
      rewrite <- Hmod. replace (c + (targetDay - c)) with targetDay by lia.
      apply Z.mod_small. lia.
Qed.

(** Two moments on the same day of the week, at the same time of day,
    are a whole number of weeks apart. *)
Lemma same_weekday_apart t t' :
  getDay t = getDay t' → d_day t' < d_day t → d_day t' + 7 ≤ d_day t.
Proof.
  unfold getDay. intros H L.
  pose proof (Z.div_mod (d_day t + 4) 7 ltac:(lia)).
  pose proof (Z.div_mod (d_day t' + 4) 7 ltac:(lia)).
  nia.
Qed.

End NextDate.

Section ScheduleFacts.

Local Open Scope Z_scope.

Variable toLowerCase : string → string.

(** X10. For a day of the week in any case and a time that the route's
    [timeRegex] accepts, [getNextScheduledDate] returns the next moment
    at which the local clock shows that day and time: it falls on the day
    asked for, at hh:mm:00.000, strictly after now and at most a week
    ahead, and no moment of that day and time lies between now and it. *)
Theorem next_scheduled_date_is_next_occurrence day time now targetDay :
  is_date now →
  dayMap (toLowerCase day) = Some targetDay →
  timeRegex time = true →
  ∃ t hours minutes,
    getNextScheduledDate toLowerCase day time now = Some t
    ∧ hours_minutes time = Some (hours, minutes)
    ∧ getDay t = targetDay
    ∧ (d_hours t, d_minutes t, d_seconds t, d_ms t) = (hours, minutes, 0, 0)
    ∧ getTime now < getTime t ≤ getTime now + 7 * 86400000
    ∧ ∀ t', getDay t' = targetDay →
            (d_hours t', d_minutes t', d_seconds t', d_ms t') = (hours, minutes, 0, 0) →
            getTime now < getTime t' → getTime t ≤ getTime t'.
Proof.
  intros Hnow Hday Htime.
  destruct (timeRegex_hours_minutes time Htime) as (hours & minutes & Hhm & Rh & Rm).
  pose proof (dayMap_range _ _ Hday) as Rd.
  destruct (next_date_spec targetDay hours minutes now Hnow Rd Rh Rm)
    as (H1 & H2 & H3 & H4 & H5 & H6).
  exists (next_date targetDay hours minutes now), hours, minutes.
  unfold getNextScheduledDate. rewrite Hday, Hhm.
  split; [done|]. split; [done|]. split; [exact H1|].
  split; [by rewrite H2, H3, H4, H5|]. split; [lia|].
  intros t' D' [= F1 F2 F3 F4] L.
  destruct (Z.lt_ge_cases (d_day t') (d_day (next_date targetDay hours minutes now)))
    as [Lt|Ge].
  - apply same_weekday_apart in Lt; [|by rewrite H1].
    unfold getTime in *. rewrite F1, F2, F3, F4 in *.
    rewrite H2, H3, H4, H5 in *. lia.
  - unfold getTime. rewrite F1, F2, F3, F4, H2, H3, H4, H5. lia.
Qed.

End ScheduleFacts.

Lemma includes_elem_of l s : includes l s = true ↔ s ∈ l.
Proof.
  unfold includes. rewrite existsb_exists. split.
  - intros (x & Hin & E). apply String.eqb_eq in E as ->.
    by apply list_elem_of_In.
  - intros Hin. exists s. split; [by apply list_elem_of_In|apply String.eqb_refl].
Qed.

Lemma includes_dayMap s : includes validDays s = true ↔ is_Some (dayMap s).
Proof.
  unfold includes, validDays, dayMap. simpl.
  rewrite !(String.eqb_sym s).
  destruct (String.eqb "sunday" s), (String.eqb "monday" s),
    (String.eqb "tuesday" s), (String.eqb "wednesday" s),
    (String.eqb "thursday" s), (String.eqb "friday" s),
    (String.eqb "saturday" s); simpl;
    split; (done || by intros [? [=]] || by eexists).
Qed.

Section RouteFacts.

Variable toLowerCase : string → string.
Variable trim : string → string.

(** The days of the enum are in lower case already. *)
Hypothesis lower_days : ∀ s, s ∈ validDays → toLowerCase s = s.

(** What [router.post] does with a body that passes its three checks. *)
Lemma router_post_checked message day time now rejected a :
  truthy message && truthy day && truthy time = true →
  includes validDays (toLowerCase (or_empty day)) = true →
  timeRegex (or_empty time) = true →
  ∃ targetDay hours minutes,
    dayMap (toLowerCase (or_empty day)) = Some targetDay
    ∧ hours_minutes (or_empty time) = Some (hours, minutes)
    ∧ router_post toLowerCase trim message day time now rejected a
      = if String.eqb (trim (trim (or_empty message))) ""
        then (ErrorCreating (ValidationError [PMessage]), a)
        else match rejected with
             | Some msg => (ErrorCreating (Rejected msg), a)
             | None =>
                 let doc :=
                   mkScheduledMessage (next_id a) (trim (trim (or_empty message)))
                     (toLowerCase (or_empty day)) (or_empty time)
                     (next_date targetDay hours minutes now) Pending in
                 (Created doc,
                  tell (ScheduleMessage doc)
                    (mkRouter (scheduledMessages a ++ [doc]) (S (next_id a))
                           (scheduler_set a) (calls a)))
             end.
Proof.
  intros Ht Hd Htime.
  pose proof Hd as Hin. apply includes_elem_of, lower_days in Hin.
  pose proof Hd as [targetDay Hday]%includes_dayMap.
  destruct (timeRegex_hours_minutes _ Htime) as (hours & minutes & Hhm & _).
  exists targetDay, hours, minutes. split; [done|]. split; [done|].
  unfold router_post.
  apply andb_prop in Ht as [Ht Ht3]. apply andb_prop in Ht as [Ht1 Ht2].
  rewrite Ht1, Ht2, Ht3, Hd, Htime. simpl.
  unfold ScheduledMessage_create, invalid_paths, getNextScheduledDate.
  rewrite Hin, Hd, Htime, Hday, Hhm. simpl.
  destruct (String.eqb (trim (trim (or_empty message))) ""); [done|]. simpl.
  by destruct rejected.
Qed.

(** X11. The checks of the route cover the validators of the schema for
    the day, the time and the date: the only validation error that
    [ScheduledMessage.create] can raise in the route is for the message,
    and it does so exactly for a request that passes the three checks of
    the route with a message that is empty once trimmed. Such a request
    is answered by the [catch] of the route and stores nothing. *)
Theorem post_validation_error_is_blank_message message day time now rejected a
    ps a' :
  router_post toLowerCase trim message day time now rejected a
  = (ErrorCreating (ValidationError ps), a')
  ↔ ps = [PMessage] ∧ a' = a
    ∧ truthy message && truthy day && truthy time = true
    ∧ includes validDays (toLowerCase (or_empty day)) = true
    ∧ timeRegex (or_empty time) = true
    ∧ trim (trim (or_empty message)) = "".
Proof.
  split.
  - intros E.
    destruct (truthy message && truthy day && truthy time) eqn:Ht.
    2: { unfold router_post in E.
         destruct (truthy message), (truthy day), (truthy time); done. }
    destruct (includes validDays (toLowerCase (or_empty day))) eqn:Hd.
    2: { unfold router_post in E.
         apply andb_prop in Ht as [Ht Ht3]. apply andb_prop in Ht as [Ht1 Ht2].
         rewrite Ht1, Ht2, Ht3, Hd in E. done. }
    destruct (timeRegex (or_empty time)) eqn:Htime.
    2: { unfold router_post in E.
         apply andb_prop in Ht as [Ht Ht3]. apply andb_prop in Ht as [Ht1 Ht2].
         rewrite Ht1, Ht2, Ht3, Hd, Htime in E. done. }
    destruct (router_post_checked message day time now rejected a Ht Hd Htime)
      as (targetDay & hours & minutes & _ & _ & E').
    rewrite E' in E.
    destruct (String.eqb_spec (trim (trim (or_empty message))) "") as [Hm|Hm].
    + by injection E as <- <-.
    + by destruct rejected.
  - intros (-> & -> & Ht & Hd & Htime & Hm).
    destruct (router_post_checked message day time now rejected a Ht Hd Htime)
      as (targetDay & hours & minutes & _ & _ & E').
    rewrite E', Hm. done.
Qed.

(** X12. A document that the route creates is consistent and is handed to
    the scheduler once: it is pending, it is appended to the collection
    under a new id, its message is not empty, its date falls on its day
    of the week at its time of day, strictly after now and at most a
    week ahead, and the scheduler, when there is one, is asked to
    schedule exactly this document. *)
Theorem created_message_is_consistent message day time now rejected a doc a' :
  is_date now →
  router_post toLowerCase trim message day time now rejected a = (Created doc, a') →
  sm_status doc = Pending
  ∧ sm_id doc = next_id a
  ∧ scheduledMessages a' = scheduledMessages a ++ [doc]
  ∧ calls a' = calls a ++ (if scheduler_set a then [ScheduleMessage doc] else [])
  ∧ sm_message doc ≠ ""
  ∧ dayMap (scheduled_day doc) = Some (getDay (scheduled_datetime doc))
  ∧ hours_minutes (scheduled_time doc)
    = Some (d_hours (scheduled_datetime doc), d_minutes (scheduled_datetime doc))
  ∧ (getTime now < getTime (scheduled_datetime doc) ≤ getTime now + 7 * 86400000)%Z.
Proof.
  intros Hnow E.
  destruct (truthy message && truthy day && truthy time) eqn:Ht.
  2: { unfold router_post in E.
       destruct (truthy message), (truthy day), (truthy time); done. }
  destruct (includes validDays (toLowerCase (or_empty day))) eqn:Hd.
  2: { unfold router_post in E.
       apply andb_prop in Ht as [Ht Ht3]. apply andb_prop in Ht as [Ht1 Ht2].
       rewrite Ht1, Ht2, Ht3, Hd in E. done. }
  destruct (timeRegex (or_empty time)) eqn:Htime.
  2: { unfold router_post in E.
       apply andb_prop in Ht as [Ht Ht3]. apply andb_prop in Ht as [Ht1 Ht2].
       rewrite Ht1, Ht2, Ht3, Hd, Htime in E. done. }
  destruct (router_post_checked message day time now rejected a Ht Hd Htime)
    as (targetDay & hours & minutes & Hday & Hhm & E').
  rewrite E' in E. clear E'.
  destruct (String.eqb_spec (trim (trim (or_empty message))) "") as [Hm|Hm]; [done|].
  destruct rejected; [done|]. simpl in E. injection E as <- <-.
  destruct (timeRegex_hours_minutes _ Htime) as (h' & m' & Hhm' & Rh & Rm).
  rewrite Hhm in Hhm'. injection Hhm' as <- <-.
  destruct (next_date_spec targetDay hours minutes now Hnow
              (dayMap_range _ _ Hday) Rh Rm) as (H1 & H2 & H3 & _ & _ & H6).
  simpl. split_and!; try done; try lia.
  - unfold tell. simpl. by destruct (scheduler_set a).
  - unfold tell. simpl. destruct (scheduler_set a); simpl; [done|].
    by rewrite app_nil_r.
  - by rewrite H1.
Qed.

End RouteFacts.

Lemma findById_set_status id s l m :
  first_match (λ x, Nat.eqb (sm_id x) id) l = Some m →
  first_match (λ x, Nat.eqb (sm_id x) id) (set_status id s l)
  = Some (mkScheduledMessage (sm_id m) (sm_message m) (scheduled_day m)
            (scheduled_time m) (scheduled_datetime m) s).
Proof.
  induction l as [|x l IH]; simpl; [done|].
  destruct (Nat.eqb (sm_id x) id) eqn:E; simpl.
  - intros [= ->]. by rewrite E.
  - rewrite E. exact IH.
Qed.

Lemma set_status_length id s l : length (set_status id s l) = length l.
Proof.
  induction l as [|x l IH]; simpl; [done|].
  destruct (Nat.eqb (sm_id x) id); simpl; by rewrite ?IH.
Qed.

(** Only the document that [findById] returns is rewritten. *)
Lemma set_status_keeps id s l m x :
  first_match (λ x, Nat.eqb (sm_id x) id) l = Some m →
  x ∈ l → x ≠ m → x ∈ set_status id s l.
Proof.
  induction l as [|y l IH]; simpl; [done|].
  destruct (Nat.eqb (sm_id y) id) eqn:E.
  - intros [= ->] Hin Hne. apply elem_of_cons in Hin as [->|Hin]; [done|].
    by apply list_elem_of_further.
  - intros Hf Hin Hne. apply elem_of_cons in Hin as [->|Hin].
    + apply list_elem_of_here.
    + apply list_elem_of_further. by apply IH.
Qed.

Lemma first_match_app_new {A} (p : A → bool) l x :
  Forall (λ y, p y = false) l → p x = true → first_match p (l ++ [x]) = Some x.
Proof.
  induction 1 as [|y l Hy _ IH]; simpl; intros Hx; [by rewrite Hx|].
  rewrite Hy. by apply IH.
Qed.

(** X13. [DELETE] changes at most one document, and only a pending one:
    every stored message that is not pending, or that has another id,
    is still stored unchanged afterwards, the number of messages stays
    the same, and the scheduler is asked to cancel only the id of a
    pending message that was found. *)
Theorem delete_touches_only_a_pending_message id rejected1 rejected2 a resp a' :
  router_delete id rejected1 rejected2 a = (resp, a') →
  length (scheduledMessages a') = length (scheduledMessages a)
  ∧ (∀ m, m ∈ scheduledMessages a → sm_status m ≠ Pending ∨ sm_id m ≠ id →
          m ∈ scheduledMessages a')
  ∧ (calls a' = calls a
     ∨ (calls a' = calls a ++ [CancelMessage id]
        ∧ ∃ m, findById id a = Some m ∧ sm_status m = Pending)).
Proof.
  unfold router_delete. destruct rejected1 as [msg|].
  { intros [= <- <-]. split_and!; [done|done|by left]. }
  destruct (findById id a) as [m|] eqn:Hf.
  2: { intros [= <- <-]. split_and!; [done|done|by left]. }
  destruct (sm_status m) eqn:Hs.
  2-4: intros [= <- <-]; split_and!; [done|done|by left].
  assert (scheduledMessages (tell (CancelMessage id) a) = scheduledMessages a) as Hm.
  { unfold tell. by destruct (scheduler_set a). }
  assert (calls (tell (CancelMessage id) a) = calls a
          ∨ calls (tell (CancelMessage id) a) = calls a ++ [CancelMessage id]) as Hc.
  { unfold tell. destruct (scheduler_set a); simpl; [by right|by left]. }
  destruct rejected2 as [msg|]; intros [= <- <-].
  - rewrite Hm. split_and!; [done|done|].
    destruct Hc as [Hc|Hc]; [by left|right]. split; [done|]. by exists m.
  - simpl. rewrite Hm. split_and!.
    + apply set_status_length.
    + intros x Hin Hx. apply (set_status_keeps id Cancelled _ m); [done|done|].
      intros ->. unfold findById in Hf. apply first_match_Some in Hf as [_ Hid].
      apply Nat.eqb_eq in Hid. destruct Hx as [Hx|Hx]; done.
    + destruct Hc as [Hc|Hc]; [by left|right]. split; [done|]. by exists m.
Qed.

Lemma delete_touches_only_a_pending_message_witness :
  let m := mkScheduledMessage 0 "Pay the premium" "friday" "14:30"
             (mkDate 8 14 30 0 0) Pending in
  let a := mkRouter [m] 1 true [ScheduleMessage m] in
  let a' := mkRouter [mkScheduledMessage 0 "Pay the premium" "friday" "14:30"
                     (mkDate 8 14 30 0 0) Cancelled] 1 true
                  [ScheduleMessage m; CancelMessage 0] in
  router_delete 0 None None a = (CancelledOk, a')
  ∧ length (scheduledMessages a') = length (scheduledMessages a).
Proof.
  intros m a a'.
  assert (router_delete 0 None None a = (CancelledOk, a')) as E by reflexivity.
  split; [exact E|].
  exact (proj1 (delete_touches_only_a_pending_message 0 None None a _ a' E)).
Defined.

Section CancelFacts.

Variable toLowerCase : string → string.
Variable trim : string → string.

(** X14. A message that the route has created can be cancelled once: when
    the ids of the stored messages are below the next id, [DELETE] of the
    id that [POST] returned finds the new document, asks the scheduler
    (when there is one) to cancel that id, and leaves the document
    cancelled; a second [DELETE] of the same id is refused with the
    status [cancelled] and changes nothing. *)
Theorem created_message_is_cancelled_once message day time now a doc a1 :
  Forall (λ m, sm_id m < next_id a) (scheduledMessages a) →
  router_post toLowerCase trim message day time now None a = (Created doc, a1) →
  ∃ a2,
    router_delete (sm_id doc) None None a1 = (CancelledOk, a2)
    ∧ findById (sm_id doc) a2
      = Some (mkScheduledMessage (sm_id doc) (sm_message doc) (scheduled_day doc)
                (scheduled_time doc) (scheduled_datetime doc) Cancelled)
    ∧ calls a2
      = calls a1 ++ (if scheduler_set a then [CancelMessage (sm_id doc)] else [])
    ∧ router_delete (sm_id doc) None None a2 = (NotPending Cancelled, a2).
Proof.
  intros Hids E.
  assert (sm_id doc = next_id a ∧ sm_status doc = Pending
          ∧ scheduledMessages a1 = scheduledMessages a ++ [doc]
          ∧ scheduler_set a1 = scheduler_set a) as (Hid & Hst & Hms & Hsch).
  { unfold router_post in E.
    destruct (negb (truthy message) || negb (truthy day) || negb (truthy time));
      [done|].
    destruct (negb (includes validDays (toLowerCase (or_empty day)))); [done|].
    destruct (negb (timeRegex (or_empty time))); [done|].
    unfold ScheduledMessage_create in E.
    destruct (invalid_paths _ _ _ _); [|done].
    destruct (getNextScheduledDate _ _ _ _); [|done].
    injection E as <- <-. unfold tell. simpl.
    by destruct (scheduler_set a). }
  assert (findById (sm_id doc) a1 = Some doc) as Hf.
  { unfold findById. rewrite Hms. apply first_match_app_new.
    - eapply Forall_impl; [exact Hids|]. simpl. intros m Hm.
      apply Nat.eqb_neq. lia.
    - apply Nat.eqb_refl. }
  unfold router_delete. rewrite Hf, Hst.
  assert (scheduledMessages (tell (CancelMessage (sm_id doc)) a1)
          = scheduledMessages a1) as Hm.
  { unfold tell. by destruct (scheduler_set a1). }
  eexists. split; [reflexivity|]. rewrite Hm.
  assert (findById (sm_id doc)
            (with_messages (set_status (sm_id doc) Cancelled (scheduledMessages a1))
               (tell (CancelMessage (sm_id doc)) a1))
          = Some (mkScheduledMessage (sm_id doc) (sm_message doc) (scheduled_day doc)
                    (scheduled_time doc) (scheduled_datetime doc) Cancelled)) as Hf2.
  { unfold findById. simpl. by apply findById_set_status. }
  split_and!.
  - exact Hf2.
  - unfold tell. rewrite Hsch. simpl. destruct (scheduler_set a); simpl; [done|].
    by rewrite app_nil_r.
  - rewrite Hf2. done.
Qed.

End CancelFacts.

Lemma next_scheduled_date_is_next_occurrence_witness :
  is_date Text.friday_morning
  ∧ dayMap (Demo.lower "Friday") = Some 5%Z
  ∧ timeRegex "14:30" = true
  ∧ ∃ t hours minutes,
      getNextScheduledDate Demo.lower "Friday" "14:30" Text.friday_morning = Some t
      ∧ hours_minutes "14:30" = Some (hours, minutes)
      ∧ getDay t = 5%Z
      ∧ (d_hours t, d_minutes t, d_seconds t, d_ms t) = (hours, minutes, 0, 0)%Z
      ∧ (getTime Text.friday_morning < getTime t
         ≤ getTime Text.friday_morning + 7 * 86400000)%Z
      ∧ ∀ t', getDay t' = 5%Z →
              (d_hours t', d_minutes t', d_seconds t', d_ms t')
              = (hours, minutes, 0, 0)%Z →
              (getTime Text.friday_morning < getTime t')%Z →
              (getTime t ≤ getTime t')%Z.
Proof.
  assert (is_date Text.friday_morning) as H1 by (vm_compute; intuition discriminate).
  split; [exact H1|]. split; [reflexivity|]. split; [reflexivity|].
  exact (next_scheduled_date_is_next_occurrence Demo.lower "Friday" "14:30"
           Text.friday_morning 5%Z H1 eq_refl eq_refl).
Defined.

Lemma post_validation_error_is_blank_message_witness :
  (∀ s, s ∈ validDays → Demo.lower s = s)
  ∧ router_post Demo.lower Text.trim (Some "   ") (Some "Friday") (Some "14:30")
      Text.friday_morning None Text.empty_router
    = (ErrorCreating (ValidationError [PMessage]), Text.empty_router).
Proof.
  assert (∀ s, s ∈ validDays → Demo.lower s = s) as lower_validDays.
  { intros s H. unfold validDays in H.
    repeat (apply elem_of_cons in H as [->|H]; [reflexivity|]).
    by apply elem_of_nil in H. }
  split; [exact lower_validDays|].
  apply (post_validation_error_is_blank_message Demo.lower Text.trim
           lower_validDays (Some "   ") (Some "Friday") (Some "14:30")
           Text.friday_morning None Text.empty_router [PMessage] Text.empty_router).
  split_and!; reflexivity.
Defined.

Lemma created_message_is_consistent_witness :
  let doc := mkScheduledMessage 0 "Pay the premium" "friday" "14:30"
               (mkDate 8 14 30 0 0) Pending in
  let a' := mkRouter [doc] 1 false [] in
  (∀ s, s ∈ validDays → Demo.lower s = s)
  ∧ is_date Text.friday_morning
  ∧ router_post Demo.lower Text.trim (Some " Pay the premium ") (Some "Friday")
      (Some "14:30") Text.friday_morning None Text.empty_router
    = (Created doc, a')
  ∧ dayMap (scheduled_day doc) = Some (getDay (scheduled_datetime doc)).
Proof.
  intros doc a'.
  assert (∀ s, s ∈ validDays → Demo.lower s = s) as lower_validDays.
  { intros s H. unfold validDays in H.
    repeat (apply elem_of_cons in H as [->|H]; [reflexivity|]).
    by apply elem_of_nil in H. }
  assert (is_date Text.friday_morning) as H1 by (vm_compute; intuition discriminate).
  assert (router_post Demo.lower Text.trim (Some " Pay the premium ") (Some "Friday")
            (Some "14:30") Text.friday_morning None Text.empty_router
          = (Created doc, a')) as E by (vm_compute; reflexivity).
  split; [exact lower_validDays|]. split; [exact H1|]. split; [exact E|].
  exact (proj1 (proj2 (proj2 (proj2 (proj2 (proj2
           (created_message_is_consistent Demo.lower Text.trim lower_validDays
              _ _ _ _ _ _ _ _ H1 E))))))).
Defined.

Lemma created_message_is_cancelled_once_witness :
  let doc := mkScheduledMessage 0 "Pay the premium" "friday" "14:30"
               (mkDate 8 14 30 0 0) Pending in
  let a1 := mkRouter [doc] 1 false [] in
  Forall (λ m, sm_id m < next_id Text.empty_router) (scheduledMessages Text.empty_router)
  ∧ router_post Demo.lower Text.trim (Some " Pay the premium ") (Some "Friday")
      (Some "14:30") Text.friday_morning None Text.empty_router
    = (Created doc, a1)
  ∧ ∃ a2,
      router_delete (sm_id doc) None None a1 = (CancelledOk, a2)
      ∧ findById (sm_id doc) a2
        = Some (mkScheduledMessage (sm_id doc) (sm_message doc) (scheduled_day doc)
                  (scheduled_time doc) (scheduled_datetime doc) Cancelled)
      ∧ calls a2
        = calls a1 ++ (if scheduler_set Text.empty_router
                       then [CancelMessage (sm_id doc)] else [])
      ∧ router_delete (sm_id doc) None None a2 = (NotPending Cancelled, a2).
Proof.
  intros doc a1.
  assert (Forall (λ m, sm_id m < next_id Text.empty_router)
            (scheduledMessages Text.empty_router)) as H1 by apply Forall_nil_2.
  assert (router_post Demo.lower Text.trim (Some " Pay the premium ") (Some "Friday")
            (Some "14:30") Text.friday_morning None Text.empty_router
          = (Created doc, a1)) as E by (vm_compute; reflexivity).
  split; [exact H1|]. split; [exact E|].
  exact (created_message_is_cancelled_once Demo.lower Text.trim _ _ _ _ _ _ _ H1 E).
Defined.

(** *** Policies by user *)

Lemma accumulate_sum p gs :
  sum_list_with (λ g : user_group, length g.2) (accumulate p gs)
  = S (sum_list_with (λ g : user_group, length g.2) gs).
Proof.
  induction gs as [|g gs IH]; simpl; [done|].
  destruct (Nat.eqb g.1 (p_user_id p)); simpl.
  - rewrite length_app. simpl. lia.
  - rewrite IH. lia.
Qed.

Lemma accumulate_ids p gs :
  (accumulate p gs).*1
  = if bool_decide (p_user_id p ∈ gs.*1) then gs.*1 else gs.*1 ++ [p_user_id p].
Proof.
  induction gs as [|g gs IH]; [done|]. cbn [accumulate].
  destruct (Nat.eqb_spec g.1 (p_user_id p)) as [E|E]; rewrite !fmap_cons.
  - rewrite bool_decide_true; [done|]. rewrite E. apply list_elem_of_here.
  - rewrite IH. destruct (bool_decide_reflect (p_user_id p ∈ gs.*1)) as [H|H].
    + rewrite bool_decide_true; [done|]. by apply list_elem_of_further.
    + rewrite bool_decide_false; [done|]. intros [?|?]%elem_of_cons; done.
Qed.

Lemma grouped_snoc ps p : grouped (ps ++ [p]) = accumulate p.2 (grouped ps).
Proof. unfold grouped. by rewrite foldl_app. Qed.

Lemma grouped_sum ps :
  sum_list_with (λ g : user_group, length g.2) (grouped ps) = length ps.
Proof.
  induction ps as [|p ps IH] using rev_ind; [done|].
  rewrite grouped_snoc, accumulate_sum, IH, length_app. simpl. lia.
Qed.

Lemma grouped_NoDup ps : NoDup (grouped ps).*1.
Proof.
  induction ps as [|p ps IH] using rev_ind; [apply NoDup_nil_2|].
  rewrite grouped_snoc, accumulate_ids.
  destruct (bool_decide_reflect (p_user_id p.2 ∈ (grouped ps).*1)) as [H|H]; [done|].
  apply NoDup_app. split_and!; [done| |apply NoDup_singleton].
  intros x Hx Hx'. apply list_elem_of_singleton in Hx' as ->. done.
Qed.

(** The groups are the users of the policies. *)
Lemma grouped_ids ps id :
  id ∈ (grouped ps).*1 ↔ id ∈ (λ p : policy_doc, p_user_id p.2) <$> ps.
Proof.
  induction ps as [|p ps IH] using rev_ind.
  { simpl. split; intros H; by apply elem_of_nil in H. }
  rewrite grouped_snoc, accumulate_ids, fmap_app, elem_of_app. simpl.
  rewrite list_elem_of_singleton, <- IH.
  destruct (bool_decide_reflect (p_user_id p.2 ∈ (grouped ps).*1)) as [H|H].
  - split; [by left|]. intros [?| ->]; done.
  - rewrite elem_of_app, list_elem_of_singleton. done.
Qed.

Lemma foldl_sum {A} (f : A → nat) l n :
  foldl (λ sum item, sum + f item) n l = n + sum_list_with f l.
Proof.
  revert n. induction l as [|x l IH]; intros n; simpl; [lia|].
  rewrite IH. lia.
Qed.

Lemma by_id_Some {A} id (l : list (oid * A)) :
  id ∈ l.*1 → ∃ x, by_id id l = Some x ∧ x.1 = id ∧ x ∈ l.
Proof.
  intros Hin. destruct (by_id id l) as [x|] eqn:Hf; unfold by_id in Hf.
  - apply first_match_Some in Hf as [Hx Hid]. apply Nat.eqb_eq in Hid.
    exists x. split_and!; done.
  - apply list_elem_of_fmap in Hin as (y & -> & Hy).
    apply (first_match_None _ _ Hf) in Hy. simpl in Hy.
    by rewrite Nat.eqb_refl in Hy.
Qed.

Lemma by_id_None {A} id (l : list (oid * A)) : by_id id l = None → id ∉ l.*1.
Proof.
  intros Hf Hin. apply by_id_Some in Hin as (x & Hx & _). by rewrite Hf in Hx.
Qed.

Lemma populate_Some d item v :
  populate d item = Some v →
  (v_user v).1 = item.1 ∧ v_policy_count v = length item.2
  ∧ length (v_policies v) = length item.2 ∧ v_user v ∈ users d.
Proof.
  unfold populate. destruct (by_id item.1 (users d)) as [u|] eqn:Hf; [|done].
  unfold by_id in Hf. intros [= <-]. simpl.
  apply first_match_Some in Hf as [Hin Hid].
  apply Nat.eqb_eq in Hid. rewrite length_fmap. split_and!; done.
Qed.

Lemma populated_cons d g items :
  omap id (populate d <$> g :: items)
  = match populate d g with
    | Some v => v :: omap id (populate d <$> items)
    | None => omap id (populate d <$> items)
    end.
Proof. done. Qed.

(** The users of the answer are the stored users of the groups, in the
    order of the groups. *)
Lemma populated_counts d items :
  sum_list_with v_policy_count (omap id (populate d <$> items))
  ≤ sum_list_with (λ g : user_group, length g.2) items
  ∧ ((∀ g, g ∈ items → g.1 ∈ (users d).*1) →
     sum_list_with v_policy_count (omap id (populate d <$> items))
     = sum_list_with (λ g : user_group, length g.2) items
     ∧ (λ v, (v_user v).1) <$> omap id (populate d <$> items) = items.*1).
Proof.
  induction items as [|g items [IH1 IH2]].
  { split; [done|]. intros _. done. }
  rewrite populated_cons.
  destruct (populate d g) as [v|] eqn:E.
  - apply populate_Some in E as (Hid & Hc & _ & _).
    rewrite fmap_cons. cbn [sum_list_with]. rewrite Hc. split; [lia|].
    intros Hall. destruct IH2 as [-> ->].
    + intros g' Hg'. by apply Hall, list_elem_of_further.
    + by rewrite Hid.
  - cbn [sum_list_with]. split; [lia|]. intros Hall. exfalso.
    unfold populate in E.
    destruct (by_id g.1 (users d)) eqn:Hb; [done|].
    apply by_id_None in Hb. apply Hb, Hall, list_elem_of_here.
Qed.

Lemma same_groups_sum gs gs' :
  Forall2 same_group gs gs' →
  sum_list_with (λ g : user_group, length g.2) gs
  = sum_list_with (λ g : user_group, length g.2) gs'
  ∧ gs.*1 = gs'.*1.
Proof.
  induction 1 as [|x y l l' [H1 H2] _ [IH1 IH2]]; [done|].
  rewrite !fmap_cons. cbn [sum_list_with].
  by rewrite (Permutation_length H2), IH1, IH2, H1.
Qed.

Lemma populated_Forall d (P : user_group → Prop) (Q : user_view → Prop) items :
  (∀ g v, populate d g = Some v → P g → Q v) →
  Forall P items → Forall Q (omap id (populate d <$> items)).
Proof.
  intros HPQ. induction 1 as [|g items Hg _ IH]; [constructor|].
  rewrite populated_cons. destruct (populate d g) as [v|] eqn:E; [|done].
  constructor; [by apply (HPQ g)|done].
Qed.

Lemma sorted_populated d items :
  StronglySorted (λ x y : user_group, length y.2 ≤ length x.2) items →
  StronglySorted (λ x y, v_policy_count y ≤ v_policy_count x)
                 (omap id (populate d <$> items)).
Proof.
  induction 1 as [|g items _ IH Hall]; [constructor|].
  rewrite populated_cons. destruct (populate d g) as [v|] eqn:E; [|done].
  constructor; [done|].
  apply populate_Some in E as (_ & Hc & _ & _). rewrite Hc.
  eapply populated_Forall; [|exact Hall]. simpl.
  intros g' v' E' Hle. apply populate_Some in E' as (_ & Hc' & _ & _).
  by rewrite Hc'.
Qed.

Lemma NoDup_populated d items :
  NoDup items.*1 → NoDup ((λ v, (v_user v).1) <$> omap id (populate d <$> items)).
Proof.
  induction items as [|g items IH]; [intros _; apply NoDup_nil_2|].
  rewrite fmap_cons, populated_cons. intros [Hg Hnd]%NoDup_cons.
  destruct (populate d g) as [v|] eqn:E; [|by apply IH].
  rewrite fmap_cons. apply NoDup_cons. split; [|by apply IH].
  apply populate_Some in E as (Hid & _). rewrite Hid.
  intros Hin. apply Hg. apply list_elem_of_fmap in Hin as (v' & -> & Hv').
  apply list_elem_of_omap in Hv' as (o & Ho & Hv'). simpl in Hv'. subst o.
  apply list_elem_of_fmap in Ho as (g' & Hg' & Hin').
  symmetry in Hg'. apply populate_Some in Hg' as (-> & _).
  apply list_elem_of_fmap. by exists g'.
Qed.

(** X15. The totals of [GET /aggregated]: whatever order the aggregation
    answers in, [total_policies] never exceeds the number of stored
    policies and no user is listed twice; the entries come in descending
    order of [policy_count]; and when every policy belongs to a stored
    person, [total_policies] is the number of stored policies and
    [total_users] the number of different users that have a policy. *)
Theorem aggregated_totals items d total_users total_policies data :
  is_aggregate items d →
  aggregated None items d = Aggregated total_users total_policies data →
  total_policies ≤ length (policies d)
  ∧ NoDup ((λ v, (v_user v).1) <$> data)
  ∧ StronglySorted (λ x y, v_policy_count y ≤ v_policy_count x) data
  ∧ total_users = length data
  ∧ (owners_stored d →
     total_policies = length (policies d)
     ∧ total_users
       = size (list_to_set ((λ p : policy_doc, p_user_id p.2) <$> policies d)
               : gset oid)).
Proof.
  intros [(gs & Hperm & Hsame) Hsorted]. unfold aggregated. intros [= <- <- <-].
  rewrite foldl_sum. simpl.
  destruct (same_groups_sum _ _ Hsame) as [Hsum Hids].
  assert (sum_list_with (λ g : user_group, length g.2) items
          = length (policies d)) as Htotal.
  { rewrite Hperm, Hsum. apply grouped_sum. }
  assert (NoDup items.*1) as Hnd.
  { rewrite Hperm, Hids. apply grouped_NoDup. }
  destruct (populated_counts d items) as [Hle Heq].
  split_and!.
  - lia.
  - by apply NoDup_populated.
  - by apply sorted_populated.
  - done.
  - intros Hown.
    assert (∀ g, g ∈ items → g.1 ∈ (users d).*1) as Hall.
    { intros g Hg.
      assert (g.1 ∈ (grouped (policies d)).*1) as Hin.
      { rewrite <- Hids, <- Hperm. apply list_elem_of_fmap. by exists g. }
      apply grouped_ids, list_elem_of_fmap in Hin as (p & -> & Hp). by apply Hown. }
    destruct (Heq Hall) as [E1 E2]. split; [lia|].
    rewrite <- (length_fmap (λ v, (v_user v).1)), E2.
    rewrite <- (size_list_to_set (C := gset oid)) by done.
    f_equal. apply set_eq. intros id. rewrite !elem_of_list_to_set.
    rewrite Hperm, Hids. apply grouped_ids.
Qed.

Lemma aggregated_totals_witness :
  let items := [(1, [mkPolicy "YEEX9MOIBU7X" 1541116800000 1572652800000 2 3 1])] in
  let data := [mkUserView Text.lura 1
                 [mkPolicyView "YEEX9MOIBU7X" 1541116800000 1572652800000
                    (Some "Commercial Auto") (Some "Acme Corp")]] in
  is_aggregate items Text.one_policy_store
  ∧ aggregated None items Text.one_policy_store = Aggregated 1 1 data
  ∧ 1 ≤ length (policies Text.one_policy_store).
Proof.
  intros items data.
  assert (is_aggregate items Text.one_policy_store) as H1.
  { split.
    - exists items. split; [reflexivity|].
      repeat constructor.
    - repeat constructor. }
  assert (aggregated None items Text.one_policy_store = Aggregated 1 1 data) as H2
    by reflexivity.
  split; [exact H1|]. split; [exact H2|].
  exact (proj1 (aggregated_totals items Text.one_policy_store 1 1 data H1 H2)).
Defined.

(** A run keeps every policy with a stored person. *)
Lemma owners_stored_run h csvData d :
  owners_stored d → owners_stored (store_after h csvData d).
Proof.
  intros Hown doc Hin.
  pose proof (store_after_grows h csvData d) as G.
  assert (doc ∈ policies d ∨ refers_to_stored doc.2 (store_after h csvData d))
    as [Hd|(_ & _ & ?)]; [|by apply (user_ids_mono d), Hown|done].
  revert Hin. rewrite store_after_spec. destruct (connect h); [by left|].
  destruct (parse h csvData) as [|rows]; [by left|]. intros Hin.
  apply (linked_one_at_a_time h d (length rows) 0 rows (fresh d)
           (sound_fresh h d) (λ doc H, or_introl H) doc Hin).
Qed.

(** X16. After an import, [GET /aggregated] counts every stored policy:
    if every policy belonged to a stored person before the run of the
    worker, then on the store that the run leaves behind
    [total_policies] is the number of stored policies, whatever the
    payload was and whatever storage rejected during the run. *)
Theorem aggregated_counts_every_imported_policy h csvData d items
    total_users total_policies data :
  owners_stored d →
  is_aggregate items (store_after h csvData d) →
  aggregated None items (store_after h csvData d)
  = Aggregated total_users total_policies data →
  total_policies = length (policies (store_after h csvData d))
  ∧ sum_list_with v_policy_count data = total_policies
  ∧ Forall (λ v, v_user v ∈ users (store_after h csvData d)
                 ∧ 1 ≤ v_policy_count v
                 ∧ length (v_policies v) = v_policy_count v) data.
Proof.
  intros Hown [(gs & Hperm & Hsame) Hsorted]. unfold aggregated. intros [= <- <- <-].
  rewrite foldl_sum. simpl.
  destruct (same_groups_sum _ _ Hsame) as [Hsum Hids].
  destruct (populated_counts (store_after h csvData d) items) as [_ Heq].
  destruct Heq as [E1 E2].
  { intros g Hg.
    assert (g.1 ∈ (grouped (policies (store_after h csvData d))).*1) as Hin.
    { rewrite <- Hids, <- Hperm. apply list_elem_of_fmap. by exists g. }
    apply grouped_ids, list_elem_of_fmap in Hin as (p & -> & Hp).
    by apply owners_stored_run. }
  split_and!.
  - rewrite E1, Hperm, Hsum. apply grouped_sum.
  - done.
  - apply (populated_Forall _ (λ g, 1 ≤ length g.2)).
    + intros g v E Hg. apply populate_Some in E as (_ & -> & -> & Hu). done.
    + rewrite Hperm. clear -Hsame.
      assert (Forall (λ g : user_group, 1 ≤ length g.2)
                (grouped (policies (store_after h csvData d)))) as Hne.
      { generalize (policies (store_after h csvData d)). intros ps.
        induction ps as [|p ps IH] using rev_ind; [constructor|].
        rewrite grouped_snoc. clear -IH.
        induction IH as [|g gs Hg Hgs IH]; simpl.
        - constructor; [simpl; lia|constructor].
        - destruct (Nat.eqb g.1 (p_user_id p.2)).
          + constructor; [|done]. simpl. rewrite length_app. lia.
          + by constructor. }
      revert Hne. induction Hsame as [|x y l l' [_ H2] _ IH]; [constructor|].
      intros [Hy Hl']%Forall_cons. constructor; [|by apply IH].
      by rewrite (Permutation_length H2).
Qed.

Lemma aggregated_counts_every_imported_policy_witness :
  let h := Demo.host_of Demo.three_rows Demo.no_fault in
  let d := store_after h "csv" Demo.empty_store in
  let items := grouped (policies d) in
  owners_stored Demo.empty_store
  ∧ is_aggregate items d
  ∧ match aggregated None items d with
    | Aggregated total_users total_policies data =>
        total_users = 2 ∧ total_policies = length (policies d)
    | ErrorAggregating _ => False
    end.
Proof.
  intros h d items.
  assert (owners_stored Demo.empty_store) as H1.
  { intros doc Hin. by apply elem_of_nil in Hin. }
  assert (is_aggregate items d) as H2.
  { split.
    - exists items. split; [reflexivity|]. apply Forall_Forall2_diag.
      apply Forall_forall. intros x _. split; reflexivity.
    - vm_compute. repeat constructor. }
  split; [exact H1|]. split; [exact H2|].
  destruct (aggregated None items d) as [n t data|] eqn:E; [|done].
  split; [by vm_compute in E; injection E as <- _ _|].
  exact (proj1 (aggregated_counts_every_imported_policy h "csv" Demo.empty_store
                  items n t data H1 H2 E)).
Defined.

(** *** From the rows to the answer of [GET /aggregated] *)

Lemma docs_mono f d d' x :
  rtc insertion d d' → x ∈ coll_of f d → x ∈ coll_of f d'.
Proof.
  intros H Hin. apply rtc_insertion_prefix in H as (H & _ & _).
  destruct (H f) as [k ->]. apply elem_of_app. by left.
Qed.

Lemma told_by_mono r d d' doc :
  rtc insertion d d' → told_by r d doc → told_by r d' doc.
Proof.
  intros H (H1 & (n2 & H2 & N2 & I2) & (n3 & H3 & N3 & I3)). split_and!; [done| |].
  - exists n2. split_and!; [done|done|]. by apply (docs_mono LOB d d').
  - exists n3. split_and!; [done|done|]. by apply (docs_mono Carrier d d').
Qed.

Lemma next_oid_push_ref f x d : next_oid (push_ref f x d) = S (next_oid d).
Proof. by destruct f. Qed.

Lemma fresh_ids_later d d' :
  next_oid d' = S (next_oid d) →
  (∀ g, coll_of g d' = coll_of g d
        ∨ ∃ name, coll_of g d' = coll_of g d ++ [(next_oid d, name)]) →
  fresh_ids d → fresh_ids d'.
Proof.
  intros Hn Hc Hf g. destruct (Hf g) as [Hlt Hnd].
  assert (Forall (λ x : ref_doc, x.1 < next_oid d') (coll_of g d)) as Hlt'.
  { eapply Forall_impl; [exact Hlt|]. intros x Hx. simpl in *. lia. }
  destruct (Hc g) as [->|[name ->]]; [done|]. split.
  - apply Forall_app. split; [done|]. apply Forall_singleton. simpl. lia.
  - rewrite fmap_app. apply NoDup_app. split_and!; [done| |apply NoDup_singleton].
    intros id Hid Hid'. apply list_elem_of_singleton in Hid'. simpl in Hid'.
    subst id. apply list_elem_of_fmap in Hid as (x & Hx1 & Hx).
    rewrite Forall_forall in Hlt. apply Hlt in Hx. lia.
Qed.

Lemma insertion_fresh_ids d d' : insertion d d' → fresh_ids d → fresh_ids d'.
Proof.
  intros H. destruct H as [f name d Hnone|u d|p d Hnone];
    apply fresh_ids_later.
  - apply next_oid_push_ref.
  - intros g. rewrite coll_of_push_ref. destruct (decide (f = g)); [right|left];
      [by exists name|done].
  - done.
  - intros g. left. by destruct g.
  - done.
  - intros g. left. by destruct g.
Qed.

Lemma rtc_insertion_fresh_ids d d' :
  rtc insertion d d' → fresh_ids d → fresh_ids d'.
Proof.
  induction 1 as [|d1 d2 d3 H _ IH]; [done|].
  intros Hf. by apply IH, (insertion_fresh_ids d1).
Qed.

Lemma by_id_unique {A} (id : nat) (x : A) (l : list (nat * A)) :
  NoDup l.*1 → (id, x) ∈ l → by_id id l = Some (id, x).
Proof.
  unfold by_id. induction l as [|y l IH]; intros Hnd Hin.
  { by apply elem_of_nil in Hin. }
  rewrite fmap_cons in Hnd. apply NoDup_cons in Hnd as [Hy Hnd]. cbn [first_match].
  apply elem_of_cons in Hin as [<-|Hin].
  - simpl. by rewrite Nat.eqb_refl.
  - destruct (Nat.eqb_spec y.1 id) as [E|E]; [|by apply IH].
    destruct Hy. rewrite E. apply list_elem_of_fmap. by exists (id, x).
Qed.

(** A resolver that returns an identity returns that of a stored document
    with the name it was given, as the schema sets it. *)
Lemma getOrCreate_named h g label st id st' :
  getOrCreate h g label st = (Ok (Some id), st') → sound h st →
  ∃ name, label = Some name ∧ name ≠ ""
          ∧ (id, set_name h g name) ∈ coll_of g (db st').
Proof.
  intros E Hs. pose proof (sound_getOrCreate h g label _ _ _ E Hs) as [Href _].
  apply getOrCreate_cases in E as [(_ & ? & _)|(name & -> & Hname & E)]; [done|].
  exists name. split; [done|]. split; [done|]. apply Href.
  destruct E as [(id' & Hc & [= ->] & ->)|(Hc & E)]; [done|].
  destruct E as [(msg & ? & _)|[(doc & Hf & [= ->] & ->)|[(_ & msg & ? & _)|(Hf & [= ->] & ->)]]];
    try done; rewrite cache_of_cache_set; by rewrite decide_True.
Qed.

Lemma resolve_named h r st lobId carrierId userId st' :
  resolve h r st = (Ok (lobId, carrierId, userId), st') → sound h st →
  (∀ id, lobId = Some id →
         ∃ name, category_name r = Some name ∧ name ≠ ""
                 ∧ (id, name) ∈ lobs (db st'))
  ∧ (∀ id, carrierId = Some id →
           ∃ name, company_name r = Some name ∧ name ≠ ""
                   ∧ (id, name) ∈ carriers (db st')).
Proof.
  intros E Hs. unfold resolve, getOrCreateAgent, getOrCreateLOB,
    getOrCreateCarrier, getOrCreateUserAccount in E.
  apply bind_inv in E as [(a1 & s1 & E1 & E)|(msg & _ & ?)]; [|done].
  apply bind_inv in E as [(a2 & s2 & E2 & E)|(msg & _ & ?)]; [|done].
  apply bind_inv in E as [(a3 & s3 & E3 & E)|(msg & _ & ?)]; [|done].
  apply bind_inv in E as [(a4 & s4 & E4 & E)|(msg & _ & ?)]; [|done].
  apply bind_inv in E as [(a5 & s5 & E5 & E)|(msg & _ & ?)]; [|done].
  injection E as -> -> -> <-.
  pose proof (sound_getOrCreate _ _ _ _ _ _ E1 Hs) as Hs1.
  pose proof (sound_getOrCreate _ _ _ _ _ _ E2 Hs1) as Hs2.
  pose proof (getOrCreate_grows _ _ _ _ _ _ E3) as G3.
  pose proof (getOrCreateUser_grows _ _ _ _ _ E4) as G4.
  pose proof (getOrCreate_grows _ _ _ _ _ _ E5) as G5.
  split.
  - intros id ->.
    destruct (getOrCreate_named _ _ _ _ _ _ E2 Hs1) as (name & H1 & H2 & H3).
    exists name. split_and!; [done|done|].
    apply (docs_mono LOB (db s2)); [by do 2 (etrans; [done|])|done].
  - intros id ->.
    destruct (getOrCreate_named _ _ _ _ _ _ E3 Hs2) as (name & H1 & H2 & H3).
    exists name. split_and!; [done|done|].
    apply (docs_mono Carrier (db s3)); [by etrans|done].
Qed.

(** Every policy of the store that was not in [d] is what one of the rows
    said. *)
Lemma told_try_body h d (rows : list row) total r st res st' :
  try_body h total r st = (res, st') →
  r ∈ rows → sound h st →
  (∀ doc, doc ∈ policies (db st) →
          doc ∈ policies d ∨ ∃ r', r' ∈ rows ∧ told_by r' (db st) doc) →
  ∀ doc, doc ∈ policies (db st') →
         doc ∈ policies d ∨ ∃ r', r' ∈ rows ∧ told_by r' (db st') doc.
Proof.
  intros E Hr Hs Hl.
  assert (∀ s s', rtc insertion (db s) (db s') →
            policies (db s') = policies (db s) →
            (∀ doc, doc ∈ policies (db s) →
                    doc ∈ policies d ∨ ∃ r', r' ∈ rows ∧ told_by r' (db s) doc) →
            ∀ doc, doc ∈ policies (db s') →
                   doc ∈ policies d ∨ ∃ r', r' ∈ rows ∧ told_by r' (db s') doc)
    as Hmono.
  { intros s s' Hg Hp H doc. rewrite Hp. intros Hin.
    destruct (H doc Hin) as [?|(r' & Hr' & Ht)]; [by left|right].
    exists r'. split; [done|]. by apply (told_by_mono _ (db s)). }
  unfold try_body in E.
  apply bind_inv in E as [(ids & st1 & E1 & E)|(msg & E1 & _)].
  2: { apply (Hmono st); [by eapply resolve_grows| |done].
       apply (keeps_run stored_policies _ _ _ _ (resolve_policies h r) E1). }
  assert (∀ doc, doc ∈ policies (db st1) →
                 doc ∈ policies d ∨ ∃ r', r' ∈ rows ∧ told_by r' (db st1) doc)
    as Hl1.
  { apply (Hmono st); [by eapply resolve_grows| |done].
    apply (keeps_run stored_policies _ _ _ _ (resolve_policies h r) E1). }
  destruct ids as [[lobId carrierId] userId].
  destruct (resolve_named _ _ _ _ _ _ _ E1 Hs) as (Hlob & Hcar).
  simpl in E.
  assert (∀ res2 st2,
            create_policy h r lobId carrierId userId st1 = (res2, st2) →
            ∀ doc, doc ∈ policies (db st2) →
                   doc ∈ policies d ∨ ∃ r', r' ∈ rows ∧ told_by r' (db st2) doc)
    as Hcp.
  { intros res2 st2 E2.
    pose proof (create_policy_grows _ _ _ _ _ _ _ _ E2) as G2.
    apply create_policy_cases in E2 as [_ [Hdb|E2]].
    { by rewrite Hdb. }
    destruct E2 as (lob & carrier & s & e & Hpn & -> & -> & _ & _ & _ & _ & Hdb).
    intros doc. rewrite Hdb. simpl. intros Hin.
    apply elem_of_app in Hin as [Hin|Hin].
    - destruct (Hl1 doc Hin) as [?|(r' & Hr' & Ht)]; [by left|right].
      exists r'. split; [done|].
      apply (told_by_mono _ (db st1)); [by rewrite <- Hdb|done].
    - apply list_elem_of_singleton in Hin as ->. right. exists r.
      split; [done|]. rewrite <- Hdb.
      apply (told_by_mono _ (db st1)); [done|].
      split_and!; simpl.
      + destruct (policy_number r) as [n|]; [done|]. done.
      + by apply Hlob.
      + by apply Hcar. }
  apply bind_inv in E as [([] & st2 & E2 & E)|(msg & E2 & _)].
  - apply count_row_db in E as (_ & Hdb & _). rewrite Hdb. by eapply Hcp.
  - by eapply Hcp.
Qed.

Lemma told_one_at_a_time h d (rows0 : list row) total k rows st :
  (∀ r, r ∈ rows → r ∈ rows0) → sound h st →
  (∀ doc, doc ∈ policies (db st) →
          doc ∈ policies d ∨ ∃ r', r' ∈ rows0 ∧ told_by r' (db st) doc) →
  ∀ doc, doc ∈ policies (db (one_at_a_time h total k rows st)) →
         doc ∈ policies d
         ∨ ∃ r', r' ∈ rows0
                 ∧ told_by r' (db (one_at_a_time h total k rows st)) doc.
Proof.
  revert k st. induction rows as [|r rows IH]; intros k st Hsub Hs Hl; simpl; [done|].
  apply IH; [intros r' Hr'; by apply Hsub, list_elem_of_further
            |by apply sound_handle|].
  unfold handle. destruct (try_body h total r st) as [[[]|msg] st'] eqn:E;
    apply (told_try_body h d rows0 total r st _ _ E); try done;
    apply Hsub, list_elem_of_here.
Qed.

(** The members of the groups are the stored policies. *)
Lemma accumulate_members p gs g q :
  g ∈ accumulate p gs → q ∈ g.2 →
  q = p ∨ ∃ g', g' ∈ gs ∧ q ∈ g'.2.
Proof.
  induction gs as [|g0 gs IH]; simpl.
  - intros ->%list_elem_of_singleton. simpl. intros ->%list_elem_of_singleton. by left.
  - destruct (Nat.eqb g0.1 (p_user_id p)).
    + intros [->|Hg]%elem_of_cons Hq.
      * simpl in Hq. apply elem_of_app in Hq as [Hq|Hq].
        -- right. exists g0. split; [apply list_elem_of_here|done].
        -- apply list_elem_of_singleton in Hq. by left.
      * right. exists g. split; [by apply list_elem_of_further|done].
    + intros [->|Hg]%elem_of_cons Hq.
      * right. exists g0. split; [apply list_elem_of_here|done].
      * destruct (IH Hg Hq) as [?|(g' & Hg' & Hq')]; [by left|right].
        exists g'. split; [by apply list_elem_of_further|done].
Qed.

Lemma grouped_members ps g q :
  g ∈ grouped ps → q ∈ g.2 → ∃ doc, doc ∈ ps ∧ doc.2 = q.
Proof.
  revert g q. induction ps as [|p ps IH] using rev_ind; intros g q.
  { intros Hg. by apply elem_of_nil in Hg. }
  rewrite grouped_snoc. intros Hg Hq.
  destruct (accumulate_members _ _ _ _ Hg Hq) as [->|(g' & Hg' & Hq')].
  - exists p. split; [|done]. apply elem_of_app. right. apply list_elem_of_here.
  - destruct (IH g' q Hg' Hq') as (doc & Hdoc & Hd). exists doc.
    split; [|done]. apply elem_of_app. by left.
Qed.

Lemma Forall2_elem_of_l {A B} (R : A → B → Prop) l l' x :
  Forall2 R l l' → x ∈ l → ∃ y, y ∈ l' ∧ R x y.
Proof.
  induction 1 as [|a b l l' Hab _ IH]; intros Hx.
  { by apply elem_of_nil in Hx. }
  apply elem_of_cons in Hx as [->|Hx].
  - exists b. split; [apply list_elem_of_here|done].
  - destruct (IH Hx) as (y & Hy & HR). exists y.
    split; [by apply list_elem_of_further|done].
Qed.

(** What the answer shows of a policy that a row said. *)
Lemma with_details_told r d doc :
  fresh_ids d → told_by r d doc →
  policy_number r = Some (v_policy_number (with_details d doc.2))
  ∧ category_name r = v_policy_category (with_details d doc.2)
  ∧ company_name r = v_company_name (with_details d doc.2).
Proof.
  intros Hf (H1 & (n2 & H2 & N2 & I2) & (n3 & H3 & N3 & I3)).
  unfold with_details. simpl.
  destruct (Hf LOB) as [_ Hnd2]. destruct (Hf Carrier) as [_ Hnd3]. simpl in *.
  rewrite (by_id_unique _ _ _ Hnd2 I2), (by_id_unique _ _ _ Hnd3 I3). simpl.
  apply String.eqb_neq in N2. apply String.eqb_neq in N3. rewrite N2, N3.
  done.
Qed.

(** X17. From the payload to the answer of [GET /aggregated]: after an
    import into a store whose reference documents have distinct ids
    below the next id, every policy that the answer lists was either
    stored before the run, or it shows what a row of the payload said:
    the policy number of the row, and as category and company the
    [category_name] and [company_name] of that same row. *)
Theorem aggregated_shows_what_rows_said h csvData d rows items
    total_users total_policies data v pv :
  parse h csvData = inr rows →
  fresh_ids d →
  is_aggregate items (store_after h csvData d) →
  aggregated None items (store_after h csvData d)
  = Aggregated total_users total_policies data →
  v ∈ data → pv ∈ v_policies v →
  v_policy_number pv ∈ numbers d
  ∨ ∃ r, r ∈ rows
         ∧ policy_number r = Some (v_policy_number pv)
         ∧ category_name r = v_policy_category pv
         ∧ company_name r = v_company_name pv.
Proof.
  intros Ep Hf [(gs & Hperm & Hsame) _]. unfold aggregated. intros [= _ _ <-] Hv Hpv.
  pose proof (rtc_insertion_fresh_ids _ _ (store_after_grows h csvData d) Hf) as Hf'.
  assert (∀ doc, doc ∈ policies (store_after h csvData d) →
                 doc ∈ policies d
                 ∨ ∃ r, r ∈ rows ∧ told_by r (store_after h csvData d) doc) as Htold.
  { rewrite store_after_spec, Ep. destruct (connect h); [by left|].
    apply (told_one_at_a_time h d rows (length rows) 0 rows (fresh d));
      [done|apply sound_fresh|by left]. }
  apply list_elem_of_omap in Hv as (o & Ho & Hv). simpl in Hv. subst o.
  apply list_elem_of_fmap in Ho as (item & Hitem & Hin). symmetry in Hitem.
  unfold populate in Hitem.
  destruct (by_id item.1 (users (store_after h csvData d))) as [u|]; [|done].
  injection Hitem as <-. simpl in Hpv.
  apply list_elem_of_fmap in Hpv as (p & -> & Hp).
  rewrite Hperm in Hin.
  destruct (Forall2_elem_of_l _ _ _ _ Hsame Hin) as (g & Hg & _ & Hgp).
  rewrite Hgp in Hp.
  destruct (grouped_members _ _ _ Hg Hp) as (doc & Hdoc & <-).
  destruct (Htold doc Hdoc) as [Hold|(r & Hr & Ht)].
  - left. unfold numbers. apply list_elem_of_fmap. by exists doc.
  - right. exists r. split; [done|]. by apply with_details_told.
Qed.

Lemma aggregated_shows_what_rows_said_witness :
  let h := Demo.host_of Demo.three_rows Demo.no_fault in
  let d := store_after h "csv" Demo.empty_store in
  let items := grouped (policies d) in
  let pv := mkPolicyView "P-2" 1541116800000 1572652800000
              (Some "Commercial Auto") (Some "Acme Corp") in
  parse h "csv" = inr Demo.three_rows
  ∧ fresh_ids Demo.empty_store
  ∧ is_aggregate items d
  ∧ match aggregated None items d with
    | Aggregated total_users total_policies data =>
        ∃ v, v ∈ data ∧ pv ∈ v_policies v
             ∧ (v_policy_number pv ∈ numbers Demo.empty_store
                ∨ ∃ r, r ∈ Demo.three_rows
                       ∧ policy_number r = Some (v_policy_number pv)
                       ∧ category_name r = v_policy_category pv
                       ∧ company_name r = v_company_name pv)
    | ErrorAggregating _ => False
    end.
Proof.
  intros h d items pv.
  assert (fresh_ids Demo.empty_store) as H1.
  { intros f. destruct f; split; simpl; constructor. }
  assert (is_aggregate items d) as H2.
  { split.
    - exists items. split; [reflexivity|]. apply Forall_Forall2_diag.
      apply Forall_forall. intros x _. split; reflexivity.
    - vm_compute. repeat constructor. }
  split; [reflexivity|]. split; [exact H1|]. split; [exact H2|].
  destruct (aggregated None items d) as [n t data|] eqn:E; [|done].
  assert (∃ v, v ∈ data ∧ pv ∈ v_policies v) as (v & Hv & Hpv).
  { vm_compute in E. injection E as _ _ <-. eexists. split.
    - apply list_elem_of_further, list_elem_of_here.
    - apply list_elem_of_here. }
  exists v. split; [exact Hv|]. split; [exact Hpv|].
  exact (aggregated_shows_what_rows_said h "csv" Demo.empty_store Demo.three_rows
           items n t data v pv eq_refl H1 H2 E Hv Hpv).
Defined.

(** *** The upload route: spreadsheets with a capital in the extension *)

Lemma list_ascii_of_string_app s t :
  list_ascii_of_string (s +:+ t)
  = list_ascii_of_string s ++ list_ascii_of_string t.
Proof. induction s as [|a s IH]; simpl; [done|]. by rewrite IH. Qed.

Lemma list_ascii_of_lower s :
  list_ascii_of_string (Demo.lower s) = Demo.lower_ascii <$> list_ascii_of_string s.
Proof. induction s as [|a s IH]; simpl; [done|]. by rewrite IH. Qed.

Lemma endsWith_app s t : endsWith (s +:+ t) t = true.
Proof.
  unfold endsWith. apply bool_decide_eq_true.
  rewrite list_ascii_of_string_app. by apply suffix_app_r.
Qed.

Lemma lower_app s t : Demo.lower (s +:+ t) = Demo.lower s +:+ Demo.lower t.
Proof. induction s as [|a s IH]; simpl; [done|]. by rewrite IH. Qed.

(** A name ends with [suffix] only if its last characters are those of
    [suffix], from the last one backwards. *)
Lemma endsWith_reverse s suffix :
  endsWith s suffix = true →
  ∃ k, rev (list_ascii_of_string s) = rev (list_ascii_of_string suffix) ++ k.
Proof.
  unfold endsWith. intros [k Hk]%bool_decide_eq_true. exists (rev k).
  by rewrite Hk, rev_app_distr.
Qed.

(** X18. A spreadsheet whose extension has a capital letter passes the
    filter of the upload and is then read as text: for every name that
    ends in [.xlsx] or [.xls] written with at least one capital, the
    [fileFilter] accepts the file, and unless the browser sent the
    mimetype of a workbook, the route does not open it as a workbook but
    reads its bytes as UTF-8 for the CSV parser. *)
Theorem capital_extension_is_read_as_text stem ext mimetype :
  Demo.lower ext = ".xlsx" ∨ Demo.lower ext = ".xls" →
  ext ≠ Demo.lower ext →
  mimetype ≠ xlsx_mimetype →
  allowedTypes (stem +:+ ext) = true
  ∧ read_as_workbook mimetype (stem +:+ ext) = false.
Proof.
  intros Hext Hcap Hmime. split.
  - unfold allowedTypes. rewrite lower_app.
    destruct Hext as [-> | ->]; rewrite endsWith_app; simpl;
      by rewrite ?orb_true_r.
  - unfold read_as_workbook.
    apply String.eqb_neq in Hmime. rewrite Hmime. simpl.
    apply orb_false_intro.
    + destruct (endsWith (stem +:+ ext) ".xlsx") eqn:E; [exfalso|done].
      apply endsWith_reverse in E as [k Hk].
      rewrite list_ascii_of_string_app, rev_app_distr in Hk. simpl in Hk.
      destruct Hext as [Hl|Hl].
      * destruct ext as [|a [|b [|c [|e [|f [|]]]]]]; try done.
        simpl in Hk. injection Hk as -> -> -> -> -> _. done.
      * destruct ext as [|a [|b [|c [|e [|]]]]]; try done.
        simpl in Hk. injection Hk as -> -> -> -> _. done.
    + destruct (endsWith (stem +:+ ext) ".xls") eqn:E; [exfalso|done].
      apply endsWith_reverse in E as [k Hk].
      rewrite list_ascii_of_string_app, rev_app_distr in Hk. simpl in Hk.
      destruct Hext as [Hl|Hl].
      * destruct ext as [|a [|b [|c [|e [|f [|]]]]]]; try done.
        simpl in Hk. injection Hk as -> -> -> -> _. done.
      * destruct ext as [|a [|b [|c [|e [|]]]]]; try done.
        simpl in Hk. injection Hk as -> -> -> -> _. done.
Qed.

Lemma capital_extension_is_read_as_text_witness :
  (Demo.lower ".XLSX" = ".xlsx" ∨ Demo.lower ".XLSX" = ".xls")
  ∧ ".XLSX" ≠ Demo.lower ".XLSX"
  ∧ "application/octet-stream" ≠ xlsx_mimetype
  ∧ allowedTypes ("policies" +:+ ".XLSX") = true
  ∧ read_as_workbook "application/octet-stream" ("policies" +:+ ".XLSX") = false.
Proof.
  assert (Demo.lower ".XLSX" = ".xlsx" ∨ Demo.lower ".XLSX" = ".xls") as H1
    by (left; reflexivity).
  assert (".XLSX" ≠ Demo.lower ".XLSX") as H2 by (vm_compute; discriminate).
  assert ("application/octet-stream" ≠ xlsx_mimetype) as H3
    by (vm_compute; discriminate).
  split; [exact H1|]. split; [exact H2|]. split; [exact H3|].
  exact (capital_extension_is_read_as_text "policies" ".XLSX"
           "application/octet-stream" H1 H2 H3).
Defined.

(** *** The table of jobs *)

Lemma cleared_lookup (l : list (oid * nat)) (m : gmap nat timeout) t :
  (t ∈ l.*2 → foldr (λ job left, delete job.2 left) m l !! t = None)
  ∧ (t ∉ l.*2 → foldr (λ job left, delete job.2 left) m l !! t = m !! t).
Proof.
  induction l as [|job l [IH1 IH2]]; simpl.
  { split; [intros H; by apply elem_of_nil in H|done]. }
  destruct (decide (job.2 = t)) as [<-|Hne].
  - rewrite lookup_delete_eq. split; [done|].
    intros H. destruct H. apply list_elem_of_here.
  - rewrite lookup_delete_ne by done. split.
    + intros [?|?]%elem_of_cons; [done|by apply IH1].
    + intros H. apply IH2. intros ?. apply H. by apply list_elem_of_further.
Qed.

Section Jobs.

Local Open Scope Z_scope.

(** X19. Scheduling and cancelling undo each other: for a message that
    lies ahead and has no job yet, [cancelMessage] right after
    [scheduleMessage] answers [true] and leaves the table of jobs and the
    pending timeouts as they were before. *)
Theorem cancel_undoes_schedule message now s :
  getTime now ≤ getTime (scheduled_datetime message) →
  jobs s !! sm_id message = None →
  pending s !! next_timeout s = None →
  ∃ s', cancelMessage (sm_id message) (scheduleMessage message now s) = (true, s')
        ∧ jobs s' = jobs s ∧ pending s' = pending s
        ∧ executing s' = executing s.
Proof.
  intros Hle Hjob Hfresh. unfold scheduleMessage.
  destruct (Z.ltb_spec (getTime (scheduled_datetime message)) (getTime now));
    [lia|].
  unfold cancelMessage. simpl. rewrite lookup_insert_eq. eexists. split; [done|].
  simpl. split_and!; [|by apply delete_insert_id|done].
  by apply delete_insert_id.
Qed.

Lemma cancel_undoes_schedule_witness :
  getTime Text.friday_morning ≤ getTime (scheduled_datetime Idle.reminder)
  ∧ jobs Idle.table !! sm_id Idle.reminder = None
  ∧ pending Idle.table !! next_timeout Idle.table = None
  ∧ ∃ s', cancelMessage (sm_id Idle.reminder)
            (scheduleMessage Idle.reminder Text.friday_morning Idle.table)
          = (true, s')
          ∧ jobs s' = jobs Idle.table ∧ pending s' = pending Idle.table
          ∧ executing s' = executing Idle.table.
Proof.
  assert (getTime Text.friday_morning ≤ getTime (scheduled_datetime Idle.reminder))
    as H1 by (vm_compute; discriminate).
  assert (jobs Idle.table !! sm_id Idle.reminder = None) as H2 by reflexivity.
  assert (pending Idle.table !! next_timeout Idle.table = None) as H3
    by reflexivity.
  split; [exact H1|]. split; [exact H2|]. split; [exact H3|].
  exact (cancel_undoes_schedule Idle.reminder Text.friday_morning Idle.table
           H1 H2 H3).
Defined.

(** X20. A message that is scheduled twice is cancelled only once: the
    second [scheduleMessage] overwrites the job of the first, so that
    [cancelMessage] clears the second timeout only; it answers [true],
    the table has no job for the message any more, a further
    [cancelMessage] answers [false], and the first timeout is still
    pending with the message. *)
Theorem second_schedule_orphans_first message now now' s :
  getTime now ≤ getTime (scheduled_datetime message) →
  getTime now' ≤ getTime (scheduled_datetime message) →
  ∃ s',
    cancelMessage (sm_id message)
      (scheduleMessage message now' (scheduleMessage message now s))
    = (true, s')
    ∧ jobs s' !! sm_id message = None
    ∧ cancelMessage (sm_id message) s' = (false, s')
    ∧ pending s' !! next_timeout s
      = Some (mkTimeout message
                (getTime (scheduled_datetime message) - getTime now)).
Proof.
  intros Hle Hle'. unfold scheduleMessage.
  destruct (Z.ltb_spec (getTime (scheduled_datetime message)) (getTime now));
    [lia|].
  destruct (Z.ltb_spec (getTime (scheduled_datetime message)) (getTime now'));
    [lia|].
  unfold cancelMessage at 1. simpl. rewrite lookup_insert_eq.
  eexists. split; [done|]. unfold cancelMessage. simpl.
  rewrite lookup_delete_eq. split_and!; [done|done|].
  rewrite delete_insert_eq, lookup_delete_ne by lia.
  by rewrite lookup_insert_eq.
Qed.

Lemma second_schedule_orphans_first_witness :
  getTime Text.friday_morning ≤ getTime (scheduled_datetime Idle.reminder)
  ∧ ∃ s',
      cancelMessage (sm_id Idle.reminder)
        (scheduleMessage Idle.reminder Text.friday_morning
           (scheduleMessage Idle.reminder Text.friday_morning Idle.table))
      = (true, s')
      ∧ jobs s' !! sm_id Idle.reminder = None
      ∧ cancelMessage (sm_id Idle.reminder) s' = (false, s')
      ∧ pending s' !! next_timeout Idle.table
        = Some (mkTimeout Idle.reminder
                  (getTime (scheduled_datetime Idle.reminder)
                   - getTime Text.friday_morning)).
Proof.
  assert (getTime Text.friday_morning ≤ getTime (scheduled_datetime Idle.reminder))
    as H1 by (vm_compute; discriminate).
  split; [exact H1|].
  exact (second_schedule_orphans_first Idle.reminder Text.friday_morning
           Text.friday_morning Idle.table H1 H1).
Defined.

End Jobs.

(** X21. [stop] clears the timeouts of the table and no others: after
    it the table is empty and the scheduler is not running, no timeout
    that a job held is pending, and every other pending timeout, of a
    message whose job was overwritten, is still pending. *)
Theorem stop_clears_the_jobs s :
  jobs (stop s) = ∅
  ∧ isRunning (stop s) = false
  ∧ (∀ id t, jobs s !! id = Some t → pending (stop s) !! t = None)
  ∧ (∀ t, (∀ id, jobs s !! id ≠ Some t) →
          pending (stop s) !! t = pending s !! t).
Proof.
  unfold stop. simpl. split_and!; [done|done| |].
  - intros id t Hjob. apply cleared_lookup.
    apply list_elem_of_fmap. exists (id, t). split; [done|].
    by apply elem_of_map_to_list.
  - intros t Hno. apply cleared_lookup.
    intros Hin. apply list_elem_of_fmap in Hin as ([id t'] & -> & Hin).
    apply elem_of_map_to_list in Hin. by apply (Hno id).
Qed.

Lemma scheduleMessage_no_orphan message now s :
  jobs s !! sm_id message = None →
  no_orphan s → numbered s →
  no_orphan (scheduleMessage message now s)
  ∧ numbered (scheduleMessage message now s)
  ∧ ∀ id t, jobs s !! id = Some t →
            jobs (scheduleMessage message now s) !! id = Some t.
Proof.
  intros Hjob Hno Hnum. unfold scheduleMessage.
  destruct (getTime (scheduled_datetime message) <? getTime now)%Z; simpl.
  { done. }
  split_and!.
  - intros t x. simpl. destruct (decide (t = next_timeout s)) as [->|Hne].
    + rewrite lookup_insert_eq. intros [= <-]. simpl. by rewrite lookup_insert_eq.
    + rewrite lookup_insert_ne by done. intros Hx.
      pose proof (Hno t x Hx) as Hj.
      rewrite lookup_insert_ne; [done|]. intros E. rewrite <- E in Hj.
      by rewrite Hjob in Hj.
  - intros t x. simpl. destruct (decide (t = next_timeout s)) as [->|Hne].
    + intros _. lia.
    + rewrite lookup_insert_ne by done. intros Hx. apply Hnum in Hx. lia.
  - intros id t Hid. simpl. rewrite lookup_insert_ne; [done|].
    intros E. rewrite <- E in Hid. by rewrite Hjob in Hid.
Qed.

(** X22. [loadPendingMessages] never overwrites a job: when every
    pending timeout is the job of its message before the loop, the same
    holds after it, whatever the query answered, and every job of the
    table is still there with its timeout. Unlike a second
    [scheduleMessage], the loop leaves no timeout behind that
    [cancelMessage] and [stop] cannot reach. *)
Theorem load_keeps_the_jobs pendingMessages s :
  no_orphan s → numbered s →
  no_orphan (loadPendingMessages pendingMessages s)
  ∧ numbered (loadPendingMessages pendingMessages s)
  ∧ ∀ id t, jobs s !! id = Some t →
            jobs (loadPendingMessages pendingMessages s) !! id = Some t.
Proof.
  revert s. induction pendingMessages as [|[message now] rest IH]; intros s Hno Hnum.
  { done. }
  simpl. destruct (jobs s !! sm_id message) as [t0|] eqn:Hjob.
  { by apply IH. }
  destruct (scheduleMessage_no_orphan message now s Hjob Hno Hnum)
    as (Hno' & Hnum' & Hkeep).
  destruct (IH _ Hno' Hnum') as (H1 & H2 & H3).
  split_and!; [done|done|]. intros id t Hid. by apply H3, Hkeep.
Qed.

Lemma load_keeps_the_jobs_witness :
  let l := [(Idle.reminder, Text.friday_morning);
            (Idle.reminder, Text.friday_morning)] in
  no_orphan Idle.table ∧ numbered Idle.table
  ∧ no_orphan (loadPendingMessages l Idle.table)
  ∧ jobs (loadPendingMessages l Idle.table) !! 0 = Some 0.
Proof.
  intros l.
  assert (no_orphan Idle.table) as H1 by (intros t x Hx; done).
  assert (numbered Idle.table) as H2 by (intros t x Hx; done).
  split; [exact H1|]. split; [exact H2|].
  split; [|reflexivity].
  exact (proj1 (load_keeps_the_jobs l Idle.table H1 H2)).
Defined.

